(** * Car Rush: the simulation core of [useGameLoop]

    A shallow embedding of the game hook [useGameLoop] (road generation, coin
    spawning, the per-frame [gameLoop], the off-road test, the score and the
    milestone latch) and of the part of [GameScreen] that drives it (pause,
    reset, the guard of [handleScoreThresholdReached]), with the theorems
    that settle the properties stated about them.  The canister call that
    the milestone leads to ([useProcessAction], the rest of the handler, the
    short form of the principal) is modelled on its own, after the game.

    How the code is modelled.

    - Numbers.  A JavaScript [number] that holds a coordinate, an angle or a
      distance is a real number ([R]): the properties are about the
      algorithms, not about rounding.  [Infinity], the initial [minDistance]
      of the off-road test, is a constructor of its own.  The score only
      takes the values 0, 10, 20, ... and is an integer ([Z]); loop counters
      and lengths are [nat].
    - State.  The object in [gameStateRef], the React state of the hook and
      of the screen, and the two latches are fields of one record, [World];
      the closures of the hook are computations in a monad that threads the
      world, may stop with a [TypeError] (a property read on [undefined]) and
      records the calls that leave the hook ([setIsGameOver(true)] by call
      site, the deferred milestone callback).
    - Randomness.  [Math.random()] reads the next element of a stream
      [rnd : nat -> R], a parameter of everything that draws.
    - Time.  An animation frame is one atomic step; a state setter takes
      effect at once (the loop reads [isPaused] and [isGameOver] only at the
      start of a frame); a timer set with [setTimeout(..., 0)] runs right
      after the frame that set it.
    - Drawing (the canvas calls, the logo images) changes nothing of the
      state and is left out, except for the one read that can fail: the
      road is drawn from [roadPath[0]], which an empty path does not have. *)

From Stdlib Require Import Reals Lra Lia String List ZArith Bool Arith.
Import ListNotations.

Open Scope R_scope.

(** ** Comparisons on numbers, as booleans *)

Definition ltb (x y : R) : bool := if Rlt_dec x y then true else false.
Definition gtb (x y : R) : bool := ltb y x.
Definition neqb (x y : R) : bool := if Req_dec_T x y then false else true.

Infix "<?" := ltb (at level 70, no associativity) : R_scope.
Infix ">?" := gtb (at level 70, no associativity) : R_scope.
Infix "!==" := neqb (at level 70, no associativity) : R_scope.

(** ** Data model *)

Module Point.
Record t : Type := mk { x : R; y : R }.
End Point.

Module Coin.
Record t : Type := mk { x : R; y : R; collected : bool }.
End Coin.

Module Car.
Record t : Type := mk { x : R; y : R; angle : R; speed : R }.
End Car.

(** A number that may be [Infinity] (the initial [minDistance]). *)
Inductive xnumber : Type :=
| Infinity : xnumber
| Finite : R -> xnumber.

(** [Math.min(m, d)] where [d] is an ordinary number. *)
Definition Math_min (m : xnumber) (d : R) : xnumber :=
  match m with
  | Infinity => Finite d
  | Finite v => Finite (Rmin v d)
  end.

(** [m < bound] where [bound] is an ordinary number. *)
Definition xltb (m : xnumber) (bound : R) : bool :=
  match m with
  | Infinity => false
  | Finite v => v <? bound
  end.

(** ** Constants *)

Definition CANVAS_WIDTH : R := 800.
Definition CANVAS_HEIGHT : R := 600.
Definition CAR_WIDTH : R := 64.
Definition CAR_HEIGHT : R := 32.
Definition COIN_SIZE : R := 24.
Definition ROAD_WIDTH : R := 400.
Definition TURN_SPEED : R := 8 / 100.
Definition MOVE_SPEED : R := 6.
Definition SEGMENT_WIDTH : R := 60.
Definition ROAD_EXTEND_THRESHOLD : R := 200.
Definition MAX_SCORE : Z := 20000.
Definition ACTION_SCORE_THRESHOLD : Z := 300.

(** ** Collision detection *)

(** [checkCollision(car, {x, y})]: centre distance below the radius sum. *)
Definition checkCollision (car : Car.t) (cx cy : R) : bool :=
  let dx := Car.x car - cx in
  let dy := Car.y car - cy in
  let distance := sqrt (dx * dx + dy * dy) in
  distance <? (Rmax CAR_WIDTH CAR_HEIGHT + COIN_SIZE) / 2.

Section OffRoad.

(** The division of [param = dot / lenSq] is a parameter, so that what the
    test does with a zero divisor can be stated: a result that is the same
    for every [divide] did not come from a division. *)
Variable divide : R -> R -> R.

(** The body of the loop of [isCarOnRoad]: distance from the car to the
    segment from [p1] to [p2]. *)
Definition segmentDistance_with (car : Car.t) (p1 p2 : Point.t) : R :=
  let A := Car.x car - Point.x p1 in
  let B := Car.y car - Point.y p1 in
  let C := Point.x p2 - Point.x p1 in
  let D := Point.y p2 - Point.y p1 in
  let dot := A * C + B * D in
  let lenSq := C * C + D * D in
  let param := if lenSq !== 0 then divide dot lenSq else -1 in
  let (xx, yy) :=
    if param <? 0 then (Point.x p1, Point.y p1)
    else if param >? 1 then (Point.x p2, Point.y p2)
    else (Point.x p1 + param * C, Point.y p1 + param * D) in
  let dx := Car.x car - xx in
  let dy := Car.y car - yy in
  sqrt (dx * dx + dy * dy).

(** The loop [for (i = 0; i < roadPath.length - 1; i++)] over the pairs
    [roadPath[i]], [roadPath[i + 1]], threading [minDistance]. *)
Fixpoint closestSegment_with (car : Car.t) (roadPath : list Point.t)
         (minDistance : xnumber) : xnumber :=
  match roadPath with
  | p1 :: rest =>
      match rest with
      | p2 :: _ =>
          closestSegment_with car rest
            (Math_min minDistance (segmentDistance_with car p1 p2))
      | [] => minDistance
      end
  | [] => minDistance
  end.

Definition isCarOnRoad_with (car : Car.t) (roadPath : list Point.t) : bool :=
  let minDistance := closestSegment_with car roadPath Infinity in
  xltb minDistance (ROAD_WIDTH / 2 - 20).

End OffRoad.

Definition segmentDistance := segmentDistance_with Rdiv.
Definition closestSegment := closestSegment_with Rdiv.
Definition isCarOnRoad := isCarOnRoad_with Rdiv.

(** ** The off-path test in the words of the specification

    Used only to compare with [isCarOnRoad]. *)

Definition distanceTo (car : Car.t) (qx qy : R) : R :=
  sqrt ((Car.x car - qx) * (Car.x car - qx) + (Car.y car - qy) * (Car.y car - qy)).

Definition clamp01 (t : R) : R := Rmax 0 (Rmin 1 t).

(** Clamped projection: project onto the line through [p1] and [p2], clamp the
    parametric position to [0,1], measure the distance to the clamped point;
    coincident points give the distance to the shared point. *)
Definition spec_segmentDistance (car : Car.t) (p1 p2 : Point.t) : R :=
  let C := Point.x p2 - Point.x p1 in
  let D := Point.y p2 - Point.y p1 in
  let lenSq := C * C + D * D in
  if lenSq !== 0 then
    let t := clamp01 (((Car.x car - Point.x p1) * C + (Car.y car - Point.y p1) * D) / lenSq) in
    distanceTo car (Point.x p1 + t * C) (Point.y p1 + t * D)
  else distanceTo car (Point.x p1) (Point.y p1).

(** The consecutive pairs of a path. *)
Fixpoint segments (roadPath : list Point.t) : list (Point.t * Point.t) :=
  match roadPath with
  | p1 :: rest =>
      match rest with
      | p2 :: _ => (p1, p2) :: segments rest
      | [] => []
      end
  | [] => []
  end.

(** Minimum of a list of numbers; [None] for the empty list. *)
Fixpoint minimum (l : list R) : option R :=
  match l with
  | [] => None
  | d :: rest =>
      match minimum rest with
      | None => Some d
      | Some m => Some (Rmin d m)
      end
  end.

Definition spec_minDistance (car : Car.t) (roadPath : list Point.t) : option R :=
  minimum (map (fun s => spec_segmentDistance car (fst s) (snd s)) (segments roadPath)).

(** Off-path as the specification words it: the minimum exceeds the bound. *)
Definition spec_offPath_exceeds (car : Car.t) (roadPath : list Point.t) : Prop :=
  exists m, spec_minDistance car roadPath = Some m /\ ROAD_WIDTH / 2 - 20 < m.

(** Off-path as the code decides it: the minimum reaches the bound. *)
Definition spec_offPath_reaches (car : Car.t) (roadPath : list Point.t) : Prop :=
  exists m, spec_minDistance car roadPath = Some m /\ ROAD_WIDTH / 2 - 20 <= m.

(** ** The state

    [GameState] is the object held by [gameStateRef] (the two logo images are
    used by drawing only and are left out).  [World] adds the React state of
    the hook ([score], [speed], its [actionTriggeredRef]), the state of
    [GameScreen] that the loop reads ([isPaused], [isGameOver], its own
    [actionTriggeredRef]) and the number of [Math.random()] results consumed. *)

Record GameState : Type := mkGameState {
  car : Car.t;
  coins : list Coin.t;
  keysPressed : list string;
  roadPath : list Point.t;
  cameraOffsetY : R
}.

Record World : Type := mkWorld {
  gameStateRef : GameState;
  score : Z;
  speed : R;
  actionTriggeredRef : bool;
  isPaused : bool;
  isGameOver : bool;
  screenActionTriggeredRef : bool;
  randomCalls : nat
}.

(** Calls that leave the hook, in the order they are made.  The three
    [setIsGameOver(true)] call sites are told apart. *)
Inductive Signal : Type :=
| GameOverOffRoad
| GameOverOffScreen
| GameOverMaxScore
| ThresholdReached      (* the deferred [onScoreThresholdReached()] *)
| ProcessActionFlow.    (* [handleScoreThresholdReached] got past its guard *)

Definition Signal_eqb (a b : Signal) : bool :=
  match a, b with
  | GameOverOffRoad, GameOverOffRoad
  | GameOverOffScreen, GameOverOffScreen
  | GameOverMaxScore, GameOverMaxScore
  | ThresholdReached, ThresholdReached
  | ProcessActionFlow, ProcessActionFlow => true
  | _, _ => false
  end.

Definition occurrences (s : Signal) (out : list Signal) : nat :=
  length (filter (Signal_eqb s) out).

Definition signalled (s : Signal) (out : list Signal) : bool :=
  existsb (Signal_eqb s) out.

(** ** A state, error and output monad for the closures of the hook *)

Inductive Result (A : Type) : Type :=
| Ok : A -> Result A
| TypeError : Result A.   (* a property read on [undefined] *)

Arguments Ok {A} _.
Arguments TypeError {A}.

Definition M (A : Type) : Type := World -> Result (A * World * list Signal).

Definition ret {A : Type} (a : A) : M A := fun w => Ok (a, w, []).

Definition bind {A B : Type} (m : M A) (f : A -> M B) : M B :=
  fun w =>
    match m w with
    | TypeError => TypeError
    | Ok (a, w1, out1) =>
        match f a w1 with
        | TypeError => TypeError
        | Ok (b, w2, out2) => Ok (b, w2, out1 ++ out2)
        end
    end.

Declare Scope game_scope.
Delimit Scope game_scope with game.
Notation "x <- m ;; k" := (bind m (fun x => k))
  (at level 61, m at next level, right associativity) : game_scope.
Notation "m ;; k" := (bind m (fun _ => k))
  (at level 61, right associativity) : game_scope.
Open Scope game_scope.

Definition throw {A : Type} : M A := fun _ => TypeError.
Definition get : M World := fun w => Ok (w, w, []).
Definition modify (f : World -> World) : M unit := fun w => Ok (tt, f w, []).
Definition emit (s : Signal) : M unit := fun w => Ok (tt, w, [s]).
Definition when (b : bool) (m : M unit) : M unit := if b then m else ret tt.

(** [for (let i = start; ...; i++)] with [n] iterations; the loop's local
    variables are the accumulator. *)
Fixpoint forLoop {A : Type} (i n : nat) (body : nat -> A -> M A) (acc : A) : M A :=
  match n with
  | O => ret acc
  | S n' => acc' <- body i acc ;; forLoop (S i) n' body acc'
  end.

(** [array.forEach] where the callback may mutate the element it is given. *)
Fixpoint forEach {A : Type} (body : A -> M A) (l : list A) : M (list A) :=
  match l with
  | [] => ret []
  | a :: rest => a' <- body a ;; rest' <- forEach body rest ;; ret (a' :: rest')
  end.

(** *** Field updates *)

Definition with_car (c : Car.t) (s : GameState) : GameState :=
  mkGameState c (coins s) (keysPressed s) (roadPath s) (cameraOffsetY s).
Definition with_coins (cs : list Coin.t) (s : GameState) : GameState :=
  mkGameState (car s) cs (keysPressed s) (roadPath s) (cameraOffsetY s).
Definition with_keysPressed (ks : list string) (s : GameState) : GameState :=
  mkGameState (car s) (coins s) ks (roadPath s) (cameraOffsetY s).
Definition with_roadPath (path : list Point.t) (s : GameState) : GameState :=
  mkGameState (car s) (coins s) (keysPressed s) path (cameraOffsetY s).
Definition with_cameraOffsetY (o : R) (s : GameState) : GameState :=
  mkGameState (car s) (coins s) (keysPressed s) (roadPath s) o.

Definition with_state (f : GameState -> GameState) (w : World) : World :=
  mkWorld (f (gameStateRef w)) (score w) (speed w) (actionTriggeredRef w)
          (isPaused w) (isGameOver w) (screenActionTriggeredRef w) (randomCalls w).
Definition with_score (v : Z) (w : World) : World :=
  mkWorld (gameStateRef w) v (speed w) (actionTriggeredRef w)
          (isPaused w) (isGameOver w) (screenActionTriggeredRef w) (randomCalls w).
Definition with_speed (v : R) (w : World) : World :=
  mkWorld (gameStateRef w) (score w) v (actionTriggeredRef w)
          (isPaused w) (isGameOver w) (screenActionTriggeredRef w) (randomCalls w).
Definition with_actionTriggeredRef (b : bool) (w : World) : World :=
  mkWorld (gameStateRef w) (score w) (speed w) b
          (isPaused w) (isGameOver w) (screenActionTriggeredRef w) (randomCalls w).
Definition with_isPaused (b : bool) (w : World) : World :=
  mkWorld (gameStateRef w) (score w) (speed w) (actionTriggeredRef w)
          b (isGameOver w) (screenActionTriggeredRef w) (randomCalls w).
Definition with_isGameOver (b : bool) (w : World) : World :=
  mkWorld (gameStateRef w) (score w) (speed w) (actionTriggeredRef w)
          (isPaused w) b (screenActionTriggeredRef w) (randomCalls w).
Definition with_screenActionTriggeredRef (b : bool) (w : World) : World :=
  mkWorld (gameStateRef w) (score w) (speed w) (actionTriggeredRef w)
          (isPaused w) (isGameOver w) b (randomCalls w).
Definition with_randomCalls (n : nat) (w : World) : World :=
  mkWorld (gameStateRef w) (score w) (speed w) (actionTriggeredRef w)
          (isPaused w) (isGameOver w) (screenActionTriggeredRef w) n.

Definition getState : M GameState := fun w => Ok (gameStateRef w, w, []).
Definition modifyState (f : GameState -> GameState) : M unit := modify (with_state f).
Definition setScore (v : Z) : M unit := modify (with_score v).
Definition setSpeed (v : R) : M unit := modify (with_speed v).
Definition setIsGameOver (b : bool) : M unit := modify (with_isGameOver b).
Definition setIsPaused (b : bool) : M unit := modify (with_isPaused b).

(** [array[array.length - 1]]: [undefined] on the empty array. *)
Fixpoint lastElement {A : Type} (l : list A) : option A :=
  match l with
  | [] => None
  | a :: rest =>
      match rest with
      | [] => Some a
      | _ :: _ => lastElement rest
      end
  end.

(** Reading a property of [array[i]]: a [TypeError] when it is [undefined]. *)
Definition defined {A : Type} (o : option A) : M A :=
  match o with
  | Some a => ret a
  | None => throw
  end.

(** The pressed keys, a [Set<string>]. *)
Definition has (key : string) (keys : list string) : bool :=
  existsb (String.eqb key) keys.
Definition add (key : string) (keys : list string) : list string :=
  if has key keys then keys else keys ++ [key].
Definition delete (key : string) (keys : list string) : list string :=
  filter (fun k => negb (String.eqb key k)) keys.

Definition pushRoad (p : Point.t) : M unit :=
  modifyState (fun s => with_roadPath (roadPath s ++ [p]) s).
Definition pushCoin (c : Coin.t) : M unit :=
  modifyState (fun s => with_coins (coins s ++ [c]) s).

(** The signals emitted by [m], also returned as its value. *)
Definition listen {A : Type} (m : M A) : M (list Signal) :=
  fun w =>
    match m w with
    | TypeError => TypeError
    | Ok (_, w1, out) => Ok (out, w1, out)
    end.

(** What happens to a mounted screen: key events, animation frames and the two
    buttons. *)
Inductive Input : Type :=
| KeyDown (key : string)
| KeyUp (key : string)
| AnimationFrame
| PauseClick.

Inductive Event : Type :=
| User (i : Input)
| ResetClick.

(** ** Road generation and coin spawning *)

Section Game.

(** The successive results of [Math.random()]. *)
Variable rnd : nat -> R.

Definition Math_random : M R :=
  fun w => Ok (rnd (randomCalls w), with_randomCalls (S (randomCalls w)) w, []).

(** The left / straight / right choice shared by both generators:
    [turn ? (Math.random() > 0.5 ? 1 : -1) : 0]. *)
Definition chooseDirection (turn : bool) : M R :=
  if turn then r <- Math_random ;; ret (if r >? 5 / 10 then 1 else -1)
  else ret 0.

(** [Math.max(ROAD_WIDTH / 2, Math.min(CANVAS_WIDTH - ROAD_WIDTH / 2, x))]. *)
Definition keepWithinBounds (currentX : R) : R :=
  Rmax (ROAD_WIDTH / 2) (Rmin (CANVAS_WIDTH - ROAD_WIDTH / 2) currentX).

Definition extendRoad : M unit :=
  state <- getState ;;
  lastPoint <- defined (lastElement (roadPath state)) ;;
  let currentSegmentCount := length (roadPath state) in
  _ <- forLoop 0 5 (fun i '(currentX, currentY) =>
    let currentY := currentY - SEGMENT_WIDTH in
    direction <- chooseDirection ((currentSegmentCount + i) mod 3 =? 0)%nat ;;
    let currentX := currentX + direction * (SEGMENT_WIDTH * (8 / 10)) in
    let currentX := keepWithinBounds currentX in
    pushRoad (Point.mk currentX currentY) ;;
    r <- Math_random ;;
    (if r >? 4 / 10 then
       r' <- Math_random ;;
       let offsetX := (r' - 5 / 10) * 40 in
       pushCoin (Coin.mk (currentX + offsetX) currentY false)
     else ret tt) ;;
    ret (currentX, currentY))
    (Point.x lastPoint, Point.y lastPoint) ;;
  ret tt.

Definition initializeRoad : M unit :=
  modifyState (with_roadPath []) ;;
  let currentX := CANVAS_WIDTH / 2 in
  let currentY := CANVAS_HEIGHT in
  pushRoad (Point.mk currentX currentY) ;;
  _ <- forLoop 0 15 (fun i '(currentX, currentY) =>
    let currentY := currentY - SEGMENT_WIDTH in
    direction <- chooseDirection (i mod 3 =? 0)%nat ;;
    let currentX := currentX + direction * (SEGMENT_WIDTH * (8 / 10)) in
    let currentX := keepWithinBounds currentX in
    pushRoad (Point.mk currentX currentY) ;;
    ret (currentX, currentY))
    (currentX, currentY) ;;
  ret tt.

Definition initializeCoins : M unit :=
  modifyState (with_coins []) ;;
  state <- getState ;;
  _ <- forLoop 1 (length (roadPath state) - 1 - 1) (fun i (_ : unit) =>
    r <- Math_random ;;
    (if r >? 4 / 10 then
       state <- getState ;;
       point <- defined (nth_error (roadPath state) i) ;;
       nextPoint <- defined (nth_error (roadPath state) (i + 1)) ;;
       r' <- Math_random ;;
       let offsetX := (r' - 5 / 10) * 40 in
       pushCoin (Coin.mk ((Point.x point + Point.x nextPoint) / 2 + offsetX)
                         ((Point.y point + Point.y nextPoint) / 2)
                         false)
     else ret tt))
    tt ;;
  ret tt.

Definition freshGameState : GameState :=
  mkGameState (Car.mk (CANVAS_WIDTH / 2) (CANVAS_HEIGHT - 100) (- PI / 2) 0)
              [] [] [] 0.

Definition resetGame : M unit :=
  setScore 0 ;;
  setSpeed 0 ;;
  modify (with_actionTriggeredRef false) ;;
  modifyState (fun _ => freshGameState) ;;
  initializeRoad ;;
  initializeCoins.

(** ** The frame loop *)

Section Loop.

(** The two tests the loop calls are parameters, so that "is not
    evaluated" can be stated as "the outcome is the same for every test";
    [gameLoop] below instantiates them with [isCarOnRoad] (which reads
    [state.roadPath]) and [checkCollision]. *)
Variable onRoad : Car.t -> list Point.t -> bool.
Variable collide : Car.t -> R -> R -> bool.

(** [setScore(updater)]: the updater gets the current score and returns the
    new one. *)
Definition setScoreWith (updater : Z -> M Z) : M unit :=
  w <- get ;;
  newScore <- updater (score w) ;;
  setScore newScore.

(** The updater that the coin loop gives to [setScore]; [emit
    ThresholdReached] stands for the [setTimeout] that calls
    [onScoreThresholdReached]. *)
Definition scoreUpdater (prev : Z) : M Z :=
  let newScore := (prev + 10)%Z in
  w <- get ;;
  when ((newScore >=? ACTION_SCORE_THRESHOLD)%Z && negb (actionTriggeredRef w))
    (modify (with_actionTriggeredRef true) ;;
     emit ThresholdReached) ;;
  when (newScore >=? MAX_SCORE)%Z
    (setIsGameOver true ;;
     emit GameOverMaxScore) ;;
  ret newScore.

(** The callback of [state.coins.forEach]; it returns the coin as the
    callback leaves it. *)
Definition collectCoin_with (coin : Coin.t) : M Coin.t :=
  if Coin.collected coin then ret coin else
  state <- getState ;;
  let coinScreenY := Coin.y coin + cameraOffsetY state in
  if (coinScreenY <? -50) || (coinScreenY >? CANVAS_HEIGHT + 50) then ret coin else
  if collide (car state) (Coin.x coin) coinScreenY then
    setScoreWith scoreUpdater ;;
    ret (Coin.mk (Coin.x coin) (Coin.y coin) true)
  else ret coin.

(** [drawRoad(ctx, state)]: three polylines that each start with [moveTo] at
    [state.roadPath[0]].  The canvas calls change nothing of the state; what
    is kept of them is the read of [roadPath[0]], a [TypeError] on an empty
    path. *)
Definition drawRoad : M unit :=
  state <- getState ;;
  _ <- defined (nth_error (roadPath state) 0) ;;
  ret tt.

(** [state.car.angle += delta]. *)
Definition turnBy (delta : R) (s : GameState) : GameState :=
  with_car (Car.mk (Car.x (car s)) (Car.y (car s))
                   (Car.angle (car s) + delta) (Car.speed (car s))) s.

Definition gameLoop_with : M unit :=
  w <- get ;;
  if isPaused w || isGameOver w then ret tt else
  state <- getState ;;
  when (has "ArrowLeft" (keysPressed state)) (modifyState (turnBy (- TURN_SPEED))) ;;
  when (has "ArrowRight" (keysPressed state)) (modifyState (turnBy TURN_SPEED)) ;;
  state <- getState ;;
  let isMoving := has " " (keysPressed state) in
  (if isMoving then
     let newX := Car.x (car state) + cos (Car.angle (car state)) * MOVE_SPEED in
     let newY := Car.y (car state) + sin (Car.angle (car state)) * MOVE_SPEED in
     modifyState (with_car (Car.mk newX newY (Car.angle (car state)) MOVE_SPEED)) ;;
     setSpeed MOVE_SPEED ;;
     state <- getState ;;
     lastPoint <- defined (lastElement (roadPath state)) ;;
     let topOfRoad := Point.y lastPoint + cameraOffsetY state in
     when (topOfRoad >? - ROAD_EXTEND_THRESHOLD) extendRoad ;;
     state <- getState ;;
     when (Car.y (car state) <? CANVAS_HEIGHT / 2)
       (let adjustment := CANVAS_HEIGHT / 2 - Car.y (car state) in
        modifyState (fun s =>
          with_car (Car.mk (Car.x (car s)) (CANVAS_HEIGHT / 2)
                           (Car.angle (car s)) (Car.speed (car s)))
            (with_cameraOffsetY (cameraOffsetY s + adjustment) s)))
   else
     modifyState (fun s =>
       with_car (Car.mk (Car.x (car s)) (Car.y (car s)) (Car.angle (car s)) 0) s) ;;
     setSpeed 0) ;;
  state <- getState ;;
  when (isMoving && negb (onRoad (car state) (roadPath state)))
    (setIsGameOver true ;;
     emit GameOverOffRoad) ;;
  when ((Car.x (car state) <? 0) || (Car.x (car state) >? CANVAS_WIDTH))
    (setIsGameOver true ;;
     emit GameOverOffScreen) ;;
  drawRoad ;;
  coins' <- forEach collectCoin_with (coins state) ;;
  modifyState (with_coins coins').

End Loop.

Definition collectCoin := collectCoin_with checkCollision.
Definition gameLoop := gameLoop_with isCarOnRoad checkCollision.

(** ** The screen around the loop *)

(** [GameScreen.handleScoreThresholdReached], up to its guard: what follows
    the guard (identity checks, the canister call) is outside the core. *)
Definition handleScoreThresholdReached : M unit :=
  w <- get ;;
  if screenActionTriggeredRef w then ret tt else
  modify (with_screenActionTriggeredRef true) ;;
  emit ProcessActionFlow.

(** One animation frame: [gameLoop], then the timers it scheduled with
    [setTimeout(..., 0)], one per [ThresholdReached]. *)
Definition animationFrame : M unit :=
  out <- listen gameLoop ;;
  _ <- forLoop 0 (occurrences ThresholdReached out)
         (fun _ (_ : unit) => handleScoreThresholdReached) tt ;;
  ret tt.

Definition handleKeyDown (key : string) : M unit :=
  when (existsb (String.eqb key) ["ArrowLeft"; "ArrowRight"; " "]%string)
    (modifyState (fun s => with_keysPressed (add key (keysPressed s)) s)).

Definition handleKeyUp (key : string) : M unit :=
  modifyState (fun s => with_keysPressed (delete key (keysPressed s)) s).

Definition handlePauseToggle : M unit :=
  w <- get ;;
  when (negb (isGameOver w)) (setIsPaused (negb (isPaused w))).

Definition handleReset : M unit :=
  setIsGameOver false ;;
  setIsPaused false ;;
  modify (with_screenActionTriggeredRef false) ;;
  resetGame.

Definition dispatch (i : Input) : M unit :=
  match i with
  | KeyDown key => handleKeyDown key
  | KeyUp key => handleKeyUp key
  | AnimationFrame => animationFrame
  | PauseClick => handlePauseToggle
  end.

Definition handle (e : Event) : M unit :=
  match e with
  | User i => dispatch i
  | ResetClick => handleReset
  end.

(** A run of the game between two resets. *)
Fixpoint play (inputs : list Input) : M unit :=
  match inputs with
  | [] => ret tt
  | i :: rest => dispatch i ;; play rest
  end.

(** Everything that can happen to a mounted screen. *)
Fixpoint session (events : list Event) : M unit :=
  match events with
  | [] => ret tt
  | e :: rest => handle e ;; session rest
  end.

(** The mount effect of the hook. *)
Definition mount : M unit :=
  initializeRoad ;;
  initializeCoins.

End Game.

(** The values of the [useState] and [useRef] initialisers. *)
Definition initialWorld : World :=
  mkWorld freshGameState 0%Z 0 false false false false 0%nat.

(** The world after the screen was mounted and [events] happened, if no
    [TypeError] stopped it. *)
Definition reached (rnd : nat -> R) (events : list Event) : Result (unit * World * list Signal) :=
  (mount rnd ;; session rnd events) initialWorld.

(** ** Vocabulary of the statements *)

(** [returns m w Q]: run from [w], [m] ends without a [TypeError] and its
    value, final world and signals satisfy [Q]. *)
Definition returns {A : Type} (m : M A) (w : World)
           (Q : A -> World -> list Signal -> Prop) : Prop :=
  match m w with
  | Ok (a, w', out) => Q a w' out
  | TypeError => False
  end.

(** The road keeps its full width on the canvas around this point. *)
Definition inBounds (p : Point.t) : Prop :=
  ROAD_WIDTH / 2 <= Point.x p <= CANVAS_WIDTH - ROAD_WIDTH / 2.

Definition endPoint (p : Point.t) : R * R := (Point.x p, Point.y p).

Definition midPoint (s : Point.t * Point.t) : R * R :=
  ((Point.x (fst s) + Point.x (snd s)) / 2, (Point.y (fst s) + Point.y (snd s)) / 2).

(** [Spawned rnd n anchors cs n']: going through [anchors] in order, starting
    with the [n]-th result of [Math.random()] and ending before the [n']-th,
    each anchor got its own result [rnd k], compared with 0.4: no coin when it
    is not above, and otherwise one uncollected coin at the anchor, shifted
    in x by [(rnd (k + 1) - 0.5) * 40]. *)
Inductive Spawned (rnd : nat -> R) : nat -> list (R * R) -> list Coin.t -> nat -> Prop :=
| Spawned_nil : forall n, Spawned rnd n [] [] n
| Spawned_skip : forall n k a anchors cs n',
    (n <= k)%nat -> (rnd k >? 4 / 10) = false ->
    Spawned rnd (S k) anchors cs n' ->
    Spawned rnd n (a :: anchors) cs n'
| Spawned_coin : forall n k a anchors cs n',
    (n <= k)%nat -> (rnd k >? 4 / 10) = true ->
    Spawned rnd (S (S k)) anchors cs n' ->
    Spawned rnd n (a :: anchors)
            (Coin.mk (fst a + (rnd (S k) - 5 / 10) * 40) (snd a) false :: cs) n'.

(** [PlacedNear anchors cs]: the coins [cs] are, in order, at some of the
    [anchors], at most one per anchor, each shifted in x by at least -20 and
    less than 20, and uncollected. *)
Inductive PlacedNear : list (R * R) -> list Coin.t -> Prop :=
| PlacedNear_nil : PlacedNear [] []
| PlacedNear_skip : forall a anchors cs,
    PlacedNear anchors cs -> PlacedNear (a :: anchors) cs
| PlacedNear_coin : forall a anchors cs offsetX,
    -20 <= offsetX < 20 ->
    PlacedNear anchors cs ->
    PlacedNear (a :: anchors) (Coin.mk (fst a + offsetX) (snd a) false :: cs).

(** What [extendRoad] and the initialisers leave alone. *)
Record Untouched (w w' : World) : Prop := mkUntouched {
  same_car : car (gameStateRef w') = car (gameStateRef w);
  same_keysPressed : keysPressed (gameStateRef w') = keysPressed (gameStateRef w);
  same_cameraOffsetY : cameraOffsetY (gameStateRef w') = cameraOffsetY (gameStateRef w);
  same_score : score w' = score w;
  same_speed : speed w' = speed w;
  same_actionTriggeredRef : actionTriggeredRef w' = actionTriggeredRef w;
  same_isPaused : isPaused w' = isPaused w;
  same_isGameOver : isGameOver w' = isGameOver w;
  same_screenActionTriggeredRef : screenActionTriggeredRef w' = screenActionTriggeredRef w
}.

(** Each point is one [SEGMENT_WIDTH] further up than the one before it,
    starting from height [y0]. *)
Fixpoint Descending (y0 : R) (points : list Point.t) : Prop :=
  match points with
  | [] => True
  | p :: rest => Point.y p = y0 - SEGMENT_WIDTH /\ Descending (Point.y p) rest
  end.

(** The height of the last of [points], or [y0] when there is none. *)
Definition lastY (y0 : R) (points : list Point.t) : R :=
  match lastElement points with
  | Some q => Point.y q
  | None => y0
  end.

(** What one call of [extendRoad] does to a world whose last path point is
    [lastPoint]. *)
Definition Extended (rnd : nat -> R) (lastPoint : Point.t) (w w' : World) : Prop :=
  Untouched w w' /\
  exists newPoints newCoins lastPoint',
    roadPath (gameStateRef w') = roadPath (gameStateRef w) ++ newPoints /\
    coins (gameStateRef w') = coins (gameStateRef w) ++ newCoins /\
    length newPoints = 5%nat /\
    Forall inBounds newPoints /\
    Descending (Point.y lastPoint) newPoints /\
    lastElement (roadPath (gameStateRef w')) = Some lastPoint' /\
    Point.y lastPoint' = Point.y lastPoint - 5 * SEGMENT_WIDTH /\
    Spawned rnd (randomCalls w) (map endPoint newPoints) newCoins (randomCalls w').

(** The number of collected coins. *)
Definition collectedCount (cs : list Coin.t) : Z :=
  Z.of_nat (length (filter Coin.collected cs)).

(** The visibility test of the coin loop: the coin's screen y is outside
    [-50, CANVAS_HEIGHT + 50]. *)
Definition culled (offsetY : R) (coin : Coin.t) : bool :=
  (Coin.y coin + offsetY <? -50) || (Coin.y coin + offsetY >? CANVAS_HEIGHT + 50).

(** 1 when the score goes from below the action threshold to it or above. *)
Definition crossing (before after : Z) : nat :=
  if (before <? ACTION_SCORE_THRESHOLD)%Z && (after >=? ACTION_SCORE_THRESHOLD)%Z
  then 1%nat else 0%nat.

(** [topOfRoad]: the screen y of the last path point. *)
Definition horizon (w : World) (lastPoint : Point.t) : R :=
  Point.y lastPoint + cameraOffsetY (gameStateRef w).

(** The first part of a running frame as functions on worlds: steering,
    moving (or standing still), pinning the car at mid-height. *)
Definition steered (w : World) : World :=
  let keys := keysPressed (gameStateRef w) in
  let w1 := if has "ArrowLeft" keys then with_state (turnBy (- TURN_SPEED)) w else w in
  if has "ArrowRight" keys then with_state (turnBy TURN_SPEED) w1 else w1.

Definition moved (w : World) : World :=
  let c := car (gameStateRef w) in
  with_speed MOVE_SPEED
    (with_state
       (with_car (Car.mk (Car.x c + cos (Car.angle c) * MOVE_SPEED)
                         (Car.y c + sin (Car.angle c) * MOVE_SPEED)
                         (Car.angle c) MOVE_SPEED)) w).

Definition stopped (w : World) : World :=
  with_speed 0
    (with_state
       (fun s => with_car (Car.mk (Car.x (car s)) (Car.y (car s)) (Car.angle (car s)) 0) s) w).

Definition recentered (w : World) : World :=
  let c := car (gameStateRef w) in
  if Car.y c <? CANVAS_HEIGHT / 2 then
    with_state
      (fun s =>
         with_car (Car.mk (Car.x (car s)) (CANVAS_HEIGHT / 2) (Car.angle (car s)) (Car.speed (car s)))
           (with_cameraOffsetY (cameraOffsetY s + (CANVAS_HEIGHT / 2 - Car.y c)) s)) w
  else w.

(** [Driven rnd w lastPoint wd]: [wd] is the world of a running frame begun in
    [w] (whose last path point is [lastPoint]) when the off-road check is
    reached. *)
Definition Driven (rnd : nat -> R) (w : World) (lastPoint : Point.t) (wd : World) : Prop :=
  if has " " (keysPressed (gameStateRef w)) then
    let wm := moved (steered w) in
    exists we,
      (if horizon wm lastPoint >? - ROAD_EXTEND_THRESHOLD
       then Extended rnd lastPoint wm we
       else we = wm) /\
      wd = recentered we
  else
    wd = stopped (steered w).

(** The signals of the two boundary checks of a frame. *)
Definition boundarySignals (onRoad : Car.t -> list Point.t -> bool)
           (thrust : bool) (s : GameState) : list Signal :=
  (if thrust && negb (onRoad (car s) (roadPath s)) then [GameOverOffRoad] else []) ++
  (if (Car.x (car s) <? 0) || (Car.x (car s) >? CANVAS_WIDTH) then [GameOverOffScreen] else []).

(** The coin loop of a frame, as [gameLoop] runs it. *)
Definition coinLoop (collide : Car.t -> R -> R -> bool) : M unit :=
  state <- getState ;;
  coins' <- forEach (collectCoin_with collide) (coins state) ;;
  modifyState (with_coins coins').

(** What a visit of the coin callback can do to a coin. *)
Definition Visited (collide : Car.t -> R -> R -> bool) (s : GameState) (coin coin' : Coin.t) : Prop :=
  coin' = coin \/
  (Coin.collected coin = false /\
   culled (cameraOffsetY s) coin = false /\
   collide (car s) (Coin.x coin) (Coin.y coin + cameraOffsetY s) = true /\
   coin' = Coin.mk (Coin.x coin) (Coin.y coin) true).

(** What any number of visits of the coin callback do to the world. *)
Record CoinStep (w w' : World) (out : list Signal) : Prop := mkCoinStep {
  step_speed : speed w' = speed w;
  step_isPaused : isPaused w' = isPaused w;
  step_screen : screenActionTriggeredRef w' = screenActionTriggeredRef w;
  step_random : randomCalls w' = randomCalls w;
  step_over : isGameOver w = true -> isGameOver w' = true;
  step_won : isGameOver w' = true -> isGameOver w = true \/ (MAX_SCORE <= score w')%Z;
  step_score : (score w <= score w')%Z;
  step_latch :
    actionTriggeredRef w = (score w >=? ACTION_SCORE_THRESHOLD)%Z ->
    actionTriggeredRef w' = (score w' >=? ACTION_SCORE_THRESHOLD)%Z /\
    occurrences ThresholdReached out = crossing (score w) (score w');
  step_quiet :
    occurrences GameOverOffRoad out = 0%nat /\
    occurrences GameOverOffScreen out = 0%nat /\
    occurrences ProcessActionFlow out = 0%nat
}.

(** The world after a boundary check that did or did not end the game. *)
Definition flagged (b : bool) (w : World) : World :=
  if b then with_isGameOver true w else w.

(** The invariants of the hook: they hold once the road is initialised and
    every frame keeps them. *)
Record Steady (w : World) : Prop := mkSteady {
  steady_length : (16 <= length (roadPath (gameStateRef w)))%nat;
  steady_bounds : Forall inBounds (roadPath (gameStateRef w));
  steady_horizon : exists q, lastElement (roadPath (gameStateRef w)) = Some q /\
                             horizon w q <= - ROAD_EXTEND_THRESHOLD + MOVE_SPEED;
  steady_car : CANVAS_HEIGHT / 2 <= Car.y (car (gameStateRef w));
  steady_score : score w = (10 * collectedCount (coins (gameStateRef w)))%Z;
  steady_latch : actionTriggeredRef w = (score w >=? ACTION_SCORE_THRESHOLD)%Z
}.

(** The invariants of a mounted screen, between two events. *)
Definition Sound (w : World) : Prop :=
  Steady w /\ screenActionTriggeredRef w = actionTriggeredRef w.

(** [n] calls of [extendRoad] in a row. *)
Definition extendRoadTimes (rnd : nat -> R) (n : nat) : M unit :=
  _ <- forLoop 0 n (fun _ (_ : unit) => extendRoad rnd) tt ;;
  ret tt.

(** [FiresOnce rnd start w0 before after]: a game started by [start] in the
    world [w0] and played with the inputs [before ++ after] does not stop with
    a [TypeError]; the callback [onScoreThresholdReached] is called once
    during [before] if the score has reached the action threshold by then
    and not at all otherwise; it is called once during [after] if the score
    reaches the threshold during [after] and not at all otherwise; the
    handler of [GameScreen] gets past its guard on the same occasions; the
    score does not go down and the latch of the hook is set exactly when the
    score has reached the threshold. *)
Definition FiresOnce (rnd : nat -> R) (start : M unit) (w0 : World)
           (before after : list Input) : Prop :=
  exists w1 out1 w2 out2,
    (start ;; play rnd before) w0 = Ok (tt, w1, out1) /\
    play rnd after w1 = Ok (tt, w2, out2) /\
    (start ;; play rnd (before ++ after)) w0 = Ok (tt, w2, out1 ++ out2) /\
    (score w1 <= score w2)%Z /\
    occurrences ThresholdReached out1 = crossing 0 (score w1) /\
    occurrences ThresholdReached out2 = crossing (score w1) (score w2) /\
    occurrences ProcessActionFlow out1 = crossing 0 (score w1) /\
    occurrences ProcessActionFlow out2 = crossing (score w1) (score w2) /\
    actionTriggeredRef w2 = (score w2 >=? ACTION_SCORE_THRESHOLD)%Z.


(** The extension half of the placement rule as the specification words it:
    after mounting in [w0], the coins that [extendRoad] adds are at midpoints
    of the new segments, shifted in x by less than 20. *)
Definition spec_spawn_at_midpoints (rnd : nat -> R) (w0 : World) : Prop :=
  forall w1 w2 lastPoint newPoints newCoins,
    mount rnd w0 = Ok (tt, w1, []) ->
    lastElement (roadPath (gameStateRef w1)) = Some lastPoint ->
    extendRoad rnd w1 = Ok (tt, w2, []) ->
    roadPath (gameStateRef w2) = roadPath (gameStateRef w1) ++ newPoints ->
    coins (gameStateRef w2) = coins (gameStateRef w1) ++ newCoins ->
    PlacedNear (map midPoint (segments (lastPoint :: newPoints))) newCoins.

(** The road built by [initializeRoad] has its fifth segment vertical, from
    height 360 to height 300, at most 96 to the left or right of the car's
    starting column. *)
Definition HasColumn (path : list Point.t) : Prop :=
  exists x4,
    304 <= x4 <= 496 /\
    nth_error path 4 = Some (Point.mk x4 360) /\
    nth_error path 5 = Some (Point.mk x4 300).

(** [Cruising k w]: the world of a game in which, since the start, the space
    bar was pressed and [k] frames went by, before the road was ever
    extended. *)
Definition CruisingState (k : nat) (w : World) : Prop :=
  keysPressed (gameStateRef w) = [" "%string] /\
  isPaused w = false /\ isGameOver w = false /\
  Car.x (car (gameStateRef w)) = 400 /\
  Car.angle (car (gameStateRef w)) = - PI / 2 /\
  Car.y (car (gameStateRef w)) = Rmax 300 (500 - 6 * INR k) /\
  cameraOffsetY (gameStateRef w) = Rmax 0 (6 * INR k - 200) /\
  HasColumn (roadPath (gameStateRef w)) /\
  (exists q, lastElement (roadPath (gameStateRef w)) = Some q /\ Point.y q = -300) /\
  (length (coins (gameStateRef w)) <= 14)%nat.

Definition Cruising (k : nat) (w : World) : Prop :=
  Sound w /\ CruisingState k w.

(** ** Rounding

    The code computes with floating-point numbers and the model with real
    numbers, so a computed distance and the modelled one can differ in their
    last digits.  A statement that says on which side of a bound a distance
    puts a test therefore keeps the distance [tolerance] away from the bound,
    and, for the off-road test, whose intermediate products grow with the
    coordinates, takes the coordinates to be [moderate]: the rounding of
    such coordinates moves a distance by far less than [tolerance]. *)

Definition tolerance : R := 1 / 1000.

Definition moderate (v : R) : Prop := Rabs v <= 1000000.

Definition moderatePoint (p : Point.t) : Prop :=
  moderate (Point.x p) /\ moderate (Point.y p).

Definition moderateCar (c : Car.t) : Prop :=
  moderate (Car.x c) /\ moderate (Car.y c).

(** ** Concrete inputs used by the examples *)

(** A car 180 to the right of a straight vertical road. *)
Definition boundaryCar : Car.t := Car.mk 580 300 (- PI / 2) 6.
Definition straightRoad : list Point.t := [Point.mk 400 600; Point.mk 400 0].

(** A freshly created screen whose road is the straight road, no key held. *)
Definition parkedWorld : World := with_state (with_roadPath straightRoad) initialWorld.

(** Holding the space bar for 51 frames after mounting. *)
Definition cruise51 : list Event :=
  User (KeyDown " ") :: repeat (User AnimationFrame) 51.

(** A car that drove down, out of the frame, and a coin at the same place. *)
Definition sunkenCar : Car.t := Car.mk 400 700 (PI / 2) 6.
Definition sunkenCoin : Coin.t := Coin.mk 400 700 false.
Definition sunkenWorld : World :=
  with_state (fun s => with_car sunkenCar (with_coins [sunkenCoin] s)) parkedWorld.

(** A random source that always returns one half. *)
Definition evenDraws : nat -> R := fun _ => 1 / 2.

(** A car 300 to the right of the straight road. *)
Definition farCar : Car.t := Car.mk 700 300 (- PI / 2) 6.


(** The left arrow and the space bar held down on the straight road. *)
Definition steeringWorld : World :=
  with_state (with_keysPressed ["ArrowLeft"%string; " "%string]) parkedWorld.

(** The car of a freshly created screen, standing at (400, 500). *)
Definition standingCar : Car.t := Car.mk 400 500 (- PI / 2) 0.


(** A road of 16 points straight up the middle of the canvas. *)
Definition columnRoad : list Point.t :=
  [Point.mk 400 600; Point.mk 400 540; Point.mk 400 480; Point.mk 400 420;
   Point.mk 400 360; Point.mk 400 300; Point.mk 400 240; Point.mk 400 180;
   Point.mk 400 120; Point.mk 400 60; Point.mk 400 0; Point.mk 400 (-60);
   Point.mk 400 (-120); Point.mk 400 (-180); Point.mk 400 (-240); Point.mk 400 (-300)].

(** A game in which 28 coins are collected (score 280) and three more lie
    within reach of the standing car. *)
Definition milestoneWorld : World :=
  mkWorld
    (mkGameState standingCar
                 (repeat (Coin.mk 400 900 true) 28 ++
                  [Coin.mk 400 500 false; Coin.mk 420 500 false; Coin.mk 400 520 false])
                 [] columnRoad 0)
    280%Z 0 false false false false 0%nat.

(** The same game later: 31 coins are collected (score 310), both latches are
    set, and another coin lies within reach. *)
Definition laterWorld : World :=
  mkWorld
    (mkGameState standingCar
                 (repeat (Coin.mk 400 900 true) 31 ++ [Coin.mk 400 500 false])
                 [] columnRoad 0)
    310%Z 0 true false false true 0%nat.

(** ** Vocabulary of the further properties *)

(** [isWinner] of [GameScreen]: [score >= 20000]. *)
Definition isWinner (w : World) : bool := (score w >=? 20000)%Z.

(** A road of one point only: no segment. *)
Definition stubRoad : list Point.t := [Point.mk 400 600].

(** A car 100 to the right of the far end of the straight road and 100
    below it. *)
Definition nearbyCar : Car.t := Car.mk 500 100 0 0.

(** The keys that [handleKeyDown] lets into the set. *)
Definition gameKeys : list string := ["ArrowLeft"; "ArrowRight"; " "]%string.

(** [SameGame w w']: [w'] differs from [w] at most in the pressed keys, the
    pause flag and the latch of [GameScreen]. *)
Record SameGame (w w' : World) : Prop := mkSameGame {
  game_car : car (gameStateRef w') = car (gameStateRef w);
  game_coins : coins (gameStateRef w') = coins (gameStateRef w);
  game_roadPath : roadPath (gameStateRef w') = roadPath (gameStateRef w);
  game_cameraOffsetY : cameraOffsetY (gameStateRef w') = cameraOffsetY (gameStateRef w);
  game_score : score w' = score w;
  game_speed : speed w' = speed w;
  game_actionTriggeredRef : actionTriggeredRef w' = actionTriggeredRef w;
  game_isGameOver : isGameOver w' = isGameOver w;
  game_randomCalls : randomCalls w' = randomCalls w
}.

(** The angle of the car after the steering of a frame. *)
Definition steeredAngle (s : GameState) : R :=
  Car.angle (car s)
  + (if has "ArrowLeft" (keysPressed s) then - TURN_SPEED else 0)
  + (if has "ArrowRight" (keysPressed s) then TURN_SPEED else 0).

(** The world right after the reset button, or after the mount of the
    screen: every default of the hook and of the screen, a new road of 16
    points and at most 14 coins, none collected. *)
Record Fresh (w : World) : Prop := mkFresh {
  fresh_car :
    car (gameStateRef w) = Car.mk (CANVAS_WIDTH / 2) (CANVAS_HEIGHT - 100) (- PI / 2) 0;
  fresh_keysPressed : keysPressed (gameStateRef w) = [];
  fresh_cameraOffsetY : cameraOffsetY (gameStateRef w) = 0;
  fresh_roadPath : length (roadPath (gameStateRef w)) = 16%nat;
  fresh_coins : Forall (fun c => Coin.collected c = false) (coins (gameStateRef w));
  fresh_coinCount : (length (coins (gameStateRef w)) <= 14)%nat;
  fresh_score : score w = 0%Z;
  fresh_speed : speed w = 0;
  fresh_actionTriggeredRef : actionTriggeredRef w = false;
  fresh_screenActionTriggeredRef : screenActionTriggeredRef w = false;
  fresh_isPaused : isPaused w = false;
  fresh_isGameOver : isGameOver w = false
}.

(** The straight-road world after the game has ended. *)
Definition endedWorld : World := with_isGameOver true parkedWorld.

(** What becomes of a coin: it stays where it is, and once collected it
    stays collected. *)
Definition Kept (coin coin' : Coin.t) : Prop :=
  Coin.x coin' = Coin.x coin /\ Coin.y coin' = Coin.y coin /\
  (Coin.collected coin = true -> Coin.collected coin' = true).

(** [Onward w w']: from [w] to [w'] the road only got new points at its end,
    the camera did not scroll back, and the coins of [w] are still there, in
    the same order, before any new ones. *)
Record Onward (w w' : World) : Prop := mkOnward {
  onward_roadPath :
    exists newPoints, roadPath (gameStateRef w') = roadPath (gameStateRef w) ++ newPoints;
  onward_cameraOffsetY :
    cameraOffsetY (gameStateRef w) <= cameraOffsetY (gameStateRef w');
  onward_coins :
    exists kept newCoins,
      coins (gameStateRef w') = kept ++ newCoins /\
      Forall2 Kept (coins (gameStateRef w)) kept
}.

(** A segment as both generators make it: one [SEGMENT_WIDTH] up, and at
    most [SEGMENT_WIDTH * 0.8] to the left or to the right. *)
Definition Linked (s : Point.t * Point.t) : Prop :=
  Point.y (snd s) = Point.y (fst s) - SEGMENT_WIDTH /\
  - (SEGMENT_WIDTH * (8 / 10)) <= Point.x (snd s) - Point.x (fst s) <= SEGMENT_WIDTH * (8 / 10).

(** A road as the generators make it: it starts at the bottom centre of the
    canvas, stays within bounds and all its segments are linked. *)
Definition Shaped (path : list Point.t) : Prop :=
  nth_error path 0 = Some (Point.mk (CANVAS_WIDTH / 2) CANVAS_HEIGHT) /\
  Forall inBounds path /\
  Forall Linked (segments path).

(** Whether [key] is held down after [events], when [held] says whether it
    was before: a keydown of a game key presses it, a keyup releases it, the
    reset button releases every key. *)
Fixpoint pressedAfter (key : string) (held : bool) (events : list Event) : bool :=
  match events with
  | [] => held
  | ResetClick :: rest => pressedAfter key false rest
  | User (KeyDown k) :: rest =>
      pressedAfter key (held || (has k gameKeys && String.eqb key k)) rest
  | User (KeyUp k) :: rest => pressedAfter key (held && negb (String.eqb key k)) rest
  | User _ :: rest => pressedAfter key held rest
  end.

(** The game is over whenever the score has reached [MAX_SCORE]. *)
Definition Won (w : World) : Prop :=
  (MAX_SCORE <= score w)%Z -> isGameOver w = true.

(** While the game is on, the car is more than 20 inside the canvas on
    either side. *)
Definition InLane (w : World) : Prop :=
  isGameOver w = false -> 20 < Car.x (car (gameStateRef w)) < CANVAS_WIDTH - 20.

(** The speed shown is the car's speed, and it is 0 or [MOVE_SPEED]. *)
Definition SpeedShown (w : World) : Prop :=
  speed w = Car.speed (car (gameStateRef w)) /\ (speed w = 0 \/ speed w = MOVE_SPEED).

(** The tests of the coin callback together: the coin is not collected yet,
    is not culled, and collides with the car at its screen position. *)
Definition inReach (c : Car.t) (offsetY : R) (coin : Coin.t) : bool :=
  negb (Coin.collected coin) && negb (culled offsetY coin) &&
  checkCollision c (Coin.x coin) (Coin.y coin + offsetY).

(** The coin after the coin loop of a frame has visited it. *)
Definition picked (c : Car.t) (offsetY : R) (coin : Coin.t) : Coin.t :=
  if inReach c offsetY coin then Coin.mk (Coin.x coin) (Coin.y coin) true else coin.

(** Holding the space bar from the start, for [n] frames. *)
Definition holdSpace (n : nat) : list Event :=
  User (KeyDown " ") :: repeat (User AnimationFrame) n.

(** The world of a game in which only the space bar was ever pressed: the
    car is still in its starting column, pointing up. *)
Definition Upright (w : World) : Prop :=
  keysPressed (gameStateRef w) = [" "%string] /\
  isPaused w = false /\
  Car.x (car (gameStateRef w)) = 400 /\
  Car.angle (car (gameStateRef w)) = - PI / 2 /\
  300 <= Car.y (car (gameStateRef w)) <= 500 /\
  HasColumn (roadPath (gameStateRef w)) /\
  (isGameOver w = true -> (MAX_SCORE <= score w)%Z).

(** The places where the generators put coins: the midpoints of the
    segments and the points of the path. *)
Definition anchorsOf (path : list Point.t) : list (R * R) :=
  map midPoint (segments path) ++ map endPoint path.

(** A coin at the height of an anchor, at most 20 to its left or to its
    right. *)
Definition NearAnchor (anchors : list (R * R)) (coin : Coin.t) : Prop :=
  exists a, In a anchors /\ Coin.y coin = snd a /\ -20 <= Coin.x coin - fst a <= 20.

(** ** The canister call

    [useProcessAction]'s [mutationFn], and [GameScreen]'s
    [handleScoreThresholdReached] past its guard, with the callbacks it gives
    to [mutate].  Texts are strings of ASCII characters.  The calls to
    [console] are left out, except for the one whose argument can fail to be
    computed ([JSON.stringify] of a thrown object).  The mutation is taken
    to settle before anything else happens to the screen, and [mutate] to
    call [onSuccess] when [mutationFn] fulfils and [onError] with the
    rejection when it rejects.  [useProcessAction] and [GameScreen] both
    take the actor and its fetching flag from [useActor]: they are given
    the same ones here. *)

Open Scope string_scope.

(** *** Strings *)

Definition lowerChar (c : Ascii.ascii) : Ascii.ascii :=
  let n := Ascii.nat_of_ascii c in
  if (65 <=? n)%nat && (n <=? 90)%nat then Ascii.ascii_of_nat (n + 32) else c.

(** [s.toLowerCase()]. *)
Fixpoint toLowerCase (s : string) : string :=
  match s with
  | EmptyString => EmptyString
  | String c rest => String (lowerChar c) (toLowerCase rest)
  end.

(** [s.startsWith(needle)]. *)
Fixpoint startsWith (s needle : string) {struct needle} : bool :=
  match needle with
  | EmptyString => true
  | String a needle' =>
      match s with
      | EmptyString => false
      | String b s' => Ascii.eqb a b && startsWith s' needle'
      end
  end.

(** [s.includes(needle)]. *)
Fixpoint includes (s needle : string) : bool :=
  startsWith s needle ||
  match s with
  | EmptyString => false
  | String _ s' => includes s' needle
  end.

(** An index of [slice] on a string of length [len]: a negative one counts
    from the end, and the result is kept within [0, len]. *)
Definition sliceIndex (len : nat) (i : Z) : nat :=
  if (i <? 0)%Z then Z.to_nat (Z.max (Z.of_nat len + i) 0)
  else Nat.min (Z.to_nat i) len.

(** [s.slice(start, stop)]; [s.slice(start)] when [stop] is [None]. *)
Definition slice (s : string) (start : Z) (stop : option Z) : string :=
  let chars := list_ascii_of_string s in
  let len := length chars in
  let from := sliceIndex len start in
  let to := match stop with Some e => sliceIndex len e | None => len end in
  string_of_list_ascii (firstn (to - from) (skipn from chars)).

(** *** What a canister call can throw *)

(** A property value: a string, or anything else, given with the text that
    [String(value)] makes of it. *)
Inductive JsValue : Type :=
| JsString (s : string)
| JsOther (shown : string).

Inductive Thrown : Type :=
| ErrorInstance (message : string)        (* [error instanceof Error] *)
| ThrownString (s : string)               (* [typeof error === 'string'] *)
| ThrownObject (props : list (string * JsValue)) (stringifyFails : option string)
    (* any other object; [stringifyFails] is the message of the [TypeError]
       that [JSON.stringify(error, null, 2)] throws, if it throws one *)
| ThrownOther.                            (* [undefined], [null], a number, ... *)

(** ['key' in error], with [error[key]]. *)
Fixpoint property (key : string) (props : list (string * JsValue)) : option JsValue :=
  match props with
  | [] => None
  | (k, v) :: rest => if String.eqb key k then Some v else property key rest
  end.

Module ActionArg.
Record t : Type := mk { actionId : string; fields : list (string * string) }.
End ActionArg.

(** The answer of [actor.processAction(arg)], a method without result. *)
Inductive Answer : Type :=
| Resolved
| Failed (error : Thrown).

Definition Actor : Type := ActionArg.t -> Answer.

(** How the promise of [mutationFn] settles; it fulfils with [undefined]. *)
Inductive Settled : Type :=
| Fulfilled
| Rejected (error : Thrown).

(** *** [useProcessAction] *)

(** The message that the [catch] block extracts. *)
Definition errorMessageOf (error : Thrown) : string :=
  match error with
  | ErrorInstance message => message
  | ThrownString s => s
  | ThrownObject props _ =>
      match property "message" props with
      | Some v => match v with JsString s => s | JsOther shown => shown end
      | None =>
          match property "error" props with
          | Some (JsString s) => s
          | _ =>
              match property "reject_message" props with
              | Some (JsString s) => s
              | _ => "Unknown error occurred"
              end
          end
      end
  | ThrownOther => "Unknown error occurred"
  end.

Definition isUnrelatedError (errorMessage : string) : bool :=
  includes (toLowerCase errorMessage) "datadog" ||
  includes (toLowerCase errorMessage) "rum" ||
  includes (toLowerCase errorMessage) "analytics" ||
  includes (toLowerCase errorMessage) "tracking".

Definition mutationFn (actor : option Actor) (isFetching : bool) (arg : ActionArg.t) : Settled :=
  match actor with
  | None => Rejected (ErrorInstance "Actor not initialized - cannot process action")
  | Some processAction =>
      if isFetching then Rejected (ErrorInstance "Actor is still initializing - please wait")
      else
        match processAction arg with
        | Resolved => Fulfilled
        | Failed error =>
            match error with
            | ThrownObject _ (Some typeError) => Rejected (ErrorInstance typeError)
            | _ =>
                let errorMessage := errorMessageOf error in
                if isUnrelatedError errorMessage then Fulfilled
                else Rejected (ErrorInstance errorMessage)
            end
        end
  end.

(** *** [GameScreen] *)

Module Principal.
Record t : Type := mk { isAnonymous : bool; toString : string }.
End Principal.

Inductive Toast : Type :=
| ToastError (message : string)
| ToastSuccess (message : string).

Module GameScreen.

(** What the handler reads of the hooks of the screen. *)
Record Hooks : Type := mkHooks {
  identity : option Principal.t;
  actor : option Actor;
  isActorFetching : bool
}.

(** What it writes: its latch and the state of the notification tile. *)
Record Tile : Type := mkTile {
  actionTriggeredRef : bool;
  showProcessActionTile : bool;
  processActionError : option string
}.

Definition onSuccess (tile : Tile) : Tile * list Toast :=
  (tile, [ToastSuccess "Action processed successfully!"]).

Definition onError (error : Thrown) (tile : Tile) : Tile * list Toast :=
  let errorMessage :=
    match error with
    | ErrorInstance message => message
    | _ => "Failed to process action"
    end in
  (mkTile (actionTriggeredRef tile) (showProcessActionTile tile) (Some errorMessage),
   [ToastError ("Failed to process action: " ++ errorMessage)]).

(** [processActionMutation.mutate(arg, { onSuccess, onError })]. *)
Definition mutate (hooks : Hooks) (arg : ActionArg.t) (tile : Tile) : Tile * list Toast :=
  match mutationFn (actor hooks) (isActorFetching hooks) arg with
  | Fulfilled => onSuccess tile
  | Rejected error => onError error tile
  end.

Definition handleScoreThresholdReached (hooks : Hooks) (tile : Tile) : Tile * list Toast :=
  if actionTriggeredRef tile then (tile, []) else
  let fail (errorMsg : string) := (mkTile true true (Some errorMsg), [ToastError errorMsg]) in
  match identity hooks with
  | None => fail "User identity not found. Please log in again."
  | Some principal =>
      let principalText := Principal.toString principal in
      if Principal.isAnonymous principal || String.eqb principalText "2vxsx-fae" then
        fail "Anonymous users cannot process actions. Please log in with Internet Identity."
      else
        match actor hooks with
        | None => fail "Backend actor not initialized. Please wait and try again."
        | Some _ =>
            if isActorFetching hooks then
              fail "Backend actor is still initializing. Please wait."
            else
              mutate hooks (ActionArg.mk "car_rush_won" []) (mkTile true true None)
        end
  end.

(** [identity?.getPrincipal().toString() || '']. *)
Definition principal (hooks : Hooks) : string :=
  match identity hooks with
  | Some p => Principal.toString p
  | None => ""
  end.

(** [principal ? `${principal.slice(0, 8)}...${principal.slice(-4)}` : '']. *)
Definition shortPrincipal (principal : string) : string :=
  match principal with
  | EmptyString => ""
  | String _ _ => slice principal 0 (Some 8%Z) ++ "..." ++ slice principal (-4) None
  end.

End GameScreen.

(** [isUserAuthenticated] of the canister client, for the identity that
    [AuthClient] gives; [None] when [AuthClient.create()] throws. *)
Definition isUserAuthenticated (identity : option Principal.t) : bool :=
  match identity with
  | None => false
  | Some principal =>
      negb (Principal.isAnonymous principal) &&
      negb (String.eqb (Principal.toString principal) "2vxsx-fae")
  end.

(** Hooks with everything the handler asks for, and an actor that gives
    [answer] to every call. *)
Definition readyHooks (answer : Answer) : GameScreen.Hooks :=
  GameScreen.mkHooks (Some (Principal.mk false "w7x7r-cok77-xa")) (Some (fun _ => answer)) false.

(** A tile that was never shown. *)
Definition blankTile : GameScreen.Tile := GameScreen.mkTile false false None.

Close Scope string_scope.

(** ** Basic facts *)

Lemma ltb_true (x y : R) : (x <? y) = true <-> x < y.
Proof. unfold ltb. destruct (Rlt_dec x y); split; intros; try easy. Qed.

Lemma ltb_false (x y : R) : (x <? y) = false <-> y <= x.
Proof.
  unfold ltb. destruct (Rlt_dec x y); split; intros; try easy; lra.
Qed.

Lemma gtb_true (x y : R) : (x >? y) = true <-> y < x.
Proof. unfold gtb. apply ltb_true. Qed.

Lemma gtb_false (x y : R) : (x >? y) = false <-> x <= y.
Proof. unfold gtb. apply ltb_false. Qed.

Lemma neqb_true (x y : R) : (x !== y) = true <-> x <> y.
Proof. unfold neqb. destruct (Req_dec_T x y); split; intros; easy. Qed.

Lemma neqb_false (x y : R) : (x !== y) = false <-> x = y.
Proof. unfold neqb. destruct (Req_dec_T x y); split; intros; easy. Qed.

Lemma neqb_refl (x : R) : (x !== x) = false.
Proof. apply neqb_false. reflexivity. Qed.

(** ** The off-road test *)

Lemma Math_min_assoc (acc : xnumber) (d m : R) :
  Math_min (Math_min acc d) m = Math_min acc (Rmin d m).
Proof.
  destruct acc as [|v]; simpl; [reflexivity|].
  now rewrite Rmin_assoc.
Qed.

Lemma clamp01_below (t : R) : t < 0 -> clamp01 t = 0.
Proof.
  intros Ht. unfold clamp01, Rmax, Rmin.
  repeat destruct (Rle_dec _ _); lra.
Qed.

Lemma clamp01_above (t : R) : 1 < t -> clamp01 t = 1.
Proof.
  intros Ht. unfold clamp01, Rmax, Rmin.
  repeat destruct (Rle_dec _ _); lra.
Qed.

Lemma clamp01_inside (t : R) : 0 <= t <= 1 -> clamp01 t = t.
Proof.
  intros Ht. unfold clamp01, Rmax, Rmin.
  repeat destruct (Rle_dec _ _); lra.
Qed.

(** On one segment the code and the specification agree. *)
Lemma segmentDistance_spec (car : Car.t) (p1 p2 : Point.t) :
  segmentDistance car p1 p2 = spec_segmentDistance car p1 p2.
Proof.
  unfold segmentDistance, segmentDistance_with, spec_segmentDistance, distanceTo.
  set (C := Point.x p2 - Point.x p1).
  set (D := Point.y p2 - Point.y p1).
  set (dot := (Car.x car - Point.x p1) * C + (Car.y car - Point.y p1) * D).
  destruct (C * C + D * D !== 0) eqn:Hlen.
  - set (param := dot / (C * C + D * D)).
    destruct (param <? 0) eqn:Hlo.
    + apply ltb_true in Hlo. rewrite (clamp01_below _ Hlo).
      f_equal. ring.
    + apply ltb_false in Hlo.
      destruct (param >? 1) eqn:Hhi.
      * apply gtb_true in Hhi. rewrite (clamp01_above _ Hhi).
        f_equal. unfold C, D. ring.
      * apply gtb_false in Hhi. rewrite clamp01_inside by lra.
        reflexivity.
  - assert (Hneg : (-1 <? 0) = true) by (apply ltb_true; lra).
    rewrite Hneg. reflexivity.
Qed.

Lemma closestSegment_minimum (car : Car.t) (roadPath : list Point.t) (acc : xnumber) :
  closestSegment car roadPath acc =
  match spec_minDistance car roadPath with
  | None => acc
  | Some m => Math_min acc m
  end.
Proof.
  unfold closestSegment, spec_minDistance.
  revert acc. induction roadPath as [|p1 rest IH]; intros acc; [reflexivity|].
  destruct rest as [|p2 rest']; [reflexivity|].
  change (closestSegment_with Rdiv car (p1 :: p2 :: rest') acc)
    with (closestSegment_with Rdiv car (p2 :: rest')
            (Math_min acc (segmentDistance car p1 p2))).
  rewrite IH. rewrite segmentDistance_spec.
  change (segments (p1 :: p2 :: rest')) with ((p1, p2) :: segments (p2 :: rest')).
  cbn [map minimum fst snd].
  destruct (minimum _) as [m|]; [|reflexivity].
  apply Math_min_assoc.
Qed.

Lemma spec_minDistance_defined (car : Car.t) (roadPath : list Point.t) :
  (2 <= length roadPath)%nat -> exists m, spec_minDistance car roadPath = Some m.
Proof.
  unfold spec_minDistance.
  destruct roadPath as [|p1 [|p2 rest]]; simpl; try lia. intros _.
  destruct (minimum _); eauto.
Qed.

Lemma offRoad_iff_reaches (car : Car.t) (roadPath : list Point.t) :
  (2 <= length roadPath)%nat ->
  (exists m, spec_minDistance car roadPath = Some m /\
             closestSegment car roadPath Infinity = Finite m) /\
  (isCarOnRoad car roadPath = false <-> spec_offPath_reaches car roadPath).
Proof.
  intros Hlen.
  destruct (spec_minDistance_defined car roadPath Hlen) as [m Hm].
  assert (Hclosest : closestSegment car roadPath Infinity = Finite m).
  { rewrite closestSegment_minimum, Hm. reflexivity. }
  split; [exists m; auto|].
  unfold isCarOnRoad, isCarOnRoad_with, spec_offPath_reaches.
  fold closestSegment. rewrite Hclosest. cbn [xltb]. rewrite ltb_false.
  split.
  - intros Hle. exists m. auto.
  - intros [m' [Hm' Hle]]. congruence.
Qed.

(** C2 (as amended).  For every car position and every path of at least two
    points, with moderate coordinates, the minimum that [isCarOnRoad]
    computes is the minimum over all consecutive pairs of the
    clamped-projection distance; the car is on the road when that minimum is
    below ROAD_WIDTH / 2 - 20 = 180 and off the road when it is above, each
    by at least [tolerance].  (The code tests [minDistance < 180] on the
    distance as it has computed and rounded it: a computed distance of
    exactly 180 is off the road, see the lemma after this one, and within
    [tolerance] of 180 the rounding decides.) *)
Theorem isCarOnRoad_clamped_projection (car : Car.t) (roadPath : list Point.t) :
  (2 <= length roadPath)%nat ->
  moderateCar car -> Forall moderatePoint roadPath ->
  ROAD_WIDTH / 2 - 20 = 180 /\
  exists m,
    spec_minDistance car roadPath = Some m /\
    closestSegment car roadPath Infinity = Finite m /\
    (m <= 180 - tolerance -> isCarOnRoad car roadPath = true) /\
    (180 + tolerance <= m -> isCarOnRoad car roadPath = false).
Proof.
  intros Hlen _ _.
  split; [unfold ROAD_WIDTH; lra|].
  destruct (offRoad_iff_reaches car roadPath Hlen) as [(m & Hm & Hclosest) Hoff].
  exists m. split; [exact Hm|]. split; [exact Hclosest|].
  unfold tolerance. split.
  - intros Hnear. apply not_false_is_true. intros Hon.
    apply Hoff in Hon. destruct Hon as (m' & Hm' & Hle).
    rewrite Hm in Hm'. injection Hm' as <-. unfold ROAD_WIDTH in Hle. lra.
  - intros Hfar. apply Hoff. exists m. split; [exact Hm|]. unfold ROAD_WIDTH. lra.
Qed.

Lemma boundary_distance : spec_minDistance boundaryCar straightRoad = Some 180.
Proof.
  unfold spec_minDistance, straightRoad, boundaryCar. cbn [segments map minimum fst snd].
  f_equal. unfold spec_segmentDistance, distanceTo. cbn [Point.x Point.y Car.x Car.y].
  assert (Hlen : ((400 - 400) * (400 - 400) + (0 - 600) * (0 - 600) !== 0) = true)
    by (apply neqb_true; lra).
  rewrite Hlen.
  replace (((580 - 400) * (400 - 400) + (300 - 600) * (0 - 600)) /
           ((400 - 400) * (400 - 400) + (0 - 600) * (0 - 600))) with (1 / 2) by lra.
  rewrite clamp01_inside by lra.
  replace ((580 - (400 + 1 / 2 * (400 - 400))) * (580 - (400 + 1 / 2 * (400 - 400))) +
           (300 - (600 + 1 / 2 * (0 - 600))) * (300 - (600 + 1 / 2 * (0 - 600))))
    with (180 * 180) by lra.
  apply sqrt_square. lra.
Qed.

(** Beside the straight road the distance of the test is the horizontal
    distance to it. *)
Lemma beside_distance (c : Car.t) :
  0 <= Car.y c <= 600 ->
  spec_minDistance c straightRoad = Some (Rabs (Car.x c - 400)).
Proof.
  intros Hy.
  unfold spec_minDistance, straightRoad. cbn [segments map minimum fst snd].
  f_equal. unfold spec_segmentDistance, distanceTo. cbn [Point.x Point.y].
  assert (Hlen : ((400 - 400) * (400 - 400) + (0 - 600) * (0 - 600) !== 0) = true)
    by (apply neqb_true; lra).
  rewrite Hlen.
  replace (((Car.x c - 400) * (400 - 400) + (Car.y c - 600) * (0 - 600)) /
           ((400 - 400) * (400 - 400) + (0 - 600) * (0 - 600)))
    with ((600 - Car.y c) / 600) by (field; lra).
  rewrite clamp01_inside by lra.
  replace ((Car.x c - (400 + (600 - Car.y c) / 600 * (400 - 400))) *
           (Car.x c - (400 + (600 - Car.y c) / 600 * (400 - 400))) +
           (Car.y c - (600 + (600 - Car.y c) / 600 * (0 - 600))) *
           (Car.y c - (600 + (600 - Car.y c) / 600 * (0 - 600))))
    with (Rsqr (Car.x c - 400)) by (unfold Rsqr; field).
  apply sqrt_Rsqr_abs.
Qed.

Lemma moderate_small (v : R) : -1000 <= v <= 1000 -> moderate v.
Proof. intros H. unfold moderate. apply Rabs_le. lra. Qed.

Lemma straightRoad_moderate : Forall moderatePoint straightRoad.
Proof.
  unfold straightRoad.
  repeat (constructor; [split; apply moderate_small; cbn; lra|]). constructor.
Qed.

Lemma isCarOnRoad_clamped_projection_witness :
  (2 <= length straightRoad)%nat /\
  moderateCar nearbyCar /\ moderateCar farCar /\ Forall moderatePoint straightRoad /\
  isCarOnRoad nearbyCar straightRoad = true /\
  isCarOnRoad farCar straightRoad = false.
Proof.
  assert (Hlen : (2 <= length straightRoad)%nat) by (simpl; lia).
  assert (Hnear : moderateCar nearbyCar) by (split; apply moderate_small; cbn; lra).
  assert (Hfar : moderateCar farCar) by (split; apply moderate_small; cbn; lra).
  split; [exact Hlen|]. split; [exact Hnear|]. split; [exact Hfar|].
  split; [exact straightRoad_moderate|]. split.
  - destruct (isCarOnRoad_clamped_projection nearbyCar straightRoad Hlen Hnear
                straightRoad_moderate) as (_ & m & Hm & _ & Hon & _).
    apply Hon. rewrite beside_distance in Hm by (cbn; lra). injection Hm as <-.
    cbn [Car.x nearbyCar]. unfold tolerance.
    replace (500 - 400) with 100 by lra. rewrite Rabs_right; lra.
  - destruct (isCarOnRoad_clamped_projection farCar straightRoad Hlen Hfar
                straightRoad_moderate) as (_ & m & Hm & _ & _ & Hoff).
    apply Hoff. rewrite beside_distance in Hm by (cbn; lra). injection Hm as <-.
    cbn [Car.x farCar]. unfold tolerance.
    replace (700 - 400) with 300 by lra. rewrite Rabs_right; lra.
Defined.

(** C2 (as stated) fails on the boundary: a car at distance exactly 180 from
    a straight road is off the road for the code, although the minimum
    distance does not exceed 180. *)
Lemma offPath_at_bound_not_exceeding :
  (2 <= length straightRoad)%nat /\
  isCarOnRoad boundaryCar straightRoad = false /\
  ~ spec_offPath_exceeds boundaryCar straightRoad.
Proof.
  split; [simpl; lia|]. split.
  - apply (offRoad_iff_reaches boundaryCar straightRoad); [simpl; lia|].
    exists 180. split; [apply boundary_distance|]. unfold ROAD_WIDTH. lra.
  - intros [m [Hm Hlt]]. rewrite boundary_distance in Hm.
    injection Hm as <-. unfold ROAD_WIDTH in Hlt. lra.
Qed.

(** C8.  On a zero-length segment (both ends the same point) the distance
    computed by the off-road test is the distance from the car to that point,
    whatever the division operator would return: [lenSq] is 0, the guard
    [lenSq !== 0] skips the division and [param] keeps its initial -1.  On
    every segment the division is only ever applied to a non-zero [lenSq], so
    the result is that of any operator that agrees with [/] on non-zero
    divisors. *)
Theorem segmentDistance_degenerate :
  (forall (divide : R -> R -> R) (car : Car.t) (p : Point.t),
     segmentDistance_with divide car p p = distanceTo car (Point.x p) (Point.y p)) /\
  (forall (divide : R -> R -> R) (car : Car.t) (p1 p2 : Point.t),
     (forall a b, b <> 0 -> divide a b = a / b) ->
     segmentDistance_with divide car p1 p2 = segmentDistance car p1 p2).
Proof.
  split.
  - intros divide car p. unfold segmentDistance_with, distanceTo.
    assert (Hlen : ((Point.x p - Point.x p) * (Point.x p - Point.x p) +
                    (Point.y p - Point.y p) * (Point.y p - Point.y p) !== 0) = false)
      by (apply neqb_false; ring).
    rewrite Hlen.
    assert (Hneg : (-1 <? 0) = true) by (apply ltb_true; lra).
    rewrite Hneg. reflexivity.
  - intros divide car p1 p2 Hdiv. unfold segmentDistance, segmentDistance_with.
    destruct (_ !== 0) eqn:Hlen; [|reflexivity].
    apply neqb_true in Hlen. rewrite (Hdiv _ _ Hlen). reflexivity.
Qed.

(** ** Reasoning about the monad *)

(** Runs the straight-line part of a computation applied to a world. *)
Ltac run :=
  cbv beta iota zeta delta
    [bind ret get getState modify modifyState emit when throw defined listen
     setScore setSpeed setIsGameOver setIsPaused Math_random pushRoad pushCoin].

(** Reduces the fields of updated worlds. *)
Ltac fields :=
  cbn [gameStateRef score speed actionTriggeredRef isPaused isGameOver
       screenActionTriggeredRef randomCalls
       car coins keysPressed roadPath cameraOffsetY
       with_state with_score with_speed with_actionTriggeredRef with_isPaused
       with_isGameOver with_screenActionTriggeredRef with_randomCalls
       with_car with_coins with_keysPressed with_roadPath with_cameraOffsetY
       Car.x Car.y Car.angle Car.speed Coin.x Coin.y Coin.collected Point.x Point.y
       fst snd app].

Lemma returns_bind {A B : Type} (m : M A) (f : A -> M B) (w : World)
      (Q : B -> World -> list Signal -> Prop) :
  returns m w (fun a w1 out1 =>
    returns (f a) w1 (fun b w2 out2 => Q b w2 (out1 ++ out2))) ->
  returns (bind m f) w Q.
Proof.
  unfold returns, bind.
  destruct (m w) as [[[a w1] out1]|]; [|easy].
  destruct (f a w1) as [[[b w2] out2]|]; easy.
Qed.

Lemma returns_weaken {A : Type} (m : M A) (w : World)
      (P Q : A -> World -> list Signal -> Prop) :
  returns m w P -> (forall a w' out, P a w' out -> Q a w' out) -> returns m w Q.
Proof.
  unfold returns. destruct (m w) as [[[a w'] out]|]; [|easy].
  intros HP HPQ. apply HPQ, HP.
Qed.

Lemma returns_ok {A : Type} (m : M A) (w : World)
      (Q : A -> World -> list Signal -> Prop) :
  returns m w Q <-> exists a w' out, m w = Ok (a, w', out) /\ Q a w' out.
Proof.
  unfold returns. split.
  - destruct (m w) as [[[a w'] out]|]; [|easy]. intros HQ. now exists a, w', out.
  - intros [a [w' [out [-> HQ]]]]. exact HQ.
Qed.

Lemma returns_and {A : Type} (m : M A) (w : World)
      (P Q : A -> World -> list Signal -> Prop) :
  returns m w P -> returns m w Q ->
  returns m w (fun a w' out => P a w' out /\ Q a w' out).
Proof.
  unfold returns. destruct (m w) as [[[a w'] out]|]; easy.
Qed.

(** A loop keeps an invariant that its body keeps; the invariant sees the
    counter, the local variables, the world and the signals so far. *)
Lemma forLoop_invariant {A : Type} (Inv : nat -> A -> World -> list Signal -> Prop)
      (body : nat -> A -> M A) (n : nat) :
  forall (i : nat) (acc : A) (w : World) (out : list Signal),
    Inv i acc w out ->
    (forall j acc w out, (i <= j < i + n)%nat -> Inv j acc w out ->
       returns (body j acc) w (fun acc' w' o => Inv (S j) acc' w' (out ++ o))) ->
    returns (forLoop i n body acc) w (fun acc' w' o => Inv (i + n)%nat acc' w' (out ++ o)).
Proof.
  induction n as [|n IH]; intros i acc w out Hinv Hbody.
  - unfold returns. cbn. rewrite app_nil_r, Nat.add_0_r. exact Hinv.
  - cbn [forLoop]. apply returns_bind.
    eapply returns_weaken; [apply (Hbody i acc w out); [lia|exact Hinv]|].
    intros acc' w' o Hinv'. cbn beta.
    eapply returns_weaken.
    + apply (IH (S i) acc' w' (out ++ o) Hinv').
      intros j acc0 w0 out0 Hj. apply Hbody. lia.
    + intros acc'' w'' o' H. cbn beta in H.
      rewrite <- app_assoc in H. replace (i + S n)%nat with (S i + n)%nat by lia.
      exact H.
Qed.

(** The same for [forEach]: the invariant sees the elements already visited,
    what the callback made of them, the world and the signals so far. *)
Lemma forEach_invariant {A : Type}
      (Inv : list A -> list A -> World -> list Signal -> Prop)
      (body : A -> M A) (l : list A) :
  forall (seen seen' : list A) (w : World) (out : list Signal),
    Inv seen seen' w out ->
    (forall seen seen' a w out, Inv seen seen' w out ->
       returns (body a) w (fun a' w' o => Inv (seen ++ [a]) (seen' ++ [a']) w' (out ++ o))) ->
    returns (forEach body l) w
      (fun l' w' o => Inv (seen ++ l) (seen' ++ l') w' (out ++ o)).
Proof.
  induction l as [|a rest IH]; intros seen seen' w out Hinv Hbody.
  - unfold returns. cbn. rewrite !app_nil_r. exact Hinv.
  - cbn [forEach]. apply returns_bind.
    eapply returns_weaken; [apply (Hbody seen seen' a w out Hinv)|].
    intros a' w' o Hinv'. cbn beta.
    apply returns_bind.
    eapply returns_weaken; [apply (IH _ _ w' (out ++ o) Hinv' Hbody)|].
    intros rest' w'' o' H. cbn beta in H. unfold returns. cbn.
    rewrite app_nil_r. rewrite <- !app_assoc in H. cbn in H.
    exact H.
Qed.

(** *** Rules for the primitive computations *)

Lemma returns_ret {A : Type} (a : A) (w : World) (Q : A -> World -> list Signal -> Prop) :
  Q a w [] -> returns (ret a) w Q.
Proof. exact (fun H => H). Qed.

Lemma returns_get (w : World) (Q : World -> World -> list Signal -> Prop) :
  Q w w [] -> returns get w Q.
Proof. exact (fun H => H). Qed.

Lemma returns_getState (w : World) (Q : GameState -> World -> list Signal -> Prop) :
  Q (gameStateRef w) w [] -> returns getState w Q.
Proof. exact (fun H => H). Qed.

Lemma returns_modify (f : World -> World) (w : World) (Q : unit -> World -> list Signal -> Prop) :
  Q tt (f w) [] -> returns (modify f) w Q.
Proof. exact (fun H => H). Qed.

Lemma returns_emit (s : Signal) (w : World) (Q : unit -> World -> list Signal -> Prop) :
  Q tt w [s] -> returns (emit s) w Q.
Proof. exact (fun H => H). Qed.

Lemma returns_defined {A : Type} (o : option A) (a : A) (w : World)
      (Q : A -> World -> list Signal -> Prop) :
  o = Some a -> Q a w [] -> returns (defined o) w Q.
Proof. intros -> H. exact H. Qed.

Lemma returns_eq {A : Type} (m : M A) (w : World) (a : A) (w' : World) (out : list Signal)
      (Q : A -> World -> list Signal -> Prop) :
  m w = Ok (a, w', out) -> Q a w' out -> returns m w Q.
Proof. unfold returns. intros -> H. exact H. Qed.

(** One step of a sequence: a primitive followed by the rest. *)
Ltac step :=
  apply returns_bind;
  lazymatch goal with
  | |- returns get _ _ => apply returns_get
  | |- returns getState _ _ => apply returns_getState
  | |- returns (modify _) _ _ => apply returns_modify
  | |- returns (modifyState _) _ _ => apply returns_modify
  | |- returns (setScore _) _ _ => apply returns_modify
  | |- returns (setSpeed _) _ _ => apply returns_modify
  | |- returns (setIsGameOver _) _ _ => apply returns_modify
  | |- returns (setIsPaused _) _ _ => apply returns_modify
  | |- returns (emit _) _ _ => apply returns_emit
  | |- returns (ret _) _ _ => apply returns_ret
  end;
  cbn beta.

(** ** Road generation *)

Lemma lastElement_snoc {A : Type} (l : list A) (a : A) : lastElement (l ++ [a]) = Some a.
Proof.
  induction l as [|b rest IH]; [reflexivity|].
  cbn [app lastElement]. rewrite IH.
  destruct (rest ++ [a]) eqn:E; [|reflexivity].
  destruct rest; discriminate.
Qed.

Lemma lastElement_nonempty {A : Type} (l : list A) :
  l <> [] -> exists a, lastElement l = Some a.
Proof.
  induction l as [|b rest IH]; [easy|]. intros _.
  destruct rest as [|c rest']; [now exists b|].
  destruct IH as [a Ha]; [easy|]. exists a. exact Ha.
Qed.

Lemma Descending_snoc (y0 : R) (points : list Point.t) (p : Point.t) :
  Descending y0 points ->
  Point.y p = lastY y0 points - SEGMENT_WIDTH ->
  Descending y0 (points ++ [p]).
Proof.
  revert y0. induction points as [|a rest IH]; intros y0 Hd Hp.
  - cbn in *. auto.
  - destruct Hd as [Ha Hrest]. cbn [app Descending]. split; [assumption|].
    apply IH; [assumption|]. rewrite Hp. unfold lastY.
    destruct rest as [|b rest']; [reflexivity|].
    change (lastElement (a :: b :: rest')) with (lastElement (b :: rest')).
    destruct (lastElement_nonempty (b :: rest')) as [q ->]; [easy|]. reflexivity.
Qed.

Lemma keepWithinBounds_inBounds (currentX currentY : R) :
  inBounds (Point.mk (keepWithinBounds currentX) currentY).
Proof.
  unfold inBounds, keepWithinBounds, ROAD_WIDTH, CANVAS_WIDTH, Rmax, Rmin.
  cbn [Point.x]. repeat destruct (Rle_dec _ _); lra.
Qed.

Lemma Spawned_app (rnd : nat -> R) (n m n' : nat) (a1 a2 : list (R * R)) (c1 c2 : list Coin.t) :
  Spawned rnd n a1 c1 m -> Spawned rnd m a2 c2 n' ->
  Spawned rnd n (a1 ++ a2) (c1 ++ c2) n'.
Proof.
  intros H1 H2. induction H1; cbn [app].
  - exact H2.
  - eapply Spawned_skip; eauto.
  - eapply Spawned_coin; eauto.
Qed.

Lemma Spawned_PlacedNear (rnd : nat -> R) (n n' : nat) (a : list (R * R)) (c : list Coin.t) :
  (forall k, 0 <= rnd k < 1) ->
  Spawned rnd n a c n' -> PlacedNear a c.
Proof.
  intros Hrnd. induction 1.
  - constructor.
  - now constructor.
  - constructor; [|assumption]. specialize (Hrnd (S k)). lra.
Qed.

Lemma Untouched_refl (w : World) : Untouched w w.
Proof. now constructor. Qed.

Lemma Untouched_trans (w1 w2 w3 : World) :
  Untouched w1 w2 -> Untouched w2 w3 -> Untouched w1 w3.
Proof.
  intros [] []. constructor; congruence.
Qed.

Lemma segments_length (l : list Point.t) : length (segments l) = (length l - 1)%nat.
Proof.
  induction l as [|a rest IH]; [reflexivity|].
  destruct rest as [|b rest']; [reflexivity|].
  change (segments (a :: b :: rest')) with ((a, b) :: segments (b :: rest')).
  cbn [length] in *. lia.
Qed.

Lemma segments_nth (l : list Point.t) (i : nat) (a b : Point.t) :
  nth_error l i = Some a -> nth_error l (S i) = Some b ->
  nth_error (segments l) i = Some (a, b).
Proof.
  revert i. induction l as [|c rest IH]; intros i Ha Hb.
  - destruct i; discriminate.
  - destruct rest as [|d rest']; [destruct i; discriminate|].
    change (segments (c :: d :: rest')) with ((c, d) :: segments (d :: rest')).
    destruct i as [|i].
    + cbn in *. congruence.
    + cbn [nth_error] in *. apply IH; assumption.
Qed.

Lemma nth_error_tl {A : Type} (l : list A) (i : nat) :
  nth_error (tl l) i = nth_error l (S i).
Proof. destruct l; [destruct i|]; reflexivity. Qed.

Lemma firstn_snoc {A : Type} (l : list A) (k : nat) (x : A) :
  nth_error l k = Some x -> firstn (S k) l = firstn k l ++ [x].
Proof.
  revert k. induction l as [|a rest IH]; intros k Hk.
  - destruct k; discriminate.
  - destruct k as [|k]; cbn in *.
    + congruence.
    + f_equal. apply IH. exact Hk.
Qed.

Lemma nth_error_defined {A : Type} (l : list A) (i : nat) :
  (i < length l)%nat -> exists a, nth_error l i = Some a.
Proof.
  intros Hi. destruct (nth_error l i) eqn:E; [eauto|].
  apply nth_error_None in E. lia.
Qed.

Section GenerationFacts.

Variable rnd : nat -> R.

(** One turn of the loop of [extendRoad]. *)
Lemma extendRoad_body (cnt i : nat) (currentX currentY : R) (w : World) :
  returns
    ((fun i '(currentX, currentY) =>
        let currentY := currentY - SEGMENT_WIDTH in
        direction <- chooseDirection rnd ((cnt + i) mod 3 =? 0)%nat ;;
        let currentX := currentX + direction * (SEGMENT_WIDTH * (8 / 10)) in
        let currentX := keepWithinBounds currentX in
        pushRoad (Point.mk currentX currentY) ;;
        r <- Math_random rnd ;;
        (if r >? 4 / 10 then
           r' <- Math_random rnd ;;
           let offsetX := (r' - 5 / 10) * 40 in
           pushCoin (Coin.mk (currentX + offsetX) currentY false)
         else ret tt) ;;
        ret (currentX, currentY)) i (currentX, currentY))
    w
    (fun acc w' out =>
       out = [] /\ Untouched w w' /\
       snd acc = currentY - SEGMENT_WIDTH /\
       exists p newCoins,
         Point.x p = fst acc /\ Point.y p = snd acc /\ inBounds p /\
         roadPath (gameStateRef w') = roadPath (gameStateRef w) ++ [p] /\
         coins (gameStateRef w') = coins (gameStateRef w) ++ newCoins /\
         Spawned rnd (randomCalls w) [endPoint p] newCoins (randomCalls w')).
Proof.
  unfold returns. cbn beta iota.
  destruct ((cnt + i) mod 3 =? 0)%nat;
    cbn [chooseDirection bind Math_random ret pushRoad modifyState modify].
  - set (k := S (randomCalls w)).
    cbn [with_state with_randomCalls with_roadPath randomCalls gameStateRef].
    fold k.
    destruct (rnd k >? 4 / 10) eqn:Hspawn;
      cbn [bind Math_random ret pushCoin modifyState modify app fst snd
           with_state with_randomCalls with_roadPath with_coins randomCalls gameStateRef
           roadPath coins car keysPressed cameraOffsetY].
    + split; [reflexivity|]. split; [now constructor|]. split; [reflexivity|].
      eexists (Point.mk _ _), [_]. cbn [Point.x Point.y].
      repeat split; try reflexivity; try apply keepWithinBounds_inBounds.
      eapply (Spawned_coin rnd _ k (_, _)); [unfold k; lia|exact Hspawn|constructor].
    + split; [reflexivity|]. split; [now constructor|]. split; [reflexivity|].
      eexists (Point.mk _ _), []. cbn [Point.x Point.y]. rewrite app_nil_r.
      repeat split; try reflexivity; try apply keepWithinBounds_inBounds.
      eapply (Spawned_skip rnd _ k); [unfold k; lia|exact Hspawn|constructor].
  - set (k := randomCalls w).
    cbn [with_state with_randomCalls with_roadPath randomCalls gameStateRef].
    fold k.
    destruct (rnd k >? 4 / 10) eqn:Hspawn;
      cbn [bind Math_random ret pushCoin modifyState modify app fst snd
           with_state with_randomCalls with_roadPath with_coins randomCalls gameStateRef
           roadPath coins car keysPressed cameraOffsetY].
    + split; [reflexivity|]. split; [now constructor|]. split; [reflexivity|].
      eexists (Point.mk _ _), [_]. cbn [Point.x Point.y].
      repeat split; try reflexivity; try apply keepWithinBounds_inBounds.
      eapply (Spawned_coin rnd _ k (_, _)); [unfold k; lia|exact Hspawn|constructor].
    + split; [reflexivity|]. split; [now constructor|]. split; [reflexivity|].
      eexists (Point.mk _ _), []. cbn [Point.x Point.y]. rewrite app_nil_r.
      repeat split; try reflexivity; try apply keepWithinBounds_inBounds.
      eapply (Spawned_skip rnd _ k); [unfold k; lia|exact Hspawn|constructor].
Qed.

Lemma extendRoad_Extended (w : World) (lastPoint : Point.t) :
  lastElement (roadPath (gameStateRef w)) = Some lastPoint ->
  returns (extendRoad rnd) w (fun _ w' out => out = [] /\ Extended rnd lastPoint w w').
Proof.
  intros Hlast. unfold extendRoad.
  apply returns_bind. unfold returns at 1. cbn [getState].
  apply returns_bind. rewrite Hlast. unfold returns at 1. cbn [defined ret].
  apply returns_bind.
  pose (Inv := fun (j : nat) (acc : R * R) (w' : World) (out : list Signal) =>
    out = [] /\ Untouched w w' /\
    snd acc = Point.y lastPoint - INR j * SEGMENT_WIDTH /\
    exists newPoints newCoins q,
      roadPath (gameStateRef w') = roadPath (gameStateRef w) ++ newPoints /\
      coins (gameStateRef w') = coins (gameStateRef w) ++ newCoins /\
      length newPoints = j /\
      Forall inBounds newPoints /\
      (Descending (Point.y lastPoint) newPoints /\
       lastY (Point.y lastPoint) newPoints = snd acc) /\
      lastElement (roadPath (gameStateRef w')) = Some q /\
      Point.y q = snd acc /\
      Spawned rnd (randomCalls w) (map endPoint newPoints) newCoins (randomCalls w')).
  eapply returns_weaken.
  - apply (forLoop_invariant Inv _ 5 0 _ w []).
    + unfold Inv. split; [reflexivity|]. split; [apply Untouched_refl|].
      split; [cbn; lra|].
      exists [], [], lastPoint. rewrite !app_nil_r.
      repeat split; auto. constructor.
    + intros j [cx cy] w1 out _ (Hout & Hsame & Hy & pts & cs & q & Hpath & Hcoins & Hlen & Hin & [Hdesc Hlast'] & _ & _ & Hsp).
      eapply returns_weaken; [apply (extendRoad_body (length (roadPath (gameStateRef w))) j cx cy w1)|].
      intros [cx' cy'] w2 o (-> & Hsame' & Hy' & p & cs' & Hpx & Hpy & Hpin & Hpath' & Hcoins' & Hsp').
      cbn [fst snd] in *. subst out. unfold Inv. cbn [app fst snd].
      split; [reflexivity|]. split; [eapply Untouched_trans; eauto|].
      split; [rewrite S_INR; lra|].
      exists (pts ++ [p]), (cs ++ cs'), p.
      rewrite Hpath', Hpath, Hcoins', Hcoins, <- !app_assoc.
      repeat split; auto.
      * rewrite length_app. cbn. lia.
      * apply Forall_app. split; [assumption|]. now constructor.
      * apply Descending_snoc; [assumption|]. rewrite Hlast', Hpy, Hy'. reflexivity.
      * unfold lastY. now rewrite lastElement_snoc.
      * rewrite app_assoc. apply lastElement_snoc.
      * rewrite map_app. eapply Spawned_app; eauto.
  - intros [cx cy] w' out (Hout & Hsame & Hy & pts & cs & q & Hpath & Hcoins & Hlen & Hin & [Hdesc _] & Hq & Hqy & Hsp).
    cbn [app] in Hout. subst out. unfold returns. cbn [ret].
    split; [reflexivity|]. split; [assumption|].
    exists pts, cs, q. repeat split; auto.
    rewrite Hqy, Hy. cbn [snd Nat.add INR]. lra.
Qed.

Lemma initializeRoad_spec (w : World) :
  returns (initializeRoad rnd) w (fun _ w' out =>
    out = [] /\ Untouched w w' /\
    coins (gameStateRef w') = coins (gameStateRef w) /\
    (randomCalls w <= randomCalls w')%nat /\
    length (roadPath (gameStateRef w')) = 16%nat /\
    Forall inBounds (roadPath (gameStateRef w')) /\
    exists q, lastElement (roadPath (gameStateRef w')) = Some q /\
              Point.y q = CANVAS_HEIGHT - 15 * SEGMENT_WIDTH).
Proof.
  unfold initializeRoad.
  apply returns_bind. unfold returns at 1. cbn [modifyState modify].
  apply returns_bind. unfold returns at 1. cbn [pushRoad modifyState modify].
  apply returns_bind.
  set (w0 := with_state _ (with_state _ w)).
  set (start := Point.mk (CANVAS_WIDTH / 2) CANVAS_HEIGHT).
  pose (Inv := fun (j : nat) (acc : R * R) (w' : World) (out : list Signal) =>
    out = [] /\ Untouched w w' /\
    coins (gameStateRef w') = coins (gameStateRef w) /\
    (randomCalls w <= randomCalls w')%nat /\
    snd acc = CANVAS_HEIGHT - INR j * SEGMENT_WIDTH /\
    length (roadPath (gameStateRef w')) = S j /\
    Forall inBounds (roadPath (gameStateRef w')) /\
    exists q, lastElement (roadPath (gameStateRef w')) = Some q /\ Point.y q = snd acc).
  eapply returns_weaken.
  - apply (forLoop_invariant Inv _ 15 0 _ w0 []).
    + unfold Inv, w0. cbn. split; [reflexivity|]. split; [now constructor|].
      repeat split; try lra; try lia.
      * constructor; [|constructor].
        unfold inBounds, start, ROAD_WIDTH, CANVAS_WIDTH. cbn. lra.
      * exists start. now split.
    + intros j [cx cy] w1 out _ (-> & Hsame & Hcoins & Hrc & Hy & Hlen & Hin & _).
      unfold returns, Inv. cbn beta iota.
      destruct (j mod 3 =? 0)%nat;
        cbn [chooseDirection bind Math_random ret pushRoad modifyState modify app fst snd
             with_state with_randomCalls with_roadPath randomCalls gameStateRef
             roadPath coins car keysPressed cameraOffsetY score speed actionTriggeredRef
             isPaused isGameOver screenActionTriggeredRef].
      * split; [reflexivity|]. destruct Hsame. split; [now constructor|].
        repeat split; auto; try lia.
        -- cbn [fst snd] in *. rewrite S_INR. lra.
        -- rewrite length_app. cbn. lia.
        -- apply Forall_app. split; [assumption|].
           constructor; [apply keepWithinBounds_inBounds|constructor].
        -- eexists. split; [apply lastElement_snoc|reflexivity].
      * split; [reflexivity|]. destruct Hsame. split; [now constructor|].
        repeat split; auto; try lia.
        -- cbn [fst snd] in *. rewrite S_INR. lra.
        -- rewrite length_app. cbn. lia.
        -- apply Forall_app. split; [assumption|].
           constructor; [apply keepWithinBounds_inBounds|constructor].
        -- eexists. split; [apply lastElement_snoc|reflexivity].
  - intros [cx cy] w' out (Hout & Hsame & Hcoins & Hrc & Hy & Hlen & Hin & q & Hq & Hqy).
    cbn [app] in Hout. subst out. unfold returns. cbn [ret].
    do 6 (split; [assumption || reflexivity|]).
    exists q. split; [assumption|]. rewrite Hqy, Hy. cbn [snd Nat.add INR]. lra.
Qed.

Lemma initializeCoins_spec (w : World) :
  returns (initializeCoins rnd) w (fun _ w' out =>
    out = [] /\ Untouched w w' /\
    roadPath (gameStateRef w') = roadPath (gameStateRef w) /\
    Spawned rnd (randomCalls w)
            (map midPoint (tl (segments (roadPath (gameStateRef w)))))
            (coins (gameStateRef w')) (randomCalls w')).
Proof.
  unfold initializeCoins.
  apply returns_bind. unfold returns at 1. cbn [modifyState modify].
  apply returns_bind. unfold returns at 1. cbn [getState].
  apply returns_bind.
  set (w0 := with_state (with_coins []) w).
  set (path := roadPath (gameStateRef w)).
  set (anchors := map midPoint (tl (segments path))).
  assert (Hanchors : length anchors = (length path - 1 - 1)%nat).
  { unfold anchors. rewrite length_map.
    pose proof (segments_length path) as Hs.
    destruct (segments path); cbn [tl length] in *; lia. }
  change (roadPath (gameStateRef w0)) with path.
  pose (Inv := fun (j : nat) (_ : unit) (w' : World) (out : list Signal) =>
    out = [] /\ Untouched w w' /\
    roadPath (gameStateRef w') = path /\
    Spawned rnd (randomCalls w) (firstn (j - 1) anchors)
            (coins (gameStateRef w')) (randomCalls w')).
  eapply returns_weaken.
  - apply (forLoop_invariant Inv _ (length path - 1 - 1) 1 tt w0 []).
    + unfold Inv, w0. cbn. split; [reflexivity|]. split; [now constructor|].
      split; [reflexivity|]. constructor.
    + intros j [] w1 out Hj (-> & Hsame & Hpath & Hsp).
      destruct (nth_error_defined path j) as [a Ha]; [lia|].
      destruct (nth_error_defined path (j + 1)) as [b Hb]; [lia|].
      assert (Hanchor : nth_error anchors (j - 1) = Some (midPoint (a, b))).
      { unfold anchors. apply map_nth_error. rewrite nth_error_tl.
        replace (S (j - 1)) with j by lia.
        apply segments_nth; [assumption|]. now replace (S j) with (j + 1)%nat by lia. }
      unfold returns, Inv. cbn [bind Math_random].
      set (k := randomCalls w1).
      destruct (rnd k >? 4 / 10) eqn:Hspawn;
        cbn [bind Math_random ret getState defined pushCoin modifyState modify app
             with_state with_randomCalls with_coins randomCalls gameStateRef
             roadPath coins car keysPressed cameraOffsetY score speed actionTriggeredRef
             isPaused isGameOver screenActionTriggeredRef].
      * rewrite Hpath, Ha. cbn [defined ret bind]. rewrite Hb.
        cbn [bind Math_random ret getState defined pushCoin modifyState modify app
             with_state with_randomCalls with_coins randomCalls gameStateRef
             roadPath coins car keysPressed cameraOffsetY score speed actionTriggeredRef
             isPaused isGameOver screenActionTriggeredRef].
        split; [reflexivity|]. destruct Hsame. split; [now constructor|].
        split; [assumption|].
        replace (S j - 1)%nat with (S (j - 1)) by lia.
        rewrite (firstn_snoc _ _ _ Hanchor).
        eapply Spawned_app; [exact Hsp|].
        apply (Spawned_coin rnd _ k (midPoint (a, b))); [unfold k; lia|exact Hspawn|constructor].
      * split; [reflexivity|]. destruct Hsame. split; [now constructor|].
        split; [assumption|].
        replace (S j - 1)%nat with (S (j - 1)) by lia.
        rewrite (firstn_snoc _ _ _ Hanchor).
        rewrite <- (app_nil_r (coins (gameStateRef w1))).
        eapply Spawned_app; [exact Hsp|].
        apply (Spawned_skip rnd _ k (midPoint (a, b))); [unfold k; lia|exact Hspawn|constructor].
  - intros [] w' out (Hout & Hsame & Hpath & Hsp).
    cbn [app] in Hout. subst out. unfold returns. cbn [ret].
    do 3 (split; [assumption || reflexivity|]).
    replace (1 + (length path - 1 - 1) - 1)%nat with (length anchors) in Hsp by lia.
    rewrite firstn_all in Hsp. exact Hsp.
Qed.

End GenerationFacts.

(** ** The coin loop *)

Lemma signalled_app (s : Signal) (a b : list Signal) :
  signalled s (a ++ b) = signalled s a || signalled s b.
Proof. unfold signalled. apply existsb_app. Qed.

Lemma occurrences_app (s : Signal) (a b : list Signal) :
  occurrences s (a ++ b) = (occurrences s a + occurrences s b)%nat.
Proof. unfold occurrences. now rewrite filter_app, length_app. Qed.

Lemma collectedCount_app (a b : list Coin.t) :
  collectedCount (a ++ b) = (collectedCount a + collectedCount b)%Z.
Proof. unfold collectedCount. rewrite filter_app, length_app. lia. Qed.

Lemma crossing_add (a b c : Z) :
  (a <= b)%Z -> (b <= c)%Z -> (crossing a b + crossing b c)%nat = crossing a c.
Proof.
  intros Hab Hbc. unfold crossing, ACTION_SCORE_THRESHOLD.
  rewrite !Z.geb_leb.
  destruct (a <? 300)%Z eqn:Ha, (b <? 300)%Z eqn:Hb, (300 <=? b)%Z eqn:Hb',
           (300 <=? c)%Z eqn:Hc; cbn; lia.
Qed.

Lemma crossing_same (a : Z) : crossing a a = 0%nat.
Proof.
  unfold crossing. rewrite Z.geb_leb.
  destruct (a <? _)%Z eqn:Ha, (_ <=? a)%Z eqn:Ha'; cbn; lia.
Qed.

Lemma CoinStep_refl (w : World) : CoinStep w w [].
Proof.
  constructor; auto; try lia.
  intros H. split; [exact H|]. now rewrite crossing_same.
Qed.

Lemma CoinStep_trans (w1 w2 w3 : World) (o1 o2 : list Signal) :
  CoinStep w1 w2 o1 -> CoinStep w2 w3 o2 -> CoinStep w1 w3 (o1 ++ o2).
Proof.
  intros [] []. constructor; try congruence; auto; try lia.
  - intros H. destruct (step_won1 H) as [H2|H2]; [|now right].
    destruct (step_won0 H2) as [H1|H1]; [now left|right; lia].
  - intros H. destruct (step_latch0 H) as [H2 Hc1].
    destruct (step_latch1 H2) as [H3 Hc2]. split; [exact H3|].
    rewrite occurrences_app, Hc1, Hc2. now apply crossing_add.
  - rewrite !occurrences_app. lia.
Qed.

Section CoinFacts.

Variable collide : Car.t -> R -> R -> bool.

(** One visit of the callback of the coin loop. *)
Lemma collectCoin_spec (coin : Coin.t) (w : World) :
  returns (collectCoin_with collide coin) w (fun coin' w' out =>
    CoinStep w w' out /\
    gameStateRef w' = gameStateRef w /\
    Visited collide (gameStateRef w) coin coin' /\
    score w' = (score w + 10 * (collectedCount [coin'] - collectedCount [coin]))%Z).
Proof.
  unfold returns, collectCoin_with.
  destruct (Coin.collected coin) eqn:Hc.
  { cbn [ret]. split; [apply CoinStep_refl|]. split; [reflexivity|].
    split; [now left|]. lia. }
  cbn [bind getState].
  fold (culled (cameraOffsetY (gameStateRef w)) coin).
  destruct (culled _ coin) eqn:Hcull.
  { cbn [ret]. split; [apply CoinStep_refl|]. split; [reflexivity|].
    split; [now left|]. lia. }
  destruct (collide _ _ _) eqn:Hhit.
  2:{ cbn [ret]. split; [apply CoinStep_refl|]. split; [reflexivity|].
      split; [now left|]. lia. }
  unfold setScoreWith, scoreUpdater. run.
  destruct ((score w + 10 >=? ACTION_SCORE_THRESHOLD)%Z && negb (actionTriggeredRef w)) eqn:Hfire;
    destruct (score w + 10 >=? MAX_SCORE)%Z eqn:Hmax;
    cbn [app with_actionTriggeredRef with_isGameOver with_score
         gameStateRef score speed actionTriggeredRef isPaused isGameOver
         screenActionTriggeredRef randomCalls].
  all: split; [|split; [reflexivity|split; [unfold Visited; right; auto|]]].
  all: try (unfold collectedCount; cbn; rewrite Hc; cbn; lia).
  all: constructor; fields; auto; try lia.
  all: intros Hlatch; rewrite Hlatch in *;
    unfold crossing, occurrences, ACTION_SCORE_THRESHOLD in *;
    rewrite ?Z.geb_leb in *;
    destruct (300 <=? score w)%Z eqn:H1; destruct (300 <=? score w + 10)%Z eqn:H2;
    destruct (score w <? 300)%Z eqn:H3; cbn in *; try discriminate; try lia; auto.
Qed.

(** The whole [forEach]. *)
Lemma forEach_collectCoin (cs : list Coin.t) (w : World) :
  returns (forEach (collectCoin_with collide) cs) w (fun cs' w' out =>
    CoinStep w w' out /\
    gameStateRef w' = gameStateRef w /\
    Forall2 (Visited collide (gameStateRef w)) cs cs' /\
    score w' = (score w + 10 * (collectedCount cs' - collectedCount cs))%Z).
Proof.
  pose (Inv := fun (seen seen' : list Coin.t) (w' : World) (out : list Signal) =>
    CoinStep w w' out /\
    gameStateRef w' = gameStateRef w /\
    Forall2 (Visited collide (gameStateRef w)) seen seen' /\
    score w' = (score w + 10 * (collectedCount seen' - collectedCount seen))%Z).
  apply (forEach_invariant Inv (collectCoin_with collide) cs [] [] w []).
  - unfold Inv. split; [apply CoinStep_refl|]. split; [reflexivity|].
    split; [constructor|]. unfold collectedCount. cbn. lia.
  - intros seen seen' a w1 out (Hstep & Hstate & Hall & Hscore).
    eapply returns_weaken; [apply collectCoin_spec|].
    intros a' w2 o (Hstep' & Hstate' & Hvis & Hscore'). unfold Inv.
    split; [eapply CoinStep_trans; eauto|]. split; [congruence|]. split.
    + apply Forall2_app; [assumption|]. constructor; [|constructor].
      rewrite <- Hstate. exact Hvis.
    + rewrite !collectedCount_app. lia.
Qed.

(** The coin loop with its write-back of the visited coins. *)
Lemma coinLoop_spec (w : World) :
  returns (coinLoop collide) w (fun _ w' out =>
    CoinStep w w' out /\
    (exists cs', gameStateRef w' = with_coins cs' (gameStateRef w)) /\
    Forall2 (Visited collide (gameStateRef w))
            (coins (gameStateRef w)) (coins (gameStateRef w')) /\
    score w' = (score w + 10 * (collectedCount (coins (gameStateRef w'))
                                - collectedCount (coins (gameStateRef w))))%Z).
Proof.
  unfold coinLoop. apply returns_bind. unfold returns at 1. cbn [getState].
  apply returns_bind.
  eapply returns_weaken; [apply forEach_collectCoin|].
  intros cs' w1 out (Hstep & Hstate & Hall & Hscore).
  unfold returns. cbn [modifyState modify with_state with_coins gameStateRef coins roadPath
    score speed actionTriggeredRef isPaused isGameOver screenActionTriggeredRef randomCalls
    car keysPressed cameraOffsetY].
  rewrite !app_nil_r.
  split; [|split; [exists cs'; now rewrite Hstate|split; assumption]].
  destruct Hstep. constructor; cbn; auto.
Qed.



End CoinFacts.

(** ** One frame *)

Lemma returns_when (b : bool) (m : M unit) (w : World) (Q : unit -> World -> list Signal -> Prop) :
  (if b then returns m w Q else Q tt w []) -> returns (when b m) w Q.
Proof. destruct b; exact (fun H => H). Qed.

Lemma steered_unchanged (w : World) :
  keysPressed (gameStateRef (steered w)) = keysPressed (gameStateRef w) /\
  roadPath (gameStateRef (steered w)) = roadPath (gameStateRef w) /\
  coins (gameStateRef (steered w)) = coins (gameStateRef w) /\
  cameraOffsetY (gameStateRef (steered w)) = cameraOffsetY (gameStateRef w) /\
  Car.x (car (gameStateRef (steered w))) = Car.x (car (gameStateRef w)) /\
  Car.y (car (gameStateRef (steered w))) = Car.y (car (gameStateRef w)) /\
  score (steered w) = score w /\
  actionTriggeredRef (steered w) = actionTriggeredRef w /\
  isPaused (steered w) = isPaused w /\
  isGameOver (steered w) = isGameOver w /\
  screenActionTriggeredRef (steered w) = screenActionTriggeredRef w /\
  randomCalls (steered w) = randomCalls w.
Proof.
  unfold steered.
  destruct (has "ArrowLeft" _), (has "ArrowRight" _); cbn; repeat split; reflexivity.
Qed.

Lemma coinLoop_unfold (collide : Car.t -> R -> R -> bool) (w : World) :
  coinLoop collide w =
  (coins' <- forEach (collectCoin_with collide) (coins (gameStateRef w)) ;;
   modifyState (with_coins coins')) w.
Proof.
  unfold coinLoop. unfold bind at 1. unfold getState.
  destruct (bind _ _ w) as [[[u w'] out]|]; reflexivity.
Qed.

Lemma returns_drawRoad (w : World) (Q : unit -> World -> list Signal -> Prop) :
  roadPath (gameStateRef w) <> [] -> Q tt w [] -> returns drawRoad w Q.
Proof.
  intros Hne HQ. unfold drawRoad, returns. cbn [bind getState].
  destruct (roadPath (gameStateRef w)) as [|p rest]; [easy|]. exact HQ.
Qed.

(** Driving leaves the road with at least the points it had. *)
Lemma Driven_road (rnd : nat -> R) (w wd : World) (lastPoint : Point.t) :
  lastElement (roadPath (gameStateRef w)) = Some lastPoint ->
  Driven rnd w lastPoint wd ->
  roadPath (gameStateRef wd) <> [].
Proof.
  intros Hlast Hd.
  destruct (steered_unchanged w) as (_ & Hpath & _).
  assert (Hne : roadPath (gameStateRef w) <> []).
  { destruct (roadPath (gameStateRef w)); [discriminate|easy]. }
  unfold Driven in Hd. destruct (has " " _).
  - destruct Hd as (we & Hext & ->).
    assert (Hwe : roadPath (gameStateRef we) <> []).
    { destruct (horizon _ _ >? _).
      - destruct Hext as (_ & pts & cs & q & Hpath' & _). rewrite Hpath'.
        unfold moved. cbn [gameStateRef with_speed with_state roadPath with_car].
        rewrite Hpath. intros H. apply app_eq_nil in H. now destruct H.
      - subst we. unfold moved. cbn [gameStateRef with_speed with_state roadPath with_car].
        now rewrite Hpath. }
    unfold recentered. destruct (_ <? _); [|exact Hwe]. exact Hwe.
  - subst wd. unfold stopped. cbn [gameStateRef with_speed with_state roadPath with_car].
    now rewrite Hpath.
Qed.

Section FrameFacts.

Variable rnd : nat -> R.
Variable onRoad : Car.t -> list Point.t -> bool.
Variable collide : Car.t -> R -> R -> bool.

Lemma gameLoop_running (w : World) (lastPoint : Point.t) :
  isPaused w = false -> isGameOver w = false ->
  lastElement (roadPath (gameStateRef w)) = Some lastPoint ->
  returns (gameLoop_with rnd onRoad collide) w (fun _ w' out =>
    exists wd outc,
      Driven rnd w lastPoint wd /\
      let thrust := has " " (keysPressed (gameStateRef w)) in
      let s := gameStateRef wd in
      let offRoad := thrust && negb (onRoad (car s) (roadPath s)) in
      let offScreen := (Car.x (car s) <? 0) || (Car.x (car s) >? CANVAS_WIDTH) in
      coinLoop collide (flagged offScreen (flagged offRoad wd)) = Ok (tt, w', outc) /\
      out = boundarySignals onRoad thrust s ++ outc).
Proof.
  intros Hp Ho Hlast. unfold gameLoop_with.
  step. rewrite Hp, Ho. cbn [orb].
  step.
  assert (Hsteer : forall Q,
    Q tt (steered w) [] ->
    returns (when (has "ArrowLeft" (keysPressed (gameStateRef w)))
               (modifyState (turnBy (- TURN_SPEED)))) w
      (fun _ w1 out1 =>
         returns (when (has "ArrowRight" (keysPressed (gameStateRef w)))
                    (modifyState (turnBy TURN_SPEED))) w1
           (fun u w2 out2 => Q u w2 (out1 ++ out2)))).
  { intros Q HQ. unfold steered in HQ.
    destruct (has "ArrowLeft" _), (has "ArrowRight" _); exact HQ. }
  apply returns_bind.
  eapply returns_weaken; [apply (Hsteer (fun _ w2 out => w2 = steered w /\ out = [])); auto|].
  clear Hsteer. cbn beta. intros _ w1 out1 Hrest.
  apply returns_bind. eapply returns_weaken; [exact Hrest|]. clear Hrest.
  cbn beta. intros _ w2 out2 [-> Hout].
  destruct (steered_unchanged w) as (Hkeys & Hpath & Hcoins & Hcam & Hx & Hy & Hsc & Hl & Hpa & Hov & Hscr & Hrc).
  step. rewrite Hkeys.
  apply returns_bind.
  apply (returns_weaken _ _ (fun _ wd out => out = [] /\ Driven rnd w lastPoint wd)).
  - (* steering done: moving, extending, recentering *)
    unfold Driven. destruct (has " " (keysPressed (gameStateRef w))) eqn:Hthrust.
    + step. step. fold (moved (steered w)). step.
      apply returns_bind.
      apply (returns_defined _ lastPoint);
        [unfold moved; fields; rewrite Hpath; exact Hlast|].
      change (Point.y lastPoint + cameraOffsetY (gameStateRef (moved (steered w))))
        with (horizon (moved (steered w)) lastPoint).
      apply returns_bind. apply returns_when.
      destruct (horizon _ _ >? _) eqn:Hnear.
      * eapply returns_weaken;
          [apply (extendRoad_Extended rnd (moved (steered w)) lastPoint);
           unfold moved; fields; rewrite Hpath; exact Hlast|].
        cbn beta. intros _ we out [-> Hext].
        step. apply returns_when.
        fold (recentered we). unfold recentered at 2.
        destruct (Car.y (car (gameStateRef we)) <? CANVAS_HEIGHT / 2) eqn:Hlow.
        -- apply returns_modify. split; [reflexivity|].
           exists we. split; [assumption|]. unfold recentered. now rewrite Hlow.
        -- split; [reflexivity|]. exists we. split; [assumption|].
           unfold recentered. now rewrite Hlow.
      * step. apply returns_when.
        destruct (Car.y (car (gameStateRef (moved (steered w)))) <? CANVAS_HEIGHT / 2) eqn:Hlow.
        -- apply returns_modify. split; [reflexivity|].
           exists (moved (steered w)). split; [reflexivity|].
           unfold recentered. now rewrite Hlow.
        -- split; [reflexivity|]. exists (moved (steered w)). split; [reflexivity|].
           unfold recentered. now rewrite Hlow.
    + step. apply returns_modify. split; reflexivity.
  - (* the two boundary checks and the coin loop *)
    cbn beta. intros _ wd out [-> Hdriven].
    step.
    set (thrust := has " " (keysPressed (gameStateRef w))).
    set (offRoad := thrust && negb (onRoad (car (gameStateRef wd)) (roadPath (gameStateRef wd)))).
    set (offScreen := (Car.x (car (gameStateRef wd)) <? 0) ||
                      (Car.x (car (gameStateRef wd)) >? CANVAS_WIDTH)).
    assert (Hcoins' : forall wc, gameStateRef wc = gameStateRef wd ->
              returns (coins' <- forEach (collectCoin_with collide) (coins (gameStateRef wd)) ;;
                       modifyState (with_coins coins')) wc
                (fun _ w' outc => coinLoop collide wc = Ok (tt, w', outc))).
    { intros wc Hwc. rewrite <- Hwc.
      destruct (proj1 (returns_ok _ _ _) (coinLoop_spec collide wc)) as ([] & w' & outc & Heq & _).
      rewrite Heq. rewrite coinLoop_unfold in Heq.
      eapply returns_eq; [exact Heq|reflexivity]. }
    apply returns_bind.
    apply returns_weaken with
      (P := fun _ w1 o1 => w1 = flagged offRoad wd /\
                           o1 = if offRoad then [GameOverOffRoad] else []).
    { apply returns_when. destruct offRoad; [|split; reflexivity].
      step. apply returns_emit. split; reflexivity. }
    cbn beta. intros _ wa o1 [-> ->].
    apply returns_bind.
    apply returns_weaken with
      (P := fun _ w2 o2 => w2 = flagged offScreen (flagged offRoad wd) /\
                           o2 = if offScreen then [GameOverOffScreen] else []).
    { apply returns_when. destruct offScreen; [|split; reflexivity].
      step. apply returns_emit. split; reflexivity. }
    cbn beta. intros _ wb o2 [-> ->].
    apply returns_bind. apply returns_drawRoad.
    { pose proof (Driven_road rnd w wd lastPoint Hlast Hdriven) as Hroad.
      destruct offScreen, offRoad; exact Hroad. }
    eapply returns_weaken;
      [apply Hcoins'; destruct offScreen, offRoad; reflexivity|].
    cbn beta. intros _ w' outc Heq.
    exists wd, outc. split; [assumption|]. split; [assumption|].
    apply app_eq_nil in Hout. destruct Hout as [-> ->].
    unfold boundarySignals. fold offRoad offScreen.
    cbn [app]. now rewrite <- ?app_assoc.
Qed.

End FrameFacts.

(** ** The invariants *)

Lemma Spawned_uncollected (rnd : nat -> R) (n n' : nat) (a : list (R * R)) (cs : list Coin.t) :
  Spawned rnd n a cs n' -> collectedCount cs = 0%Z.
Proof. induction 1; auto. Qed.

Lemma moved_fields (w : World) :
  roadPath (gameStateRef (moved w)) = roadPath (gameStateRef w) /\
  coins (gameStateRef (moved w)) = coins (gameStateRef w) /\
  keysPressed (gameStateRef (moved w)) = keysPressed (gameStateRef w) /\
  cameraOffsetY (gameStateRef (moved w)) = cameraOffsetY (gameStateRef w) /\
  Car.y (car (gameStateRef (moved w))) =
    Car.y (car (gameStateRef w)) + sin (Car.angle (car (gameStateRef w))) * MOVE_SPEED /\
  score (moved w) = score w /\
  actionTriggeredRef (moved w) = actionTriggeredRef w /\
  isPaused (moved w) = isPaused w /\
  isGameOver (moved w) = isGameOver w /\
  screenActionTriggeredRef (moved w) = screenActionTriggeredRef w.
Proof. unfold moved. fields. repeat split; reflexivity. Qed.

Lemma recentered_fields (w : World) :
  roadPath (gameStateRef (recentered w)) = roadPath (gameStateRef w) /\
  coins (gameStateRef (recentered w)) = coins (gameStateRef w) /\
  keysPressed (gameStateRef (recentered w)) = keysPressed (gameStateRef w) /\
  Car.x (car (gameStateRef (recentered w))) = Car.x (car (gameStateRef w)) /\
  score (recentered w) = score w /\
  actionTriggeredRef (recentered w) = actionTriggeredRef w /\
  isPaused (recentered w) = isPaused w /\
  isGameOver (recentered w) = isGameOver w /\
  screenActionTriggeredRef (recentered w) = screenActionTriggeredRef w /\
  CANVAS_HEIGHT / 2 <= Car.y (car (gameStateRef (recentered w))) /\
  (CANVAS_HEIGHT / 2 - MOVE_SPEED <= Car.y (car (gameStateRef w)) ->
   cameraOffsetY (gameStateRef (recentered w)) <= cameraOffsetY (gameStateRef w) + MOVE_SPEED).
Proof.
  unfold recentered.
  destruct (_ <? _) eqn:Hlow; fields; repeat split; try reflexivity;
    try (intros; unfold MOVE_SPEED in *; lra).
  apply ltb_false in Hlow. exact Hlow.
Qed.

Lemma stopped_fields (w : World) :
  roadPath (gameStateRef (stopped w)) = roadPath (gameStateRef w) /\
  coins (gameStateRef (stopped w)) = coins (gameStateRef w) /\
  keysPressed (gameStateRef (stopped w)) = keysPressed (gameStateRef w) /\
  cameraOffsetY (gameStateRef (stopped w)) = cameraOffsetY (gameStateRef w) /\
  Car.x (car (gameStateRef (stopped w))) = Car.x (car (gameStateRef w)) /\
  Car.y (car (gameStateRef (stopped w))) = Car.y (car (gameStateRef w)) /\
  score (stopped w) = score w /\
  actionTriggeredRef (stopped w) = actionTriggeredRef w /\
  isPaused (stopped w) = isPaused w /\
  isGameOver (stopped w) = isGameOver w /\
  screenActionTriggeredRef (stopped w) = screenActionTriggeredRef w.
Proof. unfold stopped. fields. repeat split; reflexivity. Qed.

(** Calling [extendRoad] when the horizon is within the threshold puts it
    beyond the threshold again, in every world that satisfies the invariants
    up to the position of the car. *)
Lemma Extended_horizon (rnd : nat -> R) (w0 w w' : World) (lastPoint : Point.t) :
  Steady w0 ->
  roadPath (gameStateRef w) = roadPath (gameStateRef w0) ->
  cameraOffsetY (gameStateRef w) = cameraOffsetY (gameStateRef w0) ->
  lastElement (roadPath (gameStateRef w)) = Some lastPoint ->
  Extended rnd lastPoint w w' ->
  (21 <= length (roadPath (gameStateRef w')))%nat /\
  Forall inBounds (roadPath (gameStateRef w')) /\
  collectedCount (coins (gameStateRef w')) = collectedCount (coins (gameStateRef w)) /\
  exists q, lastElement (roadPath (gameStateRef w')) = Some q /\
            horizon w' q <= - ROAD_EXTEND_THRESHOLD - 5 * SEGMENT_WIDTH + MOVE_SPEED.
Proof.
  intros [Hlen Hb (q & Hq & Hh) _ _ _] Hpath Hcam Hlast
         (Hsame & pts & cs & q' & Hpath' & Hcoins' & Hn & Hin & _ & Hq' & Hy' & Hsp).
  rewrite Hpath, Hq in Hlast. injection Hlast as ->.
  split; [rewrite Hpath', length_app, Hpath; lia|].
  split; [rewrite Hpath', Hpath; apply Forall_app; now split|].
  split.
  - rewrite Hcoins', collectedCount_app, (Spawned_uncollected _ _ _ _ _ Hsp). lia.
  - exists q'. split; [assumption|].
    unfold horizon in *. rewrite (same_cameraOffsetY _ _ Hsame), Hcam, Hy'. lra.
Qed.

Lemma Driven_Steady (rnd : nat -> R) (w wd : World) (lastPoint : Point.t) :
  Steady w ->
  lastElement (roadPath (gameStateRef w)) = Some lastPoint ->
  Driven rnd w lastPoint wd ->
  Steady wd /\
  score wd = score w /\
  isPaused wd = isPaused w /\
  isGameOver wd = isGameOver w /\
  screenActionTriggeredRef wd = screenActionTriggeredRef w.
Proof.
  intros Hsteady Hlast Hd.
  pose proof Hsteady as [Hlen Hb (q & Hq & Hh) Hcar Hsc Hl].
  rewrite Hlast in Hq. injection Hq as <-.
  destruct (steered_unchanged w) as (Hkeys & Hpath & Hcoins & Hcam & Hx & Hy & Hsc' & Hl' & Hpa & Hov & Hscr & Hrc).
  unfold Driven in Hd. destruct (has " " _).
  - destruct Hd as (we & Hext & ->).
    destruct (moved_fields (steered w)) as (Mpath & Mcoins & Mkeys & Mcam & My & Msc & Ml & Mpa & Mov & Mscr).
    assert (Hwe :
      (16 <= length (roadPath (gameStateRef we)))%nat /\
      Forall inBounds (roadPath (gameStateRef we)) /\
      collectedCount (coins (gameStateRef we)) = collectedCount (coins (gameStateRef w)) /\
      (exists q, lastElement (roadPath (gameStateRef we)) = Some q /\
                 horizon we q <= - ROAD_EXTEND_THRESHOLD) /\
      car (gameStateRef we) = car (gameStateRef (moved (steered w))) /\
      score we = score w /\ actionTriggeredRef we = actionTriggeredRef w /\
      isPaused we = isPaused w /\ isGameOver we = isGameOver w /\
      screenActionTriggeredRef we = screenActionTriggeredRef w).
    { destruct (horizon _ _ >? _) eqn:Hnear.
      - destruct (Extended_horizon rnd w (moved (steered w)) we lastPoint Hsteady)
          as (L & B & C & q' & Hq' & Hh'); try assumption; try congruence.
        destruct Hext as [[] _].
        split; [lia|]. split; [assumption|]. split; [congruence|].
        split; [exists q'; split; [assumption|]; unfold SEGMENT_WIDTH, MOVE_SPEED in *; lra|].
        repeat split; congruence.
      - subst we. apply gtb_false in Hnear.
        split; [congruence|]. split; [congruence|]. split; [congruence|].
        split; [exists lastPoint; split; [congruence|assumption]|].
        repeat split; congruence. }
    destruct Hwe as (L & B & C & (q' & Hq' & Hh') & Hc & S1 & S2 & S3 & S4 & S5).
    destruct (recentered_fields we) as (Rpath & Rcoins & Rkeys & Rx & Rsc & Rl & Rpa & Rov & Rscr & Ry & Rcam).
    assert (Hfloor : CANVAS_HEIGHT / 2 - MOVE_SPEED <= Car.y (car (gameStateRef we))).
    { rewrite Hc, My, Hy. pose proof (SIN_bound (Car.angle (car (gameStateRef (steered w))))).
      unfold MOVE_SPEED in *. nra. }
    specialize (Rcam Hfloor).
    split; [|repeat split; congruence].
    constructor; try congruence.
    exists q'. split; [congruence|]. unfold horizon in *. lra.
  - subst wd.
    destruct (stopped_fields (steered w)) as (Tpath & Tcoins & Tkeys & Tcam & Tx & Ty & Tsc & Tl & Tpa & Tov & Tscr).
    split; [|repeat split; congruence].
    constructor; try congruence.
    exists lastPoint. split; [congruence|]. unfold horizon in *. rewrite Tcam, Hcam. exact Hh.
Qed.

Lemma flagged_fields (b : bool) (w : World) :
  gameStateRef (flagged b w) = gameStateRef w /\
  score (flagged b w) = score w /\
  actionTriggeredRef (flagged b w) = actionTriggeredRef w /\
  isPaused (flagged b w) = isPaused w /\
  screenActionTriggeredRef (flagged b w) = screenActionTriggeredRef w /\
  isGameOver (flagged b w) = isGameOver w || b.
Proof.
  destruct b; cbn; repeat split; try reflexivity.
  - now rewrite orb_true_r.
  - now rewrite orb_false_r.
Qed.

Lemma Steady_same_game (w w' : World) :
  gameStateRef w' = gameStateRef w -> score w' = score w ->
  actionTriggeredRef w' = actionTriggeredRef w ->
  Steady w -> Steady w'.
Proof.
  intros Hs Hsc Hl [Hlen Hb (q & Hq & Hh) Hcar Hscore Hlatch].
  constructor; rewrite ?Hs, ?Hsc, ?Hl; auto.
  exists q. unfold horizon in *. rewrite Hs. auto.
Qed.

Lemma boundarySignals_quiet (onRoad : Car.t -> list Point.t -> bool) (thrust : bool) (s : GameState) :
  occurrences ThresholdReached (boundarySignals onRoad thrust s) = 0%nat /\
  occurrences ProcessActionFlow (boundarySignals onRoad thrust s) = 0%nat.
Proof.
  unfold boundarySignals.
  destruct (thrust && _), (_ || _); cbn; auto.
Qed.

Section InvariantFacts.

Variable rnd : nat -> R.
Variable onRoad : Car.t -> list Point.t -> bool.
Variable collide : Car.t -> R -> R -> bool.

Lemma gameLoop_halted (w : World) :
  isPaused w || isGameOver w = true ->
  gameLoop_with rnd onRoad collide w = Ok (tt, w, []).
Proof.
  intros H. unfold gameLoop_with. unfold bind at 1. unfold get. now rewrite H.
Qed.

(** What a frame keeps and what it signals. *)
Lemma gameLoop_Steady (w : World) :
  Steady w ->
  returns (gameLoop_with rnd onRoad collide) w (fun _ w' out =>
    Steady w' /\
    (score w <= score w')%Z /\
    screenActionTriggeredRef w' = screenActionTriggeredRef w /\
    isPaused w' = isPaused w /\
    (isGameOver w = true -> isGameOver w' = true) /\
    occurrences ThresholdReached out = crossing (score w) (score w') /\
    occurrences ProcessActionFlow out = 0%nat).
Proof.
  intros Hsteady.
  destruct (isPaused w || isGameOver w) eqn:Hhalt.
  { eapply returns_eq; [apply gameLoop_halted; exact Hhalt|].
    rewrite crossing_same. split; [assumption|]. repeat split; auto; lia. }
  apply orb_false_elim in Hhalt. destruct Hhalt as [Hp Ho].
  destruct (steady_horizon _ Hsteady) as (lastPoint & Hlast & _).
  eapply returns_weaken; [apply (gameLoop_running rnd onRoad collide w lastPoint Hp Ho Hlast)|].
  cbn beta zeta. intros _ w' out (wd & outc & Hd & Hloop & ->).
  destruct (Driven_Steady rnd w wd lastPoint Hsteady Hlast Hd) as (Hwd & Dsc & Dpa & Dov & Dscr).
  match type of Hloop with coinLoop _ ?x = _ => set (wc := x) in * end.
  assert (Hwc : gameStateRef wc = gameStateRef wd /\ score wc = score wd /\
                actionTriggeredRef wc = actionTriggeredRef wd /\
                isPaused wc = isPaused wd /\
                screenActionTriggeredRef wc = screenActionTriggeredRef wd).
  { unfold wc.
    match goal with |- context [flagged ?b2 (flagged ?b1 wd)] =>
      destruct (flagged_fields b2 (flagged b1 wd)) as (F1 & F2 & F3 & F4 & F5 & _);
      destruct (flagged_fields b1 wd) as (G1 & G2 & G3 & G4 & G5 & _)
    end.
    repeat split; congruence. }
  destruct Hwc as (Ws & Wsc & Wl & Wpa & Wscr).
  assert (Hsteadyc : Steady wc) by (apply (Steady_same_game wd); assumption).
  pose proof (coinLoop_spec collide wc) as Hspec.
  unfold returns in Hspec. rewrite Hloop in Hspec.
  destruct Hspec as (Hstep & (cs' & Hstate) & Hvisit & Hscore).
  destruct Hstep.
  destruct (step_latch0 (steady_latch _ Hsteadyc)) as [Hlatch' Hcross].
  destruct (boundarySignals_quiet onRoad (has " " (keysPressed (gameStateRef w))) (gameStateRef wd))
    as [Q1 Q2].
  destruct step_quiet0 as (_ & _ & Q3).
  split; [|repeat split].
  - destruct Hsteadyc as [Hlen Hb (q & Hq & Hh) Hcar Hsc Hl].
    constructor; rewrite ?Hstate; fields; auto.
    + exists q. unfold horizon in *. rewrite Hstate. fields. auto.
    + rewrite Hstate in Hscore. fields. cbn [coins with_coins] in Hscore. lia.
  - lia.
  - congruence.
  - congruence.
  - intros Hover. apply step_over0. unfold wc.
    match goal with |- context [flagged ?b2 (flagged ?b1 wd)] =>
      destruct (flagged_fields b2 (flagged b1 wd)) as (_ & _ & _ & _ & _ & F6);
      destruct (flagged_fields b1 wd) as (_ & _ & _ & _ & _ & G6)
    end.
    rewrite F6, G6, Dov, Hover. reflexivity.
  - rewrite occurrences_app, Q1, Hcross. cbn. congruence.
  - rewrite occurrences_app, Q2, Q3. reflexivity.
Qed.

End InvariantFacts.

Lemma returns_listen {A : Type} (m : M A) (w : World)
      (Q : list Signal -> World -> list Signal -> Prop) :
  returns m w (fun _ w' out => Q out w' out) -> returns (listen m) w Q.
Proof.
  unfold returns, listen. destruct (m w) as [[[a w'] out]|]; easy.
Qed.

Lemma crossing_cases (a b : Z) :
  (a <= b)%Z ->
  (crossing a b = 0%nat /\
   (a >=? ACTION_SCORE_THRESHOLD)%Z = (b >=? ACTION_SCORE_THRESHOLD)%Z) \/
  (crossing a b = 1%nat /\
   (a >=? ACTION_SCORE_THRESHOLD)%Z = false /\ (b >=? ACTION_SCORE_THRESHOLD)%Z = true).
Proof.
  intros Hab. unfold crossing, ACTION_SCORE_THRESHOLD. rewrite !Z.geb_leb.
  destruct (a <? 300)%Z eqn:Ha, (300 <=? a)%Z eqn:Ha', (300 <=? b)%Z eqn:Hb; cbn; auto; lia.
Qed.

Lemma Steady_same_road (w w' : World) :
  roadPath (gameStateRef w') = roadPath (gameStateRef w) ->
  cameraOffsetY (gameStateRef w') = cameraOffsetY (gameStateRef w) ->
  car (gameStateRef w') = car (gameStateRef w) ->
  coins (gameStateRef w') = coins (gameStateRef w) ->
  score w' = score w ->
  actionTriggeredRef w' = actionTriggeredRef w ->
  Steady w -> Steady w'.
Proof.
  intros Hpath Hcam Hcar Hcoins Hsc Hl [Hlen Hb (q & Hq & Hh) Hy Hscore Hlatch].
  constructor; rewrite ?Hpath, ?Hcar, ?Hcoins, ?Hsc, ?Hl; auto.
  exists q. unfold horizon in *. rewrite ?Hpath, ?Hcam. auto.
Qed.

Lemma Sound_same_road (w w' : World) :
  roadPath (gameStateRef w') = roadPath (gameStateRef w) ->
  cameraOffsetY (gameStateRef w') = cameraOffsetY (gameStateRef w) ->
  car (gameStateRef w') = car (gameStateRef w) ->
  coins (gameStateRef w') = coins (gameStateRef w) ->
  score w' = score w ->
  actionTriggeredRef w' = actionTriggeredRef w ->
  screenActionTriggeredRef w' = screenActionTriggeredRef w ->
  Sound w ->
  Sound w' /\
  (score w <= score w')%Z /\
  occurrences ThresholdReached [] = crossing (score w) (score w') /\
  occurrences ProcessActionFlow [] = crossing (score w) (score w').
Proof.
  intros Hpath Hcam Hcar Hcoins Hsc Hl Hscr [Hsteady Hscreen].
  rewrite Hsc, crossing_same.
  split; [split; [apply (Steady_same_road w); assumption|congruence]|].
  repeat split; auto; lia.
Qed.

Section SessionFacts.

Variable rnd : nat -> R.

Lemma animationFrame_Sound (w : World) :
  Sound w ->
  returns (animationFrame rnd) w (fun _ w' out =>
    Sound w' /\
    (score w <= score w')%Z /\
    isPaused w' = isPaused w /\
    (isGameOver w = true -> isGameOver w' = true) /\
    occurrences ThresholdReached out = crossing (score w) (score w') /\
    occurrences ProcessActionFlow out = crossing (score w) (score w')).
Proof.
  intros [Hsteady Hscreen]. unfold animationFrame.
  apply returns_bind. apply returns_listen.
  eapply returns_weaken; [apply (gameLoop_Steady rnd isCarOnRoad checkCollision w Hsteady)|].
  cbn beta. intros _ w1 out (Hsteady1 & Hmono & Hscr & Hpa & Hov & Hocc & Hquiet).
  rewrite Hocc.
  pose proof (steady_latch _ Hsteady) as Hl.
  pose proof (steady_latch _ Hsteady1) as Hl1.
  apply returns_bind.
  destruct (crossing_cases _ _ Hmono) as [[Hc Hsame] | [Hc [Hbelow Hreached]]]; rewrite Hc.
  - cbn [forLoop]. apply returns_ret. apply returns_ret.
    rewrite !app_nil_r. rewrite Hquiet, Hocc, Hc.
    split; [split; [assumption|congruence]|]. repeat split; auto.
  - cbn [forLoop]. apply returns_bind.
    unfold handleScoreThresholdReached.
    apply returns_bind. apply returns_get. cbn beta.
    replace (screenActionTriggeredRef w1) with false by congruence.
    step. apply returns_emit. apply returns_ret. apply returns_ret.
    fields. rewrite !occurrences_app, Hocc, Hquiet, Hc.
    split; [split|].
    + apply (Steady_same_road w1); auto.
    + fields. congruence.
    + repeat split; auto.
Qed.

(** What an event other than the reset button keeps and signals. *)
Lemma dispatch_Sound (i : Input) (w : World) :
  Sound w ->
  returns (dispatch rnd i) w (fun _ w' out =>
    Sound w' /\
    (score w <= score w')%Z /\
    occurrences ThresholdReached out = crossing (score w) (score w') /\
    occurrences ProcessActionFlow out = crossing (score w) (score w')).
Proof.
  intros Hsound. destruct i as [key | key | | ]; cbn [dispatch].
  - unfold handleKeyDown. apply returns_when.
    destruct (existsb _ _).
    + apply returns_modify. apply Sound_same_road; auto.
    + apply Sound_same_road; auto.
  - unfold handleKeyUp. apply returns_modify. apply Sound_same_road; auto.
  - eapply returns_weaken; [apply (animationFrame_Sound w Hsound)|].
    cbn beta. intros _ w' out (H1 & H2 & _ & _ & H3 & H4). auto.
  - unfold handlePauseToggle. apply returns_bind. apply returns_get. cbn beta.
    apply returns_when.
    destruct (negb _).
    + apply returns_modify. apply Sound_same_road; auto.
    + apply Sound_same_road; auto.
Qed.

Lemma play_Sound (inputs : list Input) (w : World) :
  Sound w ->
  returns (play rnd inputs) w (fun _ w' out =>
    Sound w' /\
    (score w <= score w')%Z /\
    occurrences ThresholdReached out = crossing (score w) (score w') /\
    occurrences ProcessActionFlow out = crossing (score w) (score w')).
Proof.
  revert w. induction inputs as [|i rest IH]; intros w Hsound; cbn [play].
  - apply returns_ret. rewrite crossing_same.
    split; [assumption|]. repeat split; auto; lia.
  - apply returns_bind.
    eapply returns_weaken; [apply (dispatch_Sound i w Hsound)|].
    cbn beta. intros _ w1 out1 (Hsound1 & Hmono1 & HT1 & HP1).
    eapply returns_weaken; [apply (IH w1 Hsound1)|].
    cbn beta. intros _ w2 out2 (Hsound2 & Hmono2 & HT2 & HP2).
    rewrite !occurrences_app, HT1, HT2, HP1, HP2, crossing_add by assumption.
    split; [assumption|]. repeat split; auto; lia.
Qed.

(** Road and coins after the initialisers, from a world with the fresh game
    state. *)
Lemma initialize_spec (w : World) :
  car (gameStateRef w) = car freshGameState ->
  cameraOffsetY (gameStateRef w) = 0 ->
  returns (initializeRoad rnd ;; initializeCoins rnd) w (fun _ w' out =>
    out = [] /\ Untouched w w' /\
    length (roadPath (gameStateRef w')) = 16%nat /\
    Forall inBounds (roadPath (gameStateRef w')) /\
    (exists q, lastElement (roadPath (gameStateRef w')) = Some q /\
               Point.y q = CANVAS_HEIGHT - 15 * SEGMENT_WIDTH) /\
    exists n n',
      Spawned rnd n (map midPoint (tl (segments (roadPath (gameStateRef w')))))
              (coins (gameStateRef w')) n').
Proof.
  intros Hcar Hcam. apply returns_bind.
  eapply returns_weaken; [apply (initializeRoad_spec rnd w)|].
  cbn beta. intros _ w1 out1 (-> & Hsame1 & Hcoins1 & Hrc1 & Hlen1 & Hb1 & q & Hq & Hqy).
  eapply returns_weaken; [apply (initializeCoins_spec rnd w1)|].
  cbn beta. intros _ w2 out2 (-> & Hsame2 & Hpath2 & Hsp).
  split; [reflexivity|]. split; [eapply Untouched_trans; eauto|].
  rewrite Hpath2. repeat split; auto.
  - exists q. auto.
  - eauto.
Qed.

Lemma initialized_Sound (w w' : World) :
  car (gameStateRef w) = car freshGameState ->
  cameraOffsetY (gameStateRef w) = 0 ->
  score w = 0%Z -> actionTriggeredRef w = false -> screenActionTriggeredRef w = false ->
  Untouched w w' ->
  length (roadPath (gameStateRef w')) = 16%nat ->
  Forall inBounds (roadPath (gameStateRef w')) ->
  (exists q, lastElement (roadPath (gameStateRef w')) = Some q /\
             Point.y q = CANVAS_HEIGHT - 15 * SEGMENT_WIDTH) ->
  (exists n n',
      Spawned rnd n (map midPoint (tl (segments (roadPath (gameStateRef w')))))
              (coins (gameStateRef w')) n') ->
  Sound w'.
Proof.
  intros Hcar Hcam Hsc Hl Hscr [] Hlen Hb (q & Hq & Hqy) (n & n' & Hsp).
  split; [|congruence].
  constructor; auto.
  - lia.
  - exists q. split; [assumption|]. unfold horizon.
    rewrite Hqy, same_cameraOffsetY0, Hcam.
    unfold CANVAS_HEIGHT, SEGMENT_WIDTH, ROAD_EXTEND_THRESHOLD, MOVE_SPEED. lra.
  - rewrite same_car0, Hcar. unfold freshGameState, CANVAS_HEIGHT. cbn. lra.
  - rewrite (Spawned_uncollected _ _ _ _ _ Hsp). lia.
  - rewrite same_actionTriggeredRef0, Hl, same_score0, Hsc. reflexivity.
Qed.

Lemma handleReset_Sound (w : World) :
  returns (handleReset rnd) w (fun _ w' out =>
    Sound w' /\ score w' = 0%Z /\ out = [] /\
    isPaused w' = false /\ isGameOver w' = false).
Proof.
  unfold handleReset, resetGame. do 7 step.
  eapply returns_weaken; [apply initialize_spec; reflexivity|].
  cbn beta. intros _ w' out (-> & Hsame & Hlen & Hb & Hq & Hsp).
  split; [eapply initialized_Sound; eauto; reflexivity|].
  destruct Hsame. repeat split; auto.
Qed.

Lemma mount_Sound :
  returns (mount rnd) initialWorld (fun _ w' out =>
    Sound w' /\ score w' = 0%Z /\ out = [] /\
    isPaused w' = false /\ isGameOver w' = false).
Proof.
  unfold mount.
  eapply returns_weaken; [apply initialize_spec; reflexivity|].
  cbn beta. intros _ w' out (-> & Hsame & Hlen & Hb & Hq & Hsp).
  split; [eapply initialized_Sound; eauto; reflexivity|].
  destruct Hsame. repeat split; auto.
Qed.

Lemma session_Sound (events : list Event) (w : World) :
  Sound w -> returns (session rnd events) w (fun _ w' _ => Sound w').
Proof.
  revert w. induction events as [|e rest IH]; intros w Hsound; cbn [session].
  - apply returns_ret. assumption.
  - apply returns_bind. destruct e as [i|]; cbn [handle].
    + eapply returns_weaken; [apply (dispatch_Sound i w Hsound)|].
      cbn beta. intros _ w1 out1 (Hsound1 & _). apply IH. assumption.
    + eapply returns_weaken; [apply (handleReset_Sound w)|].
      cbn beta. intros _ w1 out1 (Hsound1 & _). apply IH. assumption.
Qed.

(** Every world a mounted screen can reach satisfies the invariants, and no
    sequence of events stops with a [TypeError]. *)
Lemma reached_Sound (events : list Event) :
  exists w out, reached rnd events = Ok (tt, w, out) /\ Sound w.
Proof.
  assert (H : returns (mount rnd ;; session rnd events) initialWorld (fun _ w _ => Sound w)).
  { apply returns_bind.
    eapply returns_weaken; [apply mount_Sound|].
    cbn beta. intros _ w1 out1 (Hsound1 & _). apply session_Sound. assumption. }
  apply returns_ok in H. destruct H as ([] & w & out & Heq & Hsound).
  exists w, out. split; assumption.
Qed.

End SessionFacts.

(** ** The road *)

Section RoadTheorems.

Variable rnd : nat -> R.

Lemma extendRoadTimes_spec (n : nat) (w : World) :
  roadPath (gameStateRef w) <> [] ->
  Forall inBounds (roadPath (gameStateRef w)) ->
  returns (extendRoadTimes rnd n) w (fun _ w' out =>
    out = [] /\
    roadPath (gameStateRef w') <> [] /\
    Forall inBounds (roadPath (gameStateRef w')) /\
    length (roadPath (gameStateRef w')) = (length (roadPath (gameStateRef w)) + 5 * n)%nat).
Proof.
  intros Hne Hb. unfold extendRoadTimes. apply returns_bind.
  pose (Inv := fun (j : nat) (_ : unit) (w' : World) (out : list Signal) =>
    out = [] /\
    roadPath (gameStateRef w') <> [] /\
    Forall inBounds (roadPath (gameStateRef w')) /\
    length (roadPath (gameStateRef w')) = (length (roadPath (gameStateRef w)) + 5 * j)%nat).
  eapply returns_weaken.
  - apply (forLoop_invariant Inv _ n 0 tt w []).
    + unfold Inv. repeat split; auto.
    + intros j [] w1 out _ (-> & Hne1 & Hb1 & Hlen1).
      destruct (lastElement_nonempty _ Hne1) as [p Hp].
      eapply returns_weaken; [apply (extendRoad_Extended rnd w1 p Hp)|].
      cbn beta. intros [] w2 o (-> & _ & pts & cs & q & Hpath & _ & Hn & Hin & _).
      unfold Inv. rewrite Hpath. repeat split.
      * destruct (roadPath (gameStateRef w1)); [easy|discriminate].
      * apply Forall_app. now split.
      * rewrite length_app. lia.
  - cbn beta. intros [] w' out (Hout & Hne' & Hb' & Hlen').
    cbn [app Nat.add] in *. subst out. apply returns_ret. auto.
Qed.

(** C5.  Whatever the random draws, the path built by [initializeRoad] and
    any number [n] of calls of [extendRoad] has 16 + 5 n points, each with
    its x within [ROAD_WIDTH / 2, CANVAS_WIDTH - ROAD_WIDTH / 2], that is
    within [200, 600]; so has the path of every world that a mounted screen
    can reach. *)
Theorem road_stays_on_canvas :
  (forall (w : World) (n : nat),
     exists w',
       (initializeRoad rnd ;; extendRoadTimes rnd n) w = Ok (tt, w', []) /\
       length (roadPath (gameStateRef w')) = (16 + 5 * n)%nat /\
       Forall (fun p => 200 <= Point.x p <= 600) (roadPath (gameStateRef w'))) /\
  (forall events : list Event,
     exists w out,
       reached rnd events = Ok (tt, w, out) /\
       Forall (fun p => 200 <= Point.x p <= 600) (roadPath (gameStateRef w))) /\
  ROAD_WIDTH / 2 = 200 /\ CANVAS_WIDTH - ROAD_WIDTH / 2 = 600.
Proof.
  assert (Hnum : forall l, Forall inBounds l -> Forall (fun p => 200 <= Point.x p <= 600) l).
  { intros l. apply Forall_impl. intros p. unfold inBounds, ROAD_WIDTH, CANVAS_WIDTH. lra. }
  split; [|split; [|unfold ROAD_WIDTH, CANVAS_WIDTH; lra]].
  - intros w n.
    assert (H : returns (initializeRoad rnd ;; extendRoadTimes rnd n) w (fun _ w' out =>
                  out = [] /\
                  length (roadPath (gameStateRef w')) = (16 + 5 * n)%nat /\
                  Forall inBounds (roadPath (gameStateRef w')))).
    { apply returns_bind.
      eapply returns_weaken; [apply (initializeRoad_spec rnd w)|].
      cbn beta. intros _ w1 out1 (-> & _ & _ & _ & Hlen & Hb & _).
      eapply returns_weaken; [apply (extendRoadTimes_spec n w1)|].
      - destruct (roadPath (gameStateRef w1)); [discriminate|easy].
      - assumption.
      - cbn beta. intros _ w2 out2 (-> & _ & Hb2 & Hlen2).
        repeat split; auto. lia. }
    apply returns_ok in H. destruct H as ([] & w' & out & Heq & -> & Hlen & Hb).
    exists w'. auto.
  - intros events. destruct (reached_Sound rnd events) as (w & out & Heq & [Hsteady _]).
    exists w, out. split; [assumption|]. apply Hnum, Hsteady.
Qed.

(** C9.  [extendRoad] reads the last path point without a guard: on an
    empty path it stops with a [TypeError].  [initializeRoad] always leaves
    16 points; after it, any number of calls of [extendRoad] and one more
    all return; and in every world that a mounted screen can reach (no
    sequence of events stops with a [TypeError]) [extendRoad] returns. *)
Theorem extendRoad_total_after_initializeRoad :
  (forall w : World,
     roadPath (gameStateRef w) = [] -> extendRoad rnd w = TypeError) /\
  (forall w : World,
     exists w', initializeRoad rnd w = Ok (tt, w', []) /\
                length (roadPath (gameStateRef w')) = 16%nat) /\
  (forall (w : World) (n : nat),
     exists w' w'',
       (initializeRoad rnd ;; extendRoadTimes rnd n) w = Ok (tt, w', []) /\
       extendRoad rnd w' = Ok (tt, w'', [])) /\
  (forall events : list Event,
     exists w out w',
       reached rnd events = Ok (tt, w, out) /\
       extendRoad rnd w = Ok (tt, w', [])).
Proof.
  split; [|split; [|split]].
  - intros w Hempty. unfold extendRoad. unfold bind at 1. unfold getState.
    unfold bind at 1. rewrite Hempty. reflexivity.
  - intros w. pose proof (initializeRoad_spec rnd w) as H.
    apply returns_ok in H. destruct H as ([] & w' & out & Heq & -> & _ & _ & _ & Hlen & _).
    exists w'. auto.
  - intros w n.
    assert (H : returns (initializeRoad rnd ;; extendRoadTimes rnd n) w (fun _ w' out =>
                  out = [] /\ roadPath (gameStateRef w') <> [])).
    { apply returns_bind.
      eapply returns_weaken; [apply (initializeRoad_spec rnd w)|].
      cbn beta. intros _ w1 out1 (-> & _ & _ & _ & Hlen & Hb & _).
      eapply returns_weaken; [apply (extendRoadTimes_spec n w1)|].
      - destruct (roadPath (gameStateRef w1)); [discriminate|easy].
      - assumption.
      - cbn beta. intros _ w2 out2 (-> & Hne & _). auto. }
    apply returns_ok in H. destruct H as ([] & w' & out & Heq & -> & Hne).
    destruct (lastElement_nonempty _ Hne) as [p Hp].
    pose proof (extendRoad_Extended rnd w' p Hp) as H.
    apply returns_ok in H. destruct H as ([] & w'' & out & Heq' & -> & _).
    exists w', w''. auto.
  - intros events. destruct (reached_Sound rnd events) as (w & out & Heq & [Hsteady _]).
    destruct (steady_horizon _ Hsteady) as (p & Hp & _).
    pose proof (extendRoad_Extended rnd w p Hp) as H.
    apply returns_ok in H. destruct H as ([] & w' & out' & Heq' & -> & _).
    exists w, out, w'. auto.
Qed.

(** C7.  In every world [w] that a mounted screen can reach, a frame with
    thrust calls [extendRoad] in the world [moved (steered w)], when the
    screen y of the last path point is above -ROAD_EXTEND_THRESHOLD there.
    Then [extendRoad] returns, the screen y of the new last point is at most
    -ROAD_EXTEND_THRESHOLD again (it is 300 further up), and the path has at
    least 2 points.  On any non-empty path [extendRoad] returns a path of at
    least 2 points. *)
Theorem extendRoad_restores_horizon :
  (forall events : list Event,
     exists w out lastPoint,
       reached rnd events = Ok (tt, w, out) /\
       lastElement (roadPath (gameStateRef w)) = Some lastPoint /\
       (horizon (moved (steered w)) lastPoint > - ROAD_EXTEND_THRESHOLD ->
        exists w' lastPoint',
          extendRoad rnd (moved (steered w)) = Ok (tt, w', []) /\
          lastElement (roadPath (gameStateRef w')) = Some lastPoint' /\
          horizon w' lastPoint' <= - ROAD_EXTEND_THRESHOLD /\
          (2 <= length (roadPath (gameStateRef w')))%nat)) /\
  (forall (w : World) (lastPoint : Point.t),
     lastElement (roadPath (gameStateRef w)) = Some lastPoint ->
     exists w',
       extendRoad rnd w = Ok (tt, w', []) /\
       (2 <= length (roadPath (gameStateRef w')))%nat).
Proof.
  split.
  - intros events. destruct (reached_Sound rnd events) as (w & out & Heq & [Hsteady _]).
    destruct (steady_horizon _ Hsteady) as (p & Hp & Hh).
    exists w, out, p. split; [assumption|]. split; [assumption|]. intros Hnear.
    destruct (steered_unchanged w) as (_ & Hpath & _ & Hcam & _).
    destruct (moved_fields (steered w)) as (Mpath & _ & _ & Mcam & _).
    assert (Hp' : lastElement (roadPath (gameStateRef (moved (steered w)))) = Some p)
      by (rewrite Mpath, Hpath; exact Hp).
    pose proof (extendRoad_Extended rnd _ p Hp') as H.
    apply returns_ok in H. destruct H as ([] & w' & out' & Heq' & -> & Hext).
    destruct (Extended_horizon rnd w (moved (steered w)) w' p Hsteady)
      as (L & _ & _ & q & Hq & Hhq);
      try assumption; try congruence.
    exists w', q. repeat split; auto; try lia.
    unfold SEGMENT_WIDTH, MOVE_SPEED in Hhq. lra.
  - intros w p Hp.
    pose proof (extendRoad_Extended rnd w p Hp) as H.
    apply returns_ok in H.
    destruct H as ([] & w' & out' & Heq' & -> & _ & pts & cs & q & Hpath & _ & Hn & _).
    exists w'. split; [assumption|]. rewrite Hpath, length_app. lia.
Qed.

End RoadTheorems.

(** ** Score and milestone *)

Section ScoreTheorems.

Variable rnd : nat -> R.

Lemma play_app (before after : list Input) (w w1 w2 : World) (out1 out2 : list Signal) :
  play rnd before w = Ok (tt, w1, out1) ->
  play rnd after w1 = Ok (tt, w2, out2) ->
  play rnd (before ++ after) w = Ok (tt, w2, out1 ++ out2).
Proof.
  revert w out1. induction before as [|i rest IH]; intros w out1 H1 H2.
  - cbn in H1. injection H1 as <- <-. exact H2.
  - cbn [app play] in *. unfold bind in *.
    destruct (dispatch rnd i w) as [[[u wi] oi]|]; [|discriminate].
    destruct (play rnd rest wi) as [[[u' wr] o]|] eqn:Hrest; [|discriminate].
    injection H1 as <- <-. destruct u'.
    rewrite (IH wi o Hrest H2). subst out1. now rewrite app_assoc.
Qed.

Lemma started_FiresOnce (start : M unit) (w0 : World) (before after : list Input) :
  returns start w0 (fun _ w' out => Sound w' /\ score w' = 0%Z /\ out = []) ->
  FiresOnce rnd start w0 before after.
Proof.
  intros Hstart. apply returns_ok in Hstart.
  destruct Hstart as ([] & ws & o & Hs & Hsound & Hzero & ->).
  pose proof (play_Sound rnd before ws Hsound) as H1. apply returns_ok in H1.
  destruct H1 as ([] & w1 & out1 & Hp1 & Hsound1 & Hmono1 & HT1 & HP1).
  pose proof (play_Sound rnd after w1 Hsound1) as H2. apply returns_ok in H2.
  destruct H2 as ([] & w2 & out2 & Hp2 & Hsound2 & Hmono2 & HT2 & HP2).
  exists w1, out1, w2, out2.
  split; [unfold bind; now rewrite Hs, Hp1|].
  split; [assumption|].
  split; [unfold bind; now rewrite Hs, (play_app _ _ _ _ _ _ _ Hp1 Hp2)|].
  rewrite Hzero in HT1, HP1.
  repeat split; auto. apply (steady_latch _ (proj1 Hsound2)).
Qed.

(** C1.  Take any game, started by the reset button in any world or by
    mounting the screen, and cut the inputs of the game anywhere into
    [before] and [after].  The game never stops with a [TypeError], and the
    callback [onScoreThresholdReached] is called exactly once during [after]
    if the score goes from below 300 to 300 or more during [after], and not
    at all otherwise (so over the whole game it is called once, in the
    frame in which the score first reaches 300, however many coins that
    frame or later frames collect); the same holds for the guard of the
    handler in [GameScreen].  The same is true of the inputs that follow any
    state of a game in which the invariants of the hook hold, as they do in
    every state that a game reaches: the callback is called once if these
    inputs take the score from below 300 to 300 or more, and not at all
    otherwise. *)
Theorem milestone_fires_once (before after : list Input) :
  (forall w0 : World, FiresOnce rnd (handleReset rnd) w0 before after) /\
  FiresOnce rnd (mount rnd) initialWorld before after /\
  (forall w : World, Sound w ->
     exists w' out,
       play rnd after w = Ok (tt, w', out) /\
       Sound w' /\
       (score w <= score w')%Z /\
       occurrences ThresholdReached out = crossing (score w) (score w') /\
       occurrences ProcessActionFlow out = crossing (score w) (score w') /\
       actionTriggeredRef w' = (score w' >=? ACTION_SCORE_THRESHOLD)%Z).
Proof.
  split; [|split].
  - intros w0. apply started_FiresOnce.
    eapply returns_weaken; [apply handleReset_Sound|].
    cbn beta. intros _ w' out (H1 & H2 & H3 & _). auto.
  - apply started_FiresOnce.
    eapply returns_weaken; [apply mount_Sound|].
    cbn beta. intros _ w' out (H1 & H2 & H3 & _). auto.
  - intros w Hsound.
    pose proof (play_Sound rnd after w Hsound) as H. apply returns_ok in H.
    destruct H as ([] & w' & out & Hplay & Hsound' & Hmono & HT & HP).
    exists w', out.
    split; [exact Hplay|]. split; [exact Hsound'|]. split; [exact Hmono|].
    split; [exact HT|]. split; [exact HP|].
    apply (steady_latch _ (proj1 Hsound')).
Qed.


End ScoreTheorems.

(** ** The checks of a frame *)


Lemma signalled_occurrences (s : Signal) (out : list Signal) :
  occurrences s out = 0%nat -> signalled s out = false.
Proof.
  unfold occurrences, signalled. induction out as [|a rest IH]; [reflexivity|].
  cbn. destruct (Signal_eqb s a); cbn; [discriminate|assumption].
Qed.

Section FrameTheorems.

Variable rnd : nat -> R.

(** What driving does not touch, without any assumption on the world. *)
Lemma Driven_fields (w wd : World) (lastPoint : Point.t) :
  lastElement (roadPath (gameStateRef w)) = Some lastPoint ->
  Driven rnd w lastPoint wd ->
  score wd = score w /\
  isGameOver wd = isGameOver w /\
  Car.x (car (gameStateRef wd)) =
    (if has " " (keysPressed (gameStateRef w))
     then Car.x (car (gameStateRef w)) +
          cos (Car.angle (car (gameStateRef (steered w)))) * MOVE_SPEED
     else Car.x (car (gameStateRef w))) /\
  exists newCoins,
    coins (gameStateRef wd) = coins (gameStateRef w) ++ newCoins /\
    collectedCount newCoins = 0%Z.
Proof.
  intros Hlast Hd.
  destruct (steered_unchanged w) as (Hkeys & Hpath & Hcoins & Hcam & Hx & Hy & Hsc' & Hl' & Hpa & Hov & Hscr & Hrc).
  unfold Driven in Hd. destruct (has " " _).
  - destruct Hd as (we & Hext & ->).
    destruct (recentered_fields we) as (Rpath & Rcoins & Rkeys & Rx & Rsc & Rl & Rpa & Rov & Rscr & Ry & Rcam).
    assert (Mx : Car.x (car (gameStateRef (moved (steered w)))) =
                 Car.x (car (gameStateRef w)) +
                 cos (Car.angle (car (gameStateRef (steered w)))) * MOVE_SPEED)
      by (unfold moved; fields; now rewrite Hx).
    destruct (moved_fields (steered w)) as (Mpath & Mcoins & Mkeys & Mcam & My & Msc & Ml & Mpa & Mov & Mscr).
    destruct (horizon _ _ >? _).
    + destruct Hext as ([] & pts & cs & q & Hpath' & Hcoins' & _ & _ & _ & _ & _ & Hsp).
      repeat split; try congruence.
      exists cs. split; [congruence|]. apply (Spawned_uncollected _ _ _ _ _ Hsp).
    + subst we. repeat split; try congruence.
      exists []. rewrite app_nil_r. split; [congruence|reflexivity].
  - subst wd.
    destruct (stopped_fields (steered w)) as (Tpath & Tcoins & Tkeys & Tcam & Tx & Ty & Tsc & Tl & Tpa & Tov & Tscr).
    repeat split; try congruence.
    exists []. rewrite app_nil_r. split; [congruence|reflexivity].
Qed.

(** A running frame on a non-empty road, taken apart. *)
Lemma gameLoop_frame (onRoad : Car.t -> list Point.t -> bool)
      (collide : Car.t -> R -> R -> bool) (w : World) :
  isPaused w = false -> isGameOver w = false ->
  roadPath (gameStateRef w) <> [] ->
  exists lastPoint wd w' outc,
    lastElement (roadPath (gameStateRef w)) = Some lastPoint /\
    Driven rnd w lastPoint wd /\
    let thrust := has " " (keysPressed (gameStateRef w)) in
    let s := gameStateRef wd in
    let offRoad := thrust && negb (onRoad (car s) (roadPath s)) in
    let offScreen := (Car.x (car s) <? 0) || (Car.x (car s) >? CANVAS_WIDTH) in
    let wc := flagged offScreen (flagged offRoad wd) in
    coinLoop collide wc = Ok (tt, w', outc) /\
    gameLoop_with rnd onRoad collide w = Ok (tt, w', boundarySignals onRoad thrust s ++ outc) /\
    CoinStep wc w' outc /\
    (exists cs', gameStateRef w' = with_coins cs' s) /\
    Forall2 (Visited collide s) (coins s) (coins (gameStateRef w')) /\
    score w' = (score wd + 10 * (collectedCount (coins (gameStateRef w'))
                                 - collectedCount (coins s)))%Z.
Proof.
  intros Hp Ho Hne.
  destruct (lastElement_nonempty _ Hne) as [lastPoint Hlast].
  pose proof (gameLoop_running rnd onRoad collide w lastPoint Hp Ho Hlast) as H.
  apply returns_ok in H. cbn zeta in H.
  destruct H as ([] & w' & out & Heq & wd & outc & Hd & Hloop & ->).
  exists lastPoint, wd, w', outc. cbn zeta.
  split; [assumption|]. split; [assumption|]. split; [assumption|]. split; [assumption|].
  match type of Hloop with coinLoop _ ?x = _ => set (wc := x) in * end.
  assert (Hwc : gameStateRef wc = gameStateRef wd /\ score wc = score wd).
  { unfold wc.
    match goal with |- context [flagged ?b2 (flagged ?b1 wd)] =>
      destruct (flagged_fields b2 (flagged b1 wd)) as (F1 & F2 & _);
      destruct (flagged_fields b1 wd) as (G1 & G2 & _)
    end.
    split; congruence. }
  destruct Hwc as [Ws Wsc].
  pose proof (coinLoop_spec collide wc) as Hspec.
  unfold returns in Hspec. rewrite Hloop in Hspec.
  rewrite Ws, Wsc in Hspec. exact Hspec.
Qed.



End FrameTheorems.

(** ** Coin placement *)

Lemma PlacedNear_length (anchors : list (R * R)) (cs : list Coin.t) :
  PlacedNear anchors cs -> (length cs <= length anchors)%nat.
Proof. induction 1; cbn; lia. Qed.

Lemma PlacedNear_full (anchors : list (R * R)) (cs : list Coin.t) :
  PlacedNear anchors cs -> length cs = length anchors ->
  map Coin.y cs = map snd anchors.
Proof.
  induction 1 as [|a anchors cs H IH|a anchors cs off Hoff H IH]; intros Hlen.
  - reflexivity.
  - apply PlacedNear_length in H. cbn in Hlen. lia.
  - cbn in *. f_equal. apply IH. lia.
Qed.

Lemma Spawned_evenDraws (n n' : nat) (anchors : list (R * R)) (cs : list Coin.t) :
  Spawned evenDraws n anchors cs n' -> map Coin.y cs = map snd anchors.
Proof.
  induction 1 as [|n k a anchors cs n' Hk Hskip H IH|n k a anchors cs n' Hk Hhit H IH].
  - reflexivity.
  - apply gtb_false in Hskip. unfold evenDraws in Hskip. lra.
  - cbn. f_equal. exact IH.
Qed.

Section SpawnTheorems.

Variable rnd : nat -> R.

(** C6 (as amended).  With every random draw in [0, 1): mounting puts, for
    each segment of the initial road except the first one, no coin or one
    uncollected coin at the midpoint of the segment; a call of [extendRoad]
    puts, for each of its 5 new segments, no coin or one uncollected coin at
    the new end point of the segment.  In both, the coin of a segment is
    there exactly when that segment's own draw is above 0.4, and its x is
    shifted by (the next draw - 0.5) * 40, which is at least -20 and less
    than 20. *)
Theorem coins_spawn_per_segment :
  (forall k, 0 <= rnd k < 1) ->
  (forall w : World,
     exists w' n n',
       mount rnd w = Ok (tt, w', []) /\
       let anchors := map midPoint (tl (segments (roadPath (gameStateRef w')))) in
       Spawned rnd n anchors (coins (gameStateRef w')) n' /\
       PlacedNear anchors (coins (gameStateRef w'))) /\
  (forall (w : World) (lastPoint : Point.t),
     lastElement (roadPath (gameStateRef w)) = Some lastPoint ->
     exists w' newPoints newCoins,
       extendRoad rnd w = Ok (tt, w', []) /\
       roadPath (gameStateRef w') = roadPath (gameStateRef w) ++ newPoints /\
       length newPoints = 5%nat /\
       coins (gameStateRef w') = coins (gameStateRef w) ++ newCoins /\
       Spawned rnd (randomCalls w) (map endPoint newPoints) newCoins (randomCalls w') /\
       PlacedNear (map endPoint newPoints) newCoins).
Proof.
  intros Hrnd. split.
  - intros w.
    assert (H : returns (mount rnd) w (fun _ w' out =>
                  out = [] /\
                  exists n n',
                    Spawned rnd n (map midPoint (tl (segments (roadPath (gameStateRef w')))))
                            (coins (gameStateRef w')) n')).
    { unfold mount. apply returns_bind.
      eapply returns_weaken; [apply (initializeRoad_spec rnd w)|].
      cbn beta. intros _ w1 out1 (-> & _).
      eapply returns_weaken; [apply (initializeCoins_spec rnd w1)|].
      cbn beta. intros _ w2 out2 (-> & _ & Hpath & Hsp).
      split; [reflexivity|]. rewrite Hpath. eauto. }
    apply returns_ok in H. destruct H as ([] & w' & out & Heq & -> & n & n' & Hsp).
    exists w', n, n'. split; [assumption|]. cbn zeta. split; [assumption|].
    apply (Spawned_PlacedNear rnd n n' _ _ Hrnd Hsp).
  - intros w lastPoint Hlast.
    pose proof (extendRoad_Extended rnd w lastPoint Hlast) as H.
    apply returns_ok in H.
    destruct H as ([] & w' & out & Heq & -> & _ & pts & cs & q & Hpath & Hcoins & Hn & _ & _ & _ & _ & Hsp).
    exists w', pts, cs. repeat split; auto.
    apply (Spawned_PlacedNear rnd _ _ _ _ Hrnd Hsp).
Qed.

End SpawnTheorems.

Lemma coins_spawn_per_segment_witness :
  (forall k, 0 <= evenDraws k < 1) /\
  exists w' newPoints newCoins,
    extendRoad evenDraws parkedWorld = Ok (tt, w', []) /\
    roadPath (gameStateRef w') = roadPath (gameStateRef parkedWorld) ++ newPoints /\
    PlacedNear (map endPoint newPoints) newCoins.
Proof.
  assert (Hrnd : forall k, 0 <= evenDraws k < 1) by (intros k; unfold evenDraws; lra).
  split; [exact Hrnd|].
  destruct (proj2 (coins_spawn_per_segment evenDraws Hrnd) parkedWorld (Point.mk 400 0) eq_refl)
    as (w' & pts & cs & Heq & Hpath & _ & _ & _ & Hnear).
  exists w', pts, cs. auto.
Defined.

(** C6 (as stated) fails for [extendRoad]: with every draw equal to one half,
    the coins that the first extension after mounting adds are not at the
    midpoints of the new segments (each is at the far end of its segment, 30
    further up than the midpoint). *)
Lemma extendRoad_coins_not_at_midpoints :
  ~ spec_spawn_at_midpoints evenDraws initialWorld.
Proof.
  intros Hspec.
  pose proof (mount_Sound evenDraws) as Hm. apply returns_ok in Hm.
  destruct Hm as ([] & w1 & out & Hmount & [Hsteady _] & _ & -> & _).
  destruct (steady_horizon _ Hsteady) as (p & Hp & _).
  pose proof (extendRoad_Extended evenDraws w1 p Hp) as He. apply returns_ok in He.
  destruct He as ([] & w2 & out & Hext & -> & _ & pts & cs & q & Hpath & Hcoins & Hn & _ & Hdesc & _ & _ & Hsp).
  specialize (Hspec w1 w2 p pts cs Hmount Hp Hext Hpath Hcoins).
  destruct pts as [|p1 rest]; [discriminate|].
  change (segments (p :: p1 :: rest)) with ((p, p1) :: segments (p1 :: rest)) in Hspec.
  pose proof (Spawned_evenDraws _ _ _ _ Hsp) as Hys.
  assert (Hlen : length cs = length (map midPoint ((p, p1) :: segments (p1 :: rest)))).
  { apply (f_equal (@length R)) in Hys. rewrite !length_map in Hys.
    rewrite length_map. cbn [length]. rewrite segments_length. cbn [length] in *. lia. }
  pose proof (PlacedNear_full _ _ Hspec Hlen) as Hmid.
  rewrite Hys in Hmid. cbn [map snd endPoint midPoint fst] in Hmid.
  injection Hmid as Hfirst _.
  destruct Hdesc as [Hp1 _]. unfold SEGMENT_WIDTH in Hp1. lra.
Qed.

(** ** Driving straight up until the road is extended *)

Lemma keepWithinBounds_same (x : R) : 200 <= x <= 600 -> keepWithinBounds x = x.
Proof.
  intros Hx. unfold keepWithinBounds, ROAD_WIDTH, CANVAS_WIDTH, Rmax, Rmin.
  repeat destruct (Rle_dec _ _); lra.
Qed.

Lemma nth_error_last {A : Type} (l : list A) (a : A) :
  lastElement l = Some a -> nth_error l (length l - 1) = Some a.
Proof.
  induction l as [|b rest IH]; [discriminate|].
  destruct rest as [|c rest'].
  - cbn. congruence.
  - intros H. change (lastElement (b :: c :: rest')) with (lastElement (c :: rest')) in H.
    specialize (IH H). cbn [length] in *.
    replace (S (S (length rest')) - 1)%nat with (S (S (length rest') - 1)) by lia.
    exact IH.
Qed.

Section ColumnFacts.

Variable rnd : nat -> R.

Lemma initializeRoad_column (w : World) :
  returns (initializeRoad rnd) w (fun _ w' _ => HasColumn (roadPath (gameStateRef w'))).
Proof.
  unfold initializeRoad.
  apply returns_bind. unfold returns at 1. cbn [modifyState modify].
  apply returns_bind. unfold returns at 1. cbn [pushRoad modifyState modify].
  apply returns_bind.
  set (w0 := with_state _ (with_state _ w)).
  pose (Inv := fun (j : nat) (acc : R * R) (w' : World) (out : list Signal) =>
    snd acc = CANVAS_HEIGHT - INR j * SEGMENT_WIDTH /\
    length (roadPath (gameStateRef w')) = S j /\
    lastElement (roadPath (gameStateRef w')) = Some (Point.mk (fst acc) (snd acc)) /\
    (j = 0%nat -> fst acc = 400) /\
    ((1 <= j <= 3)%nat -> 352 <= fst acc <= 448) /\
    (j = 4%nat -> 304 <= fst acc <= 496) /\
    ((5 <= j)%nat -> HasColumn (roadPath (gameStateRef w')))).
  eapply returns_weaken.
  - apply (forLoop_invariant Inv _ 15 0 _ w0 []).
    + unfold Inv, w0. cbn. unfold CANVAS_WIDTH, CANVAS_HEIGHT.
      split; [lra|]. split; [reflexivity|]. split; [reflexivity|].
      split; [intros _; lra|]. repeat split; intros; lia.
    + intros j [cx cy] w1 out _ (Hy & Hlen & Hlast & H0 & H13 & H4 & H5).
      cbn [fst snd] in *.
      (* what a turn of the loop makes of the invariant, for the drift it chose *)
      assert (Hstep : forall direction : R,
        (direction = 0 \/ direction = 1 \/ direction = -1) ->
        ((j = 1 \/ j = 2 \/ j = 4)%nat -> direction = 0) ->
        Inv (S j)
            (keepWithinBounds (cx + direction * (SEGMENT_WIDTH * (8 / 10))), cy - SEGMENT_WIDTH)
            (with_state (fun s => with_roadPath
               (roadPath s ++
                [Point.mk (keepWithinBounds (cx + direction * (SEGMENT_WIDTH * (8 / 10))))
                          (cy - SEGMENT_WIDTH)]) s) w1)
            (out ++ [])).
      { intros direction Hdir Hstraight. unfold Inv. fields.
        set (x' := keepWithinBounds (cx + direction * (SEGMENT_WIDTH * (8 / 10)))).
        split; [rewrite S_INR; lra|].
        split; [rewrite length_app; cbn; lia|].
        split; [apply lastElement_snoc|].
        split; [lia|].
        assert (Hdrift : 304 <= cx <= 496 ->
                         x' = cx + direction * 48 /\ cx - 48 <= x' <= cx + 48).
        { intros Hcx. unfold x', SEGMENT_WIDTH.
          rewrite keepWithinBounds_same by (destruct Hdir as [->|[->| ->]]; lra).
          destruct Hdir as [->|[->| ->]]; lra. }
        split; [|split].
        - intros Hj. destruct j as [|[|[|j]]]; try lia.
          + specialize (H0 eq_refl). destruct Hdrift as [_ ?]; lra.
          + assert (352 <= cx <= 448) by (apply H13; lia).
            rewrite (Hstraight ltac:(lia)) in Hdrift. destruct Hdrift as [? _]; lra.
          + assert (352 <= cx <= 448) by (apply H13; lia).
            rewrite (Hstraight ltac:(lia)) in Hdrift. destruct Hdrift as [? _]; lra.
        - intros Hj. assert (j = 3%nat) by lia. subst j.
          assert (352 <= cx <= 448) by (apply H13; lia).
          destruct Hdrift as [_ ?]; lra.
        - intros Hj. destruct (Nat.eq_dec j 4) as [-> | Hne].
          + (* the sixth point closes the column *)
            specialize (H4 eq_refl).
            rewrite (Hstraight ltac:(lia)) in Hdrift.
            destruct (Hdrift H4) as [Hsame _].
            exists cx. split; [assumption|].
            apply nth_error_last in Hlast. rewrite Hlen in Hlast. cbn [Nat.sub] in Hlast.
            split.
            * rewrite nth_error_app1 by lia. rewrite Hlast. f_equal. f_equal.
              rewrite Hy. unfold CANVAS_HEIGHT, SEGMENT_WIDTH. cbn [INR]. lra.
            * replace 5%nat with (length (roadPath (gameStateRef w1))) by lia.
              rewrite nth_error_app2 by lia. rewrite Nat.sub_diag. cbn [nth_error].
              f_equal. f_equal; [lra|].
              rewrite Hy. unfold CANVAS_HEIGHT, SEGMENT_WIDTH. cbn [INR]. lra.
          + destruct H5 as (x4 & Hx4 & Ha & Hb); [lia|].
            exists x4. split; [assumption|].
            split; rewrite nth_error_app1 by lia; assumption. }
      unfold returns. cbn beta iota.
      destruct (j mod 3 =? 0)%nat eqn:Hmod;
        cbn [chooseDirection bind Math_random ret pushRoad modifyState modify].
      * assert (Hj : ~ (j = 1 \/ j = 2 \/ j = 4)%nat).
        { intros [->|[->| ->]]; discriminate. }
        fields.
        destruct (rnd (randomCalls w1) >? 5 / 10); apply Hstep; auto; intros; tauto.
      * fields. apply Hstep; auto.
  - cbn beta. intros [cx cy] w' out (_ & _ & _ & _ & _ & _ & H5).
    apply returns_ret. apply H5. lia.
Qed.

End ColumnFacts.

Lemma minimum_le (l : list R) (m d : R) :
  minimum l = Some m -> In d l -> m <= d.
Proof.
  revert m. induction l as [|a rest IH]; intros m Hm Hin; [easy|].
  cbn in Hm. destruct (minimum rest) as [m'|] eqn:Hrest.
  - injection Hm as <-. destruct Hin as [->|Hin].
    + apply Rmin_l.
    + eapply Rle_trans; [apply Rmin_r|]. now apply IH.
  - injection Hm as <-. destruct Hin as [->|Hin]; [lra|].
    destruct rest; [easy|]. cbn in Hrest. destruct (minimum rest); discriminate.
Qed.

Lemma clamp01_range (t : R) : 0 <= clamp01 t <= 1.
Proof.
  unfold clamp01, Rmax, Rmin. repeat destruct (Rle_dec _ _); lra.
Qed.

(** A car in the starting column, between heights 300 and 500, is within
    180 of the fifth segment of the initial road. *)
Lemma column_on_road (path : list Point.t) (c : Car.t) :
  HasColumn path ->
  Car.x c = 400 -> 300 <= Car.y c <= 500 ->
  isCarOnRoad c path = true.
Proof.
  intros (x4 & Hx4 & Ha & Hb) Hx Hy.
  pose proof (segments_nth path 4 _ _ Ha Hb) as Hseg.
  apply nth_error_In in Hseg.
  set (a := Point.mk x4 360) in *. set (b := Point.mk x4 300) in *.
  assert (Hin : In (spec_segmentDistance c a b)
                   (map (fun s => spec_segmentDistance c (fst s) (snd s)) (segments path))).
  { apply (in_map (fun s => spec_segmentDistance c (fst s) (snd s)) _ _ Hseg). }
  assert (Hclose : spec_segmentDistance c a b < 180).
  { unfold spec_segmentDistance, distanceTo, a, b. cbn [Point.x Point.y]. rewrite Hx.
    assert (Hlen : ((x4 - x4) * (x4 - x4) + (300 - 360) * (300 - 360) !== 0) = true)
      by (apply neqb_true; nra).
    rewrite Hlen.
    set (t := clamp01 _).
    assert (Ht : 0 <= t <= 1) by apply clamp01_range.
    assert (Hty : 360 <= Car.y c -> t = 0).
    { intros Hhigh. unfold t, clamp01, Rmax, Rmin.
      assert (((400 - x4) * (x4 - x4) + (Car.y c - 360) * (300 - 360)) /
              ((x4 - x4) * (x4 - x4) + (300 - 360) * (300 - 360)) <= 0).
      { replace ((x4 - x4) * (x4 - x4) + (300 - 360) * (300 - 360)) with 3600 by lra.
        replace ((400 - x4) * (x4 - x4) + (Car.y c - 360) * (300 - 360))
          with (- 60 * (Car.y c - 360)) by lra. lra. }
      repeat destruct (Rle_dec _ _); lra. }
    assert (Hty' : Car.y c <= 360 -> t = (360 - Car.y c) / 60).
    { intros Hlow. unfold t. rewrite clamp01_inside.
      - replace ((x4 - x4) * (x4 - x4) + (300 - 360) * (300 - 360)) with 3600 by lra. lra.
      - replace ((x4 - x4) * (x4 - x4) + (300 - 360) * (300 - 360)) with 3600 by lra. lra. }
    replace 180 with (sqrt (180 * 180)) by (apply sqrt_square; lra).
    apply sqrt_lt_1_alt.
    assert (Hp1 : 0 <= (x4 - 304) * (496 - x4)) by (apply Rmult_le_pos; lra).
    assert (Hsq1 : 0 <= (400 - x4) * (400 - x4) <= 9216).
    { split; [apply Rle_0_sqr|lra]. }
    destruct (Rle_dec 360 (Car.y c)) as [Hhigh|Hlow].
    - rewrite (Hty Hhigh).
      assert (Hp2 : 0 <= (Car.y c - 360) * (500 - Car.y c)) by (apply Rmult_le_pos; lra).
      assert (Hsq2 : 0 <= (Car.y c - 360) * (Car.y c - 360) <= 19600).
      { split; [apply Rle_0_sqr|nra]. }
      split; nra.
    - rewrite (Hty' ltac:(lra)).
      replace (Car.y c - (360 + (360 - Car.y c) / 60 * (300 - 360))) with 0 by lra.
      split; nra. }
  unfold isCarOnRoad, isCarOnRoad_with. fold closestSegment.
  rewrite closestSegment_minimum. unfold spec_minDistance.
  destruct (minimum _) as [m|] eqn:Hm.
  - cbn [Math_min xltb]. apply ltb_true.
    pose proof (minimum_le _ _ _ Hm Hin). unfold ROAD_WIDTH. lra.
  - destruct (map _ (segments path)); [easy|]. cbn in Hm. destruct (minimum l); discriminate.
Qed.

Lemma collectedCount_length (cs : list Coin.t) :
  (0 <= collectedCount cs <= Z.of_nat (length cs))%Z.
Proof.
  unfold collectedCount. pose proof (filter_length_le Coin.collected cs). lia.
Qed.

Lemma Spawned_length (rnd : nat -> R) (n n' : nat) (a : list (R * R)) (cs : list Coin.t) :
  Spawned rnd n a cs n' -> (length cs <= length a)%nat.
Proof. induction 1; cbn; lia. Qed.

Lemma straight_up :
  cos (- PI / 2) = 0 /\ sin (- PI / 2) = -1.
Proof.
  replace (- PI / 2) with (- (PI / 2)) by lra.
  rewrite cos_neg, sin_neg, cos_PI2, sin_PI2. split; lra.
Qed.

Lemma steered_idle (w : World) :
  keysPressed (gameStateRef w) = [" "%string] -> steered w = w.
Proof. intros Hkeys. unfold steered. rewrite Hkeys. reflexivity. Qed.

(** The car of a cruising world one frame later, when the road is not
    extended: in the same column, 6 further up or pinned at mid-height. *)
Lemma cruise_drive (k : nat) (w : World) :
  keysPressed (gameStateRef w) = [" "%string] ->
  isPaused w = false -> isGameOver w = false ->
  Car.x (car (gameStateRef w)) = 400 ->
  Car.angle (car (gameStateRef w)) = - PI / 2 ->
  Car.y (car (gameStateRef w)) = Rmax 300 (500 - 6 * INR k) ->
  cameraOffsetY (gameStateRef w) = Rmax 0 (6 * INR k - 200) ->
  0 <= INR k <= 50 ->
  keysPressed (gameStateRef (recentered (moved w))) = [" "%string] /\
  isPaused (recentered (moved w)) = false /\
  isGameOver (recentered (moved w)) = false /\
  score (recentered (moved w)) = score w /\
  Car.x (car (gameStateRef (recentered (moved w)))) = 400 /\
  Car.angle (car (gameStateRef (recentered (moved w)))) = - PI / 2 /\
  Car.y (car (gameStateRef (recentered (moved w)))) = Rmax 300 (500 - 6 * INR (S k)) /\
  cameraOffsetY (gameStateRef (recentered (moved w))) = Rmax 0 (6 * INR (S k) - 200) /\
  roadPath (gameStateRef (recentered (moved w))) = roadPath (gameStateRef w) /\
  coins (gameStateRef (recentered (moved w))) = coins (gameStateRef w).
Proof.
  intros Hkeys Hp Ho Hx Ha Hy Hcam HINR.
  destruct straight_up as [Hcos Hsin].
  assert (Hym : Car.y (car (gameStateRef (moved w))) = Rmax 300 (500 - 6 * INR k) - 6).
  { unfold moved. fields. rewrite Ha, Hsin, Hy. unfold MOVE_SPEED. lra. }
  unfold recentered. cbv zeta. rewrite Hym.
  destruct (Rmax 300 (500 - 6 * INR k) - 6 <? CANVAS_HEIGHT / 2) eqn:Hlow;
    [apply ltb_true in Hlow|apply ltb_false in Hlow];
    unfold moved; fields; rewrite ?Ha, ?Hcos, ?Hsin, ?Hx, ?Hy, ?Hcam, ?S_INR;
    unfold CANVAS_HEIGHT, MOVE_SPEED in *;
    unfold Rmax in *; repeat destruct (Rle_dec _ _); repeat split; auto; lra.
Qed.

Section CruiseFacts.

Variable rnd : nat -> R.

(** One frame of driving straight up, before the first extension. *)
Lemma gameLoop_cruising (k : nat) (w : World) :
  Steady w -> CruisingState k w -> (k <= 50)%nat ->
  returns (gameLoop rnd) w (fun _ w' _ => CruisingState (S k) w').
Proof.
  intros Hsteady (Hkeys & Hp & Ho & Hx & Ha & Hy & Hcam & Hcol & (q & Hq & Hqy) & Hcoins) Hk.
  assert (Hne : roadPath (gameStateRef w) <> []) by (destruct (roadPath (gameStateRef w)); easy).
  destruct (gameLoop_frame rnd isCarOnRoad checkCollision w Hp Ho Hne)
    as (lastPoint & wd & w' & outc & Hlast & Hd & Hloop & Heq & Hstep & (cs' & Hstate) & Hvisit & Hscore).
  cbn zeta in *. rewrite Hq in Hlast. injection Hlast as <-.
  eapply returns_eq; [exact Heq|].
  (* the drive: no extension, the car goes up by 6 *)
  assert (Hthrust : has " " (keysPressed (gameStateRef w)) = true) by now rewrite Hkeys.
  unfold Driven in Hd. rewrite Hthrust, (steered_idle w Hkeys) in Hd.
  destruct Hd as (we & Hext & ->).
  assert (HINR : 0 <= INR k <= 50).
  { split; [apply pos_INR|]. replace 50 with (INR 50) by (cbn; lra). now apply le_INR. }
  assert (Hfar : (horizon (moved w) q >? - ROAD_EXTEND_THRESHOLD) = false).
  { apply gtb_false. unfold horizon, moved, ROAD_EXTEND_THRESHOLD. fields.
    rewrite Hqy, Hcam. unfold Rmax. destruct (Rle_dec _ _); lra. }
  rewrite Hfar in Hext. subst we.
  pose proof (cruise_drive k w Hkeys Hp Ho Hx Ha Hy Hcam HINR) as Hwd.
  destruct Hwd as (Dkeys & Dp & Do & Dsc & Dx & Da & Dy & Dcam & Dpath & Dcoins).
  set (wd := recentered (moved w)) in *.
  assert (Hrange : 300 <= Car.y (car (gameStateRef wd)) <= 500).
  { rewrite Dy, S_INR. unfold Rmax. destruct (Rle_dec _ _); lra. }
  assert (Hroad : isCarOnRoad (car (gameStateRef wd)) (roadPath (gameStateRef wd)) = true).
  { apply column_on_road; [rewrite Dpath|..]; assumption. }
  assert (Hscreen : (Car.x (car (gameStateRef wd)) <? 0) ||
                    (Car.x (car (gameStateRef wd)) >? CANVAS_WIDTH) = false).
  { rewrite Dx. apply orb_false_intro; [apply ltb_false|apply gtb_false];
      unfold CANVAS_WIDTH; lra. }
  rewrite Hroad, Hscreen in *. cbn [negb andb flagged] in *. rewrite andb_false_r in *.
  cbn [flagged] in *.
  (* the coin loop: the score stays far below MAX_SCORE *)
  assert (Hlen : length (coins (gameStateRef w')) = length (coins (gameStateRef wd))).
  { symmetry. apply (Forall2_length Hvisit). }
  assert (Hover : isGameOver w' = false).
  { destruct (isGameOver w') eqn:E; [|reflexivity].
    destruct (step_won _ _ _ Hstep E) as [H|H]; [congruence|].
    rewrite Hscore, Dsc, (steady_score _ Hsteady), Dcoins in H.
    pose proof (collectedCount_length (coins (gameStateRef w'))) as Hcount.
    rewrite Hlen, Dcoins in Hcount.
    unfold MAX_SCORE in H. lia. }
  unfold CruisingState. rewrite Hstate. fields.
  repeat split; auto.
  - rewrite (step_isPaused _ _ _ Hstep). assumption.
  - rewrite Dpath. assumption.
  - exists q. rewrite Dpath. auto.
  - rewrite Hstate in Hlen. cbn [coins with_coins] in Hlen. rewrite Hlen, Dcoins. assumption.
Qed.

End CruiseFacts.

Lemma returns_bind_assoc {A B C : Type} (m : M A) (f : A -> M B) (g : B -> M C)
      (w : World) (Q : C -> World -> list Signal -> Prop) :
  returns (bind (bind m f) g) w Q ->
  returns (bind m (fun a => bind (f a) g)) w Q.
Proof.
  unfold returns, bind.
  destruct (m w) as [[[a w1] o1]|]; [|easy].
  destruct (f a w1) as [[[b w2] o2]|]; [|easy].
  destruct (g b w2) as [[[c w3] o3]|]; [|easy].
  now rewrite app_assoc.
Qed.

Section CruiseSession.

Variable rnd : nat -> R.

(** The timers of a frame only touch the latch of [GameScreen]. *)
Lemma animationFrame_keeps (P : World -> Prop) (w : World) :
  (forall w0 b, P w0 -> P (with_screenActionTriggeredRef b w0)) ->
  returns (gameLoop rnd) w (fun _ w' _ => P w') ->
  returns (animationFrame rnd) w (fun _ w' _ => P w').
Proof.
  intros Hstable Hloop. unfold animationFrame.
  apply returns_bind. apply returns_listen.
  eapply returns_weaken; [exact Hloop|].
  cbn beta. intros _ w1 out HP.
  apply returns_bind.
  eapply returns_weaken.
  - apply (forLoop_invariant (fun _ _ w' _ => P w') _ (occurrences ThresholdReached out) 0 tt w1 []);
      [exact HP|].
    intros j [] w2 o _ HP2. unfold handleScoreThresholdReached.
    apply returns_bind. apply returns_get. cbn beta.
    destruct (screenActionTriggeredRef w2).
    + apply returns_ret. exact HP2.
    + step. apply returns_emit. apply Hstable. exact HP2.
  - cbn beta. intros [] w2 o HP2. apply returns_ret. exact HP2.
Qed.

Lemma animationFrame_cruising (k : nat) (w : World) :
  Cruising k w -> (k <= 50)%nat ->
  returns (animationFrame rnd) w (fun _ w' _ => Cruising (S k) w').
Proof.
  intros [Hsound Hstate] Hk.
  eapply returns_weaken.
  - apply returns_and.
    + apply (animationFrame_Sound rnd w Hsound).
    + apply (animationFrame_keeps (CruisingState (S k)) w).
      * intros w0 b H. exact H.
      * apply gameLoop_cruising; [exact (proj1 Hsound)|exact Hstate|exact Hk].
  - cbn beta. intros _ w' out [(Hsound' & _) Hstate']. split; assumption.
Qed.

Lemma frames_cruising (n k : nat) (w : World) :
  Cruising k w -> (k + n <= 51)%nat ->
  returns (session rnd (repeat (User AnimationFrame) n)) w
    (fun _ w' _ => Cruising (k + n) w').
Proof.
  revert k w. induction n as [|n IH]; intros k w Hc Hk; cbn [repeat session].
  - apply returns_ret. now rewrite Nat.add_0_r.
  - apply returns_bind. cbn [handle dispatch].
    eapply returns_weaken; [apply (animationFrame_cruising k w Hc); lia|].
    cbn beta. intros _ w1 out1 Hc1.
    eapply returns_weaken; [apply (IH (S k) w1 Hc1); lia|].
    cbn beta. intros _ w2 out2 Hc2. now replace (k + S n)%nat with (S k + n)%nat by lia.
Qed.

Lemma mount_cruising :
  returns (mount rnd ;; handleKeyDown " ") initialWorld (fun _ w' _ => Cruising 0 w').
Proof.
  apply returns_bind.
  eapply returns_weaken.
  - apply returns_and; [apply returns_and|].
    + apply (mount_Sound rnd).
    + unfold mount. apply (initialize_spec rnd initialWorld); reflexivity.
    + unfold mount. apply returns_bind.
      eapply returns_weaken; [apply (initializeRoad_column rnd initialWorld)|].
      cbn beta. intros [] w1 out1 Hcol.
      eapply returns_weaken; [apply (initializeCoins_spec rnd w1)|].
      cbn beta. intros [] w2 out2 (_ & _ & Hpath & _).
      instantiate (1 := fun _ w' _ => HasColumn (roadPath (gameStateRef w'))).
      cbn beta. rewrite Hpath. exact Hcol.
  - cbn beta.
    intros [] w1 out1 [[(Hsound & _ & _ & Hp & Ho) (_ & Hsame & Hlen & _ & (q & Hq & Hqy) & n & n' & Hsp)] Hcol].
    unfold handleKeyDown. apply returns_when. cbn [existsb String.eqb Ascii.eqb Bool.eqb orb].
    apply returns_modify.
    destruct Hsame.
    assert (Hkeys : keysPressed (gameStateRef w1) = []) by now rewrite same_keysPressed0.
    split.
    + apply (Sound_same_road w1); auto.
    + unfold CruisingState. fields. rewrite Hkeys, same_car0, same_cameraOffsetY0.
      cbn. unfold CANVAS_WIDTH, CANVAS_HEIGHT, Rmax.
      repeat destruct (Rle_dec _ _); try lra.
      repeat split; auto; try lra.
      * exists q. split; [assumption|]. rewrite Hqy. unfold CANVAS_HEIGHT, SEGMENT_WIDTH. lra.
      * apply Spawned_length in Hsp. rewrite length_map in Hsp.
        pose proof (segments_length (roadPath (gameStateRef w1))) as Hs.
        destruct (segments (roadPath (gameStateRef w1))); cbn [tl length] in *; lia.
Qed.

(** Holding the space bar for 51 frames after mounting brings the road's end
    to 194 above the frame's top: the next frame extends the road. *)
Lemma cruise51_reached :
  exists w out q,
    reached rnd cruise51 = Ok (tt, w, out) /\
    lastElement (roadPath (gameStateRef w)) = Some q /\
    horizon (moved (steered w)) q = -194.
Proof.
  assert (H : returns (mount rnd ;; session rnd cruise51) initialWorld
                (fun _ w _ => Cruising 51 w)).
  { unfold cruise51. cbn [session handle dispatch].
    apply (returns_bind_assoc (mount rnd) (fun _ => handleKeyDown " ")
             (fun _ => session rnd (repeat (User AnimationFrame) 51))).
    apply returns_bind.
    eapply returns_weaken; [apply mount_cruising|].
    cbn beta. intros _ w0 out0 Hc0.
    eapply returns_weaken; [apply (frames_cruising 51 0 w0 Hc0); lia|].
    cbn beta. intros _ w1 out1 Hc1. exact Hc1. }
  apply returns_ok in H. destruct H as ([] & w & out & Heq & _ & Hstate).
  destruct Hstate as (Hkeys & _ & _ & _ & _ & _ & Hcam & _ & (q & Hq & Hqy) & _).
  exists w, out, q. split; [exact Heq|]. split; [exact Hq|].
  rewrite (steered_idle w Hkeys). unfold horizon, moved. fields.
  rewrite Hqy, Hcam. cbn [INR]. unfold Rmax. destruct (Rle_dec _ _); lra.
Qed.

End CruiseSession.

Lemma extendRoad_restores_horizon_witness :
  exists w out lastPoint w' lastPoint',
    reached evenDraws cruise51 = Ok (tt, w, out) /\
    lastElement (roadPath (gameStateRef w)) = Some lastPoint /\
    horizon (moved (steered w)) lastPoint > - ROAD_EXTEND_THRESHOLD /\
    extendRoad evenDraws (moved (steered w)) = Ok (tt, w', []) /\
    lastElement (roadPath (gameStateRef w')) = Some lastPoint' /\
    horizon w' lastPoint' <= - ROAD_EXTEND_THRESHOLD.
Proof.
  destruct (proj1 (extendRoad_restores_horizon evenDraws) cruise51)
    as (w & out & p & Heq & Hp & Hext).
  destruct (cruise51_reached evenDraws) as (w2 & out2 & q & Heq2 & Hq & Hh).
  rewrite Heq in Heq2. injection Heq2 as <- <-.
  rewrite Hp in Hq. injection Hq as <-.
  assert (Hnear : horizon (moved (steered w)) p > - ROAD_EXTEND_THRESHOLD)
    by (rewrite Hh; unfold ROAD_EXTEND_THRESHOLD; lra).
  destruct (Hext Hnear) as (w' & p' & Hrun & Hp' & Hh' & _).
  exists w, out, p, w', p'. repeat split; assumption.
Defined.

(** ** Examples *)

Example keepWithinBounds_examples :
  keepWithinBounds 160 = 200 /\ keepWithinBounds 648 = 600 /\ keepWithinBounds 352 = 352.
Proof.
  unfold keepWithinBounds, ROAD_WIDTH, CANVAS_WIDTH, Rmax, Rmin.
  repeat split; repeat destruct (Rle_dec _ _); lra.
Qed.

Example crossing_examples :
  crossing 290 300 = 1%nat /\ crossing 280 310 = 1%nat /\
  crossing 300 310 = 0%nat /\ crossing 0 290 = 0%nat.
Proof. repeat split; reflexivity. Qed.

Example keysPressed_examples :
  add " " [] = [" "%string] /\
  add " " [" "%string] = [" "%string] /\
  delete " " ["ArrowLeft"%string; " "%string] = ["ArrowLeft"%string] /\
  has "ArrowLeft" [" "%string] = false.
Proof. repeat split; reflexivity. Qed.

Example lastElement_examples :
  lastElement straightRoad = Some (Point.mk 400 0) /\ lastElement (@nil Point.t) = None.
Proof. split; reflexivity. Qed.

(** Before the mount effect has run the path is empty. *)
Example extendRoad_before_mount : extendRoad evenDraws initialWorld = TypeError.
Proof. reflexivity. Qed.

(** A coin right under the car, but below the frame: the collision test
    would succeed, the coin loop does not run it. *)
Example sunken_coin_stays :
  checkCollision sunkenCar (Coin.x sunkenCoin) (Coin.y sunkenCoin + 0) = true /\
  collectCoin sunkenCoin sunkenWorld = Ok (sunkenCoin, sunkenWorld, []).
Proof.
  split.
  - unfold checkCollision, sunkenCar, sunkenCoin. cbn [Car.x Car.y Coin.x Coin.y].
    apply ltb_true.
    replace ((400 - 400) * (400 - 400) + (700 - (700 + 0)) * (700 - (700 + 0))) with 0 by lra.
    rewrite sqrt_0. unfold CAR_WIDTH, CAR_HEIGHT, COIN_SIZE, Rmax.
    destruct (Rle_dec _ _); lra.
  - unfold collectCoin, collectCoin_with.
    change (Coin.collected sunkenCoin) with false. cbv iota.
    unfold bind at 1. unfold getState.
    assert (Hcull : (Coin.y sunkenCoin + cameraOffsetY (gameStateRef sunkenWorld)
                     >? CANVAS_HEIGHT + 50) = true).
    { apply gtb_true. cbn. unfold CANVAS_HEIGHT. lra. }
    rewrite Hcull, orb_true_r. reflexivity.
Qed.

(** ** Further properties of the collision tests *)

Lemma sqrt_lt_bound (s b : R) : 0 <= s -> 0 < b -> (sqrt s < b <-> s < b * b).
Proof.
  intros Hs Hb. rewrite <- (sqrt_square b) at 1 by lra. split.
  - apply sqrt_lt_0_alt.
  - intros H. apply sqrt_lt_1_alt. lra.
Qed.

Lemma sum_squares_nonneg (a b : R) : 0 <= a * a + b * b.
Proof. pose proof (Rle_0_sqr a). pose proof (Rle_0_sqr b). unfold Rsqr in *. lra. Qed.

Lemma sqrt_le_bound (s b : R) : 0 <= b -> s <= b * b -> sqrt s <= b.
Proof.
  intros Hb Hs. rewrite <- (sqrt_square b) by exact Hb. now apply sqrt_le_1_alt.
Qed.

(** In exact arithmetic [checkCollision] is the open disc of radius 44
    around the car's centre. *)
Lemma checkCollision_disc (car : Car.t) (cx cy : R) :
  checkCollision car cx cy = true <->
  (Car.x car - cx) * (Car.x car - cx) + (Car.y car - cy) * (Car.y car - cy) < 44 * 44.
Proof.
  unfold checkCollision. rewrite ltb_true.
  replace ((Rmax CAR_WIDTH CAR_HEIGHT + COIN_SIZE) / 2) with 44.
  - apply sqrt_lt_bound; [apply sum_squares_nonneg|lra].
  - unfold CAR_WIDTH, CAR_HEIGHT, COIN_SIZE, Rmax. destruct (Rle_dec _ _); lra.
Qed.

(** X1.  [checkCollision] is a disc of radius 44 around the car's centre,
    where 44 is (max(CAR_WIDTH, CAR_HEIGHT) + COIN_SIZE) / 2: a point whose
    distance from the car's position is below 44 by at least [tolerance]
    collides, a point whose distance is above 44 by at least [tolerance]
    does not (in between, the rounding of the computed distance decides);
    the car's angle and speed play no part. *)
Theorem checkCollision_radius (car : Car.t) (cx cy : R) :
  (Rmax CAR_WIDTH CAR_HEIGHT + COIN_SIZE) / 2 = 44 /\
  (distanceTo car cx cy <= 44 - tolerance -> checkCollision car cx cy = true) /\
  (44 + tolerance <= distanceTo car cx cy -> checkCollision car cx cy = false) /\
  (forall angle speed : R,
     checkCollision (Car.mk (Car.x car) (Car.y car) angle speed) cx cy =
     checkCollision car cx cy).
Proof.
  assert (Hradius : (Rmax CAR_WIDTH CAR_HEIGHT + COIN_SIZE) / 2 = 44).
  { unfold CAR_WIDTH, CAR_HEIGHT, COIN_SIZE, Rmax. destruct (Rle_dec _ _); lra. }
  split; [exact Hradius|].
  unfold checkCollision, distanceTo, tolerance. rewrite Hradius.
  split; [|split].
  - intros Hnear. apply ltb_true. lra.
  - intros Hfar. apply ltb_false. lra.
  - intros angle speed. reflexivity.
Qed.

Example checkCollision_examples :
  checkCollision (Car.mk 400 500 0 6) 400 520 = true /\
  checkCollision (Car.mk 400 500 0 6) 430 530 = true /\
  checkCollision (Car.mk 400 500 0 6) 440 530 = false.
Proof.
  repeat split.
  - apply checkCollision_disc. cbn. lra.
  - apply checkCollision_disc. cbn. lra.
  - apply not_true_is_false. intros H. apply checkCollision_disc in H. cbn in H. lra.
Qed.

(** X2.  A road of fewer than two points has no segment: the loop of
    [isCarOnRoad] does not run, [minDistance] stays [Infinity] and the car
    is off the road wherever it is. *)
Theorem isCarOnRoad_needs_a_segment (car : Car.t) (roadPath : list Point.t) :
  (length roadPath <= 1)%nat -> isCarOnRoad car roadPath = false.
Proof.
  destruct roadPath as [|p1 [|p2 rest]]; cbn [length]; intros Hlen;
    [reflexivity|reflexivity|lia].
Qed.

Lemma isCarOnRoad_needs_a_segment_witness :
  (length stubRoad <= 1)%nat /\ isCarOnRoad boundaryCar stubRoad = false.
Proof.
  assert (Hlen : (length stubRoad <= 1)%nat) by (simpl; lia).
  split; [exact Hlen|]. apply (isCarOnRoad_needs_a_segment boundaryCar stubRoad Hlen).
Defined.

(** *** The closest point of a segment *)

Lemma minimum_In (l : list R) (m : R) : minimum l = Some m -> In m l.
Proof.
  revert m. induction l as [|d rest IH]; intros m Hm; [discriminate|].
  cbn in Hm. destruct (minimum rest) as [m'|].
  - injection Hm as <-. unfold Rmin. destruct (Rle_dec d m'); [now left|right; now apply IH].
  - injection Hm as <-. now left.
Qed.

Lemma segments_In (path : list Point.t) (s : Point.t * Point.t) :
  In s (segments path) -> In (fst s) path /\ In (snd s) path.
Proof.
  induction path as [|p1 rest IH]; [easy|].
  destruct rest as [|p2 rest']; [easy|].
  change (segments (p1 :: p2 :: rest')) with ((p1, p2) :: segments (p2 :: rest')).
  intros [<-|Hin].
  - cbn. auto.
  - destruct (IH Hin). split; now right.
Qed.

Lemma segments_ends (path : list Point.t) (p : Point.t) :
  (2 <= length path)%nat -> In p path ->
  exists s, In s (segments path) /\ (fst s = p \/ snd s = p).
Proof.
  induction path as [|p1 rest IH]; [easy|].
  destruct rest as [|p2 rest']; [cbn; lia|]. intros _ Hin.
  change (segments (p1 :: p2 :: rest')) with ((p1, p2) :: segments (p2 :: rest')).
  destruct Hin as [<-|Hin]; [exists (p1, p2); cbn; auto|].
  destruct rest' as [|p3 rest''].
  - destruct Hin as [<-|[]]. exists (p1, p2). cbn. auto.
  - destruct IH as (s & Hs & Hends); [cbn; lia|assumption|].
    exists s. split; [now right|assumption].
Qed.

(** The distance of the test is the distance to a point of the segment. *)
Lemma spec_segmentDistance_point (car : Car.t) (p1 p2 : Point.t) :
  exists t, 0 <= t <= 1 /\
    spec_segmentDistance car p1 p2 =
      distanceTo car (Point.x p1 + t * (Point.x p2 - Point.x p1))
                     (Point.y p1 + t * (Point.y p2 - Point.y p1)).
Proof.
  unfold spec_segmentDistance. destruct (_ !== 0).
  - eexists. split; [apply clamp01_range|reflexivity].
  - exists 0. split; [lra|]. f_equal; ring.
Qed.

(** That point is at least as close as either end of the segment. *)
Lemma spec_segmentDistance_le_ends (car : Car.t) (p1 p2 : Point.t) :
  spec_segmentDistance car p1 p2 <= distanceTo car (Point.x p1) (Point.y p1) /\
  spec_segmentDistance car p1 p2 <= distanceTo car (Point.x p2) (Point.y p2).
Proof.
  unfold spec_segmentDistance, distanceTo.
  set (A := Car.x car - Point.x p1). set (B := Car.y car - Point.y p1).
  set (C := Point.x p2 - Point.x p1). set (D := Point.y p2 - Point.y p1).
  replace (Car.x car - Point.x p2) with (A - C) by (unfold A, C; ring).
  replace (Car.y car - Point.y p2) with (B - D) by (unfold B, D; ring).
  destruct (C * C + D * D !== 0) eqn:Hlen.
  - apply neqb_true in Hlen.
    set (L := C * C + D * D) in *.
    assert (HL : 0 < L).
    { pose proof (sum_squares_nonneg C D). fold L in H. lra. }
    set (t0 := (A * C + B * D) / L).
    assert (Hdot : A * C + B * D = t0 * L) by (unfold t0; field; lra).
    replace (Car.x car - (Point.x p1 + clamp01 t0 * C)) with (A - clamp01 t0 * C)
      by (unfold A; ring).
    replace (Car.y car - (Point.y p1 + clamp01 t0 * D)) with (B - clamp01 t0 * D)
      by (unfold B; ring).
    assert (Hexp : forall t,
      (A - t * C) * (A - t * C) + (B - t * D) * (B - t * D) =
      A * A + B * B + L * (t * t - 2 * t * t0)).
    { intros t. unfold L.
      replace ((A - t * C) * (A - t * C) + (B - t * D) * (B - t * D))
        with (A * A + B * B + (C * C + D * D) * (t * t) - 2 * t * (A * C + B * D)) by ring.
      rewrite Hdot. unfold L. ring. }
    rewrite Hexp.
    replace ((A - C) * (A - C) + (B - D) * (B - D))
      with ((A - 1 * C) * (A - 1 * C) + (B - 1 * D) * (B - 1 * D)) by ring.
    rewrite Hexp.
    set (t := clamp01 t0).
    assert (Hcases : (t0 < 0 /\ t = 0) \/ (1 < t0 /\ t = 1) \/ (0 <= t0 <= 1 /\ t = t0)).
    { destruct (Rlt_dec t0 0) as [Hlo|Hlo]; [left; split; [lra|now apply clamp01_below]|].
      destruct (Rlt_dec 1 t0) as [Hhi|Hhi]; [right; left; split; [lra|now apply clamp01_above]|].
      right; right. split; [lra|apply clamp01_inside; lra]. }
    assert (H0 : t * t - 2 * t * t0 <= 0).
    { destruct Hcases as [[? ->]|[[? ->]|[? ->]]]; nra. }
    assert (H1 : t * t - 2 * t * t0 <= 1 * 1 - 2 * 1 * t0).
    { destruct Hcases as [[? ->]|[[? ->]|[? ->]]]; nra. }
    split; apply sqrt_le_1_alt; nra.
  - apply neqb_false in Hlen.
    assert (HC : C = 0) by nra. assert (HD : D = 0) by nra.
    split; [lra|]. rewrite HC, HD, !Rminus_0_r. lra.
Qed.

Lemma isCarOnRoad_within (car : Car.t) (roadPath : list Point.t) (d : R) :
  In d (map (fun s => spec_segmentDistance car (fst s) (snd s)) (segments roadPath)) ->
  d < ROAD_WIDTH / 2 - 20 ->
  isCarOnRoad car roadPath = true.
Proof.
  intros Hin Hd.
  unfold isCarOnRoad, isCarOnRoad_with. fold closestSegment.
  rewrite closestSegment_minimum. unfold spec_minDistance.
  destruct (minimum _) as [m|] eqn:Hm.
  - cbn [Math_min xltb]. apply ltb_true.
    pose proof (minimum_le _ _ _ Hm Hin). lra.
  - destruct (map _ (segments roadPath)); [easy|]. cbn in Hm. destruct (minimum l); discriminate.
Qed.

Lemma on_road_near_end (car : Car.t) (roadPath : list Point.t) (p : Point.t) :
  (2 <= length roadPath)%nat -> In p roadPath ->
  distanceTo car (Point.x p) (Point.y p) < ROAD_WIDTH / 2 - 20 ->
  isCarOnRoad car roadPath = true.
Proof.
  intros Hlen Hin Hnear.
  destruct (segments_ends roadPath p Hlen Hin) as ([p1 p2] & Hs & Hend).
  apply (isCarOnRoad_within car roadPath (spec_segmentDistance car p1 p2)).
  - apply (in_map (fun s => spec_segmentDistance car (fst s) (snd s)) _ _ Hs).
  - destruct (spec_segmentDistance_le_ends car p1 p2) as [H1 H2].
    cbn [fst snd] in Hend. destruct Hend as [-> | ->]; lra.
Qed.

Lemma nearbyCar_on_road : isCarOnRoad nearbyCar straightRoad = true.
Proof.
  apply (on_road_near_end nearbyCar straightRoad (Point.mk 400 0)).
  - simpl. lia.
  - simpl. auto.
  - unfold distanceTo, nearbyCar, ROAD_WIDTH. cbn [Car.x Car.y Point.x Point.y].
    apply sqrt_lt_bound; [apply sum_squares_nonneg|lra|lra].
Qed.

(** X3.  On a road of at least two points, with moderate coordinates, a
    car whose distance from some point of the path is below ROAD_WIDTH / 2 -
    20 = 180 by at least [tolerance] is on the road: the distance to a
    segment is never more than the distance to either of its ends. *)
Theorem isCarOnRoad_near_a_path_point (car : Car.t) (roadPath : list Point.t) (p : Point.t) :
  (2 <= length roadPath)%nat -> In p roadPath ->
  moderateCar car -> Forall moderatePoint roadPath ->
  distanceTo car (Point.x p) (Point.y p) <= ROAD_WIDTH / 2 - 20 - tolerance ->
  isCarOnRoad car roadPath = true.
Proof.
  intros Hlen Hin _ _ Hnear.
  apply (on_road_near_end car roadPath p Hlen Hin).
  unfold tolerance in Hnear. lra.
Qed.

Lemma isCarOnRoad_near_a_path_point_witness :
  (2 <= length straightRoad)%nat /\ In (Point.mk 400 0) straightRoad /\
  moderateCar nearbyCar /\ Forall moderatePoint straightRoad /\
  isCarOnRoad nearbyCar straightRoad = true.
Proof.
  assert (Hlen : (2 <= length straightRoad)%nat) by (simpl; lia).
  assert (Hin : In (Point.mk 400 0) straightRoad) by (simpl; auto).
  assert (Hcar : moderateCar nearbyCar) by (split; apply moderate_small; cbn; lra).
  split; [exact Hlen|]. split; [exact Hin|]. split; [exact Hcar|].
  split; [exact straightRoad_moderate|].
  apply (isCarOnRoad_near_a_path_point nearbyCar straightRoad (Point.mk 400 0)
           Hlen Hin Hcar straightRoad_moderate).
  unfold distanceTo, nearbyCar, ROAD_WIDTH, tolerance. cbn [Car.x Car.y Point.x Point.y].
  apply sqrt_le_bound; lra.
Defined.

Lemma on_road_inside (car : Car.t) (roadPath : list Point.t) :
  Forall inBounds roadPath ->
  isCarOnRoad car roadPath = true ->
  20 < Car.x car < CANVAS_WIDTH - 20.
Proof.
  intros Hb Hon.
  unfold isCarOnRoad, isCarOnRoad_with in Hon. fold closestSegment in Hon.
  rewrite closestSegment_minimum in Hon. unfold spec_minDistance in Hon.
  destruct (minimum _) as [m|] eqn:Hm; [|discriminate].
  cbn [Math_min xltb] in Hon. apply ltb_true in Hon.
  apply minimum_In in Hm. apply in_map_iff in Hm.
  destruct Hm as ([p1 p2] & Hdist & Hs). cbn [fst snd] in Hdist.
  destruct (segments_In _ _ Hs) as [H1 H2]. cbn [fst snd] in H1, H2.
  rewrite Forall_forall in Hb. pose proof (Hb p1 H1) as B1. pose proof (Hb p2 H2) as B2.
  unfold inBounds, ROAD_WIDTH, CANVAS_WIDTH in B1, B2.
  destruct (spec_segmentDistance_point car p1 p2) as (t & Ht & Heq).
  rewrite Hdist in Heq. unfold distanceTo in Heq.
  set (dx := Car.x car - (Point.x p1 + t * (Point.x p2 - Point.x p1))) in *.
  set (dy := Car.y car - (Point.y p1 + t * (Point.y p2 - Point.y p1))) in *.
  assert (Hm0 : 0 <= m) by (rewrite Heq; apply sqrt_pos).
  assert (Hsq : m * m = dx * dx + dy * dy).
  { rewrite Heq. apply sqrt_sqrt. apply sum_squares_nonneg. }
  assert (Hdx : - m <= dx <= m).
  { pose proof (Rle_0_sqr dy) as Hy. unfold Rsqr in Hy. split; nra. }
  unfold ROAD_WIDTH in Hon. unfold CANVAS_WIDTH.
  assert (Hxx : 200 <= Point.x p1 + t * (Point.x p2 - Point.x p1) <= 600) by (split; nra).
  unfold dx in Hdx. split; lra.
Qed.

(** X4.  A car that is on a road whose points all have their x within
    [200, 600] is more than 20 inside the canvas on either side: its x is
    strictly between 20 and CANVAS_WIDTH - 20 = 780. *)
Theorem isCarOnRoad_inside_canvas (car : Car.t) (roadPath : list Point.t) :
  Forall (fun p => 200 <= Point.x p <= 600) roadPath ->
  isCarOnRoad car roadPath = true ->
  20 < Car.x car < CANVAS_WIDTH - 20.
Proof.
  intros Hb. apply on_road_inside.
  eapply Forall_impl; [|exact Hb].
  intros p. unfold inBounds, ROAD_WIDTH, CANVAS_WIDTH. lra.
Qed.

Lemma isCarOnRoad_inside_canvas_witness :
  Forall (fun p => 200 <= Point.x p <= 600) straightRoad /\
  20 < Car.x nearbyCar < CANVAS_WIDTH - 20.
Proof.
  assert (Hb : Forall (fun p => 200 <= Point.x p <= 600) straightRoad).
  { repeat constructor; simpl; lra. }
  split; [exact Hb|].
  apply (isCarOnRoad_inside_canvas nearbyCar straightRoad Hb).
  exact nearbyCar_on_road.
Defined.

(** ** Further facts about a frame *)

Lemma SameGame_refl (w : World) : SameGame w w.
Proof. now constructor. Qed.

Lemma SameGame_trans (w1 w2 w3 : World) :
  SameGame w1 w2 -> SameGame w2 w3 -> SameGame w1 w3.
Proof. intros [] []. constructor; congruence. Qed.

Lemma flagged_same (b : bool) (w : World) :
  speed (flagged b w) = speed w /\ randomCalls (flagged b w) = randomCalls w.
Proof. destruct b; split; reflexivity. Qed.

Lemma steered_angle (w : World) :
  Car.angle (car (gameStateRef (steered w))) = steeredAngle (gameStateRef w) /\
  Car.speed (car (gameStateRef (steered w))) = Car.speed (car (gameStateRef w)) /\
  speed (steered w) = speed w.
Proof.
  unfold steered, steeredAngle.
  destruct (has "ArrowLeft" _), (has "ArrowRight" _); cbn; repeat split; lra.
Qed.

(** The car, the camera and the speed when the boundary checks of a running
    frame are reached. *)
Lemma Driven_motion (rnd : nat -> R) (w wd : World) (lastPoint : Point.t) :
  lastElement (roadPath (gameStateRef w)) = Some lastPoint ->
  Driven rnd w lastPoint wd ->
  let c := car (gameStateRef w) in
  let a := steeredAngle (gameStateRef w) in
  let cd := car (gameStateRef wd) in
  keysPressed (gameStateRef wd) = keysPressed (gameStateRef w) /\
  (exists newPoints,
     roadPath (gameStateRef wd) = roadPath (gameStateRef w) ++ newPoints) /\
  Car.angle cd = a /\
  Car.speed cd = speed wd /\
  if has " " (keysPressed (gameStateRef w)) then
    Car.x cd = Car.x c + cos a * MOVE_SPEED /\
    Car.y cd = Rmax (CANVAS_HEIGHT / 2) (Car.y c + sin a * MOVE_SPEED) /\
    Car.y cd - cameraOffsetY (gameStateRef wd) =
      Car.y c + sin a * MOVE_SPEED - cameraOffsetY (gameStateRef w) /\
    speed wd = MOVE_SPEED
  else
    Car.x cd = Car.x c /\ Car.y cd = Car.y c /\
    cameraOffsetY (gameStateRef wd) = cameraOffsetY (gameStateRef w) /\
    speed wd = 0.
Proof.
  intros Hlast Hd. cbn zeta.
  destruct (steered_unchanged w) as (Hkeys & Hpath & Hcoins & Hcam & Hx & Hy & _).
  destruct (steered_angle w) as (Ha & Hsp & Hspeed).
  unfold Driven in Hd. destruct (has " " _).
  - destruct Hd as (we & Hext & ->).
    assert (Hwe : keysPressed (gameStateRef we) = keysPressed (gameStateRef w) /\
                  (exists newPoints,
                     roadPath (gameStateRef we) = roadPath (gameStateRef w) ++ newPoints) /\
                  car (gameStateRef we) = car (gameStateRef (moved (steered w))) /\
                  cameraOffsetY (gameStateRef we) = cameraOffsetY (gameStateRef w) /\
                  speed we = MOVE_SPEED).
    { destruct (horizon _ _ >? _).
      - destruct Hext as ([] & pts & cs & q & Hpath' & _).
        unfold moved in *. cbn in *.
        split; [congruence|]. split; [exists pts; congruence|].
        repeat split; congruence.
      - subst we. unfold moved. cbn.
        split; [assumption|]. split; [exists []; now rewrite app_nil_r|].
        repeat split; assumption. }
    destruct Hwe as (Ekeys & Epath & Ecar & Ecam & Espeed).
    assert (Ecar' : Car.x (car (gameStateRef we)) =
                      Car.x (car (gameStateRef w)) + cos (steeredAngle (gameStateRef w)) * MOVE_SPEED /\
                    Car.y (car (gameStateRef we)) =
                      Car.y (car (gameStateRef w)) + sin (steeredAngle (gameStateRef w)) * MOVE_SPEED /\
                    Car.angle (car (gameStateRef we)) = steeredAngle (gameStateRef w) /\
                    Car.speed (car (gameStateRef we)) = MOVE_SPEED).
    { rewrite Ecar. unfold moved. cbn. rewrite Ha, Hx, Hy. repeat split; reflexivity. }
    destruct Ecar' as (Ex & Ey & Ea & Es).
    unfold recentered.
    destruct (Car.y (car (gameStateRef we)) <? CANVAS_HEIGHT / 2) eqn:Hlow;
      [apply ltb_true in Hlow|apply ltb_false in Hlow]; cbn;
      rewrite ?Ex, ?Ey, ?Ea, ?Es, ?Ecam, ?Espeed in *;
      (split; [assumption|]); (split; [assumption|]);
      repeat split; try reflexivity; try lra;
      unfold Rmax; destruct (Rle_dec _ _); lra.
  - subst wd. unfold stopped. cbn.
    split; [assumption|]. split; [exists []; now rewrite app_nil_r|].
    repeat split; try assumption; try reflexivity.
Qed.

(** ** Further facts about sessions *)

Lemma Spawned_all_uncollected (rnd : nat -> R) (n n' : nat) (a : list (R * R)) (cs : list Coin.t) :
  Spawned rnd n a cs n' -> Forall (fun c => Coin.collected c = false) cs.
Proof. induction 1; auto. Qed.

Section FurtherSessionFacts.

Variable rnd : nat -> R.

(** The initialisers, run in a world that has the defaults. *)
Lemma initialize_Fresh (w : World) :
  car (gameStateRef w) = car freshGameState ->
  keysPressed (gameStateRef w) = [] ->
  cameraOffsetY (gameStateRef w) = 0 ->
  score w = 0%Z -> speed w = 0 ->
  actionTriggeredRef w = false -> screenActionTriggeredRef w = false ->
  isPaused w = false -> isGameOver w = false ->
  returns (initializeRoad rnd ;; initializeCoins rnd) w (fun _ w' out =>
    out = [] /\ Fresh w' /\ Sound w').
Proof.
  intros Hcar Hkeys Hcam Hsc Hsp Hl Hscr Hp Ho.
  eapply returns_weaken; [apply (initialize_spec rnd w Hcar Hcam)|].
  cbn beta. intros _ w' out (-> & Hsame & Hlen & Hb & Hq & n & n' & Hspawn).
  split; [reflexivity|]. split.
  - destruct Hsame. constructor; try congruence.
    + rewrite same_car0, Hcar. reflexivity.
    + apply (Spawned_all_uncollected _ _ _ _ _ Hspawn).
    + apply Spawned_length in Hspawn. rewrite length_map in Hspawn.
      pose proof (segments_length (roadPath (gameStateRef w'))) as Hs.
      destruct (segments (roadPath (gameStateRef w'))); cbn [tl length] in *; lia.
  - eapply (initialized_Sound rnd w w'); eauto.
Qed.

Lemma handleReset_Fresh (w : World) :
  returns (handleReset rnd) w (fun _ w' out => out = [] /\ Fresh w' /\ Sound w').
Proof.
  unfold handleReset, resetGame. do 7 step.
  eapply returns_weaken; [apply initialize_Fresh; reflexivity|].
  cbn beta. intros _ w' out H. exact H.
Qed.

Lemma mount_Fresh :
  returns (mount rnd) initialWorld (fun _ w' out => out = [] /\ Fresh w' /\ Sound w').
Proof. unfold mount. apply initialize_Fresh; reflexivity. Qed.

(** The timers of a frame leave the game as it is. *)
Lemma handleScoreThresholdReached_SameGame (w : World) :
  returns handleScoreThresholdReached w (fun _ w' _ =>
    SameGame w w' /\
    keysPressed (gameStateRef w') = keysPressed (gameStateRef w) /\
    isPaused w' = isPaused w).
Proof.
  unfold handleScoreThresholdReached, returns. cbn [bind get].
  destruct (screenActionTriggeredRef w); cbn; (split; [now constructor|split; reflexivity]).
Qed.

Lemma Input_is_frame (i : Input) : i = AnimationFrame \/ i <> AnimationFrame.
Proof. destruct i; [right|right|left|right]; easy. Qed.

(** An event that is neither a frame nor the reset button. *)
Lemma dispatch_light (i : Input) (w : World) :
  i <> AnimationFrame ->
  exists w', dispatch rnd i w = Ok (tt, w', []) /\ SameGame w w' /\
             screenActionTriggeredRef w' = screenActionTriggeredRef w.
Proof.
  destruct i as [key|key| |]; intros Hi; [| |easy|]; cbn [dispatch].
  - unfold handleKeyDown. destruct (existsb _ _); eexists; (split; [reflexivity|]);
      (split; [now constructor|reflexivity]).
  - eexists. split; [reflexivity|]. split; [now constructor|reflexivity].
  - unfold handlePauseToggle. cbn [bind get]. destruct (negb _);
      eexists; (split; [reflexivity|]); (split; [now constructor|reflexivity]).
Qed.

(** What every frame keeps, every event but the reset button keeps, when it
    does not depend on the keys, the pause flag and the latch of the
    screen. *)
Lemma dispatch_keeps (P : World -> Prop) (i : Input) (w : World) :
  (forall w0 w1, SameGame w0 w1 -> P w0 -> P w1) ->
  returns (gameLoop rnd) w (fun _ w' _ => P w') ->
  P w ->
  returns (dispatch rnd i) w (fun _ w' _ => P w').
Proof.
  intros Hstable Hloop HP.
  destruct (Input_is_frame i) as [-> | Hi].
  - cbn [dispatch]. apply (animationFrame_keeps rnd P w); [|exact Hloop].
    intros w0 b HP0. apply (Hstable w0); [now constructor|exact HP0].
  - destruct (dispatch_light i w Hi) as (w' & Heq & Hsame & _).
    eapply returns_eq; [exact Heq|]. apply (Hstable w w' Hsame HP).
Qed.

Lemma session_keeps (P : World -> Prop) :
  (forall w0 w1, SameGame w0 w1 -> P w0 -> P w1) ->
  (forall w, Sound w -> P w -> returns (gameLoop rnd) w (fun _ w' _ => P w')) ->
  (forall w, returns (handleReset rnd) w (fun _ w' _ => P w')) ->
  forall (events : list Event) (w : World),
    Sound w -> P w ->
    returns (session rnd events) w (fun _ w' _ => Sound w' /\ P w').
Proof.
  intros Hstable Hloop Hreset events.
  induction events as [|e rest IH]; intros w Hsound HP; cbn [session].
  - apply returns_ret. split; assumption.
  - apply returns_bind. destruct e as [i|]; cbn [handle].
    + eapply returns_weaken.
      * apply returns_and; [apply (dispatch_Sound rnd i w Hsound)|].
        apply (dispatch_keeps P i w Hstable (Hloop w Hsound HP) HP).
      * cbn beta. intros _ w1 out1 [(Hsound1 & _) HP1].
        eapply returns_weaken; [apply (IH w1 Hsound1 HP1)|].
        cbn beta. intros _ w2 out2 H. exact H.
    + eapply returns_weaken.
      * apply returns_and; [apply (handleReset_Sound rnd w)|apply (Hreset w)].
      * cbn beta. intros _ w1 out1 [(Hsound1 & _) HP1].
        eapply returns_weaken; [apply (IH w1 Hsound1 HP1)|].
        cbn beta. intros _ w2 out2 H. exact H.
Qed.

(** An invariant of the game holds in every world that a mounted screen can
    reach. *)
Lemma reached_keeps (P : World -> Prop) :
  (forall w0 w1, SameGame w0 w1 -> P w0 -> P w1) ->
  (forall w, Sound w -> P w -> returns (gameLoop rnd) w (fun _ w' _ => P w')) ->
  (forall w, returns (handleReset rnd) w (fun _ w' _ => P w')) ->
  returns (mount rnd) initialWorld (fun _ w' _ => P w') ->
  forall events : list Event,
    exists w out, reached rnd events = Ok (tt, w, out) /\ Sound w /\ P w.
Proof.
  intros Hstable Hloop Hreset Hmount events.
  assert (H : returns (mount rnd ;; session rnd events) initialWorld
                (fun _ w _ => Sound w /\ P w)).
  { apply returns_bind.
    eapply returns_weaken; [apply returns_and; [apply (mount_Sound rnd)|exact Hmount]|].
    cbn beta. intros _ w1 out1 [(Hsound1 & _) HP1].
    eapply returns_weaken; [apply (session_keeps P Hstable Hloop Hreset events w1 Hsound1 HP1)|].
    cbn beta. intros _ w2 out2 H. exact H. }
  apply returns_ok in H. destruct H as ([] & w & out & Heq & Hsound & HP).
  exists w, out. auto.
Qed.

(** The same for an invariant that follows from the defaults. *)
Lemma reached_keeps_Fresh (P : World -> Prop) :
  (forall w0 w1, SameGame w0 w1 -> P w0 -> P w1) ->
  (forall w, Sound w -> P w -> returns (gameLoop rnd) w (fun _ w' _ => P w')) ->
  (forall w, Fresh w -> P w) ->
  forall events : list Event,
    exists w out, reached rnd events = Ok (tt, w, out) /\ Sound w /\ P w.
Proof.
  intros Hstable Hloop Hfresh. apply reached_keeps; auto.
  - intros w. eapply returns_weaken; [apply (handleReset_Fresh w)|].
    cbn beta. intros _ w' out (_ & Hf & _). auto.
  - eapply returns_weaken; [apply mount_Fresh|].
    cbn beta. intros _ w' out (_ & Hf & _). auto.
Qed.

(** A relation between the world before and after, that every event but the
    reset button establishes, holds along a game. *)
Lemma play_relates (Rel : World -> World -> Prop) :
  (forall w, Rel w w) ->
  (forall w1 w2 w3, Rel w1 w2 -> Rel w2 w3 -> Rel w1 w3) ->
  (forall i w, Sound w -> returns (dispatch rnd i) w (fun _ w' _ => Rel w w')) ->
  forall (inputs : list Input) (w : World),
    Sound w -> returns (play rnd inputs) w (fun _ w' _ => Rel w w').
Proof.
  intros Hrefl Htrans Hstep inputs.
  induction inputs as [|i rest IH]; intros w Hsound; cbn [play].
  - apply returns_ret. apply Hrefl.
  - apply returns_bind.
    eapply returns_weaken.
    + apply returns_and; [apply (dispatch_Sound rnd i w Hsound)|apply (Hstep i w Hsound)].
    + cbn beta. intros _ w1 out1 [(Hsound1 & _) H1].
      eapply returns_weaken; [apply (IH w1 Hsound1)|].
      cbn beta. intros _ w2 out2 H2. apply (Htrans w w1 w2 H1 H2).
Qed.

End FurtherSessionFacts.

(** ** Reset, game over and pause *)

Section HaltTheorems.

Variable rnd : nat -> R.

(** X5.  The reset button, pressed in any world, and the mount of the
    screen both end without a signal in a world that has every default: the
    car at (CANVAS_WIDTH / 2, CANVAS_HEIGHT - 100) pointing up with speed 0,
    no key pressed (a key held down during the reset is forgotten), camera
    offset 0, a road of 16 points, at most 14 coins and none collected,
    score 0, speed 0, both milestone latches clear, not paused, not over. *)
Theorem handleReset_restores_defaults :
  (forall w : World,
     exists w', handleReset rnd w = Ok (tt, w', []) /\ Fresh w') /\
  (exists w', mount rnd initialWorld = Ok (tt, w', []) /\ Fresh w').
Proof.
  split.
  - intros w. pose proof (handleReset_Fresh rnd w) as H. apply returns_ok in H.
    destruct H as ([] & w' & out & Heq & -> & Hf & _). exists w'. auto.
  - pose proof (mount_Fresh rnd) as H. apply returns_ok in H.
    destruct H as ([] & w' & out & Heq & -> & Hf & _). exists w'. auto.
Qed.

Lemma animationFrame_halted (w : World) :
  isPaused w || isGameOver w = true -> animationFrame rnd w = Ok (tt, w, []).
Proof.
  intros Hhalt. unfold animationFrame, gameLoop, bind, listen.
  rewrite (gameLoop_halted rnd isCarOnRoad checkCollision w Hhalt). reflexivity.
Qed.

(** X6.  Once the game is over, no key, frame or pause click changes
    anything but the set of pressed keys, and nothing is signalled: the car,
    the coins, the road, the camera, the score, the speed shown, both
    latches, the pause flag and the game-over flag stay as they are, until
    the reset button is pressed. *)
Theorem game_over_is_final (inputs : list Input) (w : World) :
  isGameOver w = true ->
  exists w',
    play rnd inputs w = Ok (tt, w', []) /\
    SameGame w w' /\
    screenActionTriggeredRef w' = screenActionTriggeredRef w /\
    isPaused w' = isPaused w /\
    isGameOver w' = true.
Proof.
  revert w. induction inputs as [|i rest IH]; intros w Hover; cbn [play].
  - exists w. split; [reflexivity|]. split; [apply SameGame_refl|auto].
  - assert (Hi : exists w1, dispatch rnd i w = Ok (tt, w1, []) /\ SameGame w w1 /\
                   screenActionTriggeredRef w1 = screenActionTriggeredRef w /\
                   isPaused w1 = isPaused w).
    { destruct i as [key|key| |]; cbn [dispatch].
      - destruct (dispatch_light rnd (KeyDown key) w) as (w1 & Heq & Hsame & Hscr); [easy|].
        exists w1. cbn [dispatch] in Heq. split; [exact Heq|]. split; [exact Hsame|].
        split; [exact Hscr|]. unfold handleKeyDown in Heq.
        destruct (existsb _ _); cbn in Heq; injection Heq as <-; reflexivity.
      - eexists. split; [reflexivity|]. split; [now constructor|]. split; reflexivity.
      - exists w. split; [apply animationFrame_halted; rewrite Hover; apply orb_true_r|].
        split; [apply SameGame_refl|]. split; reflexivity.
      - exists w. unfold handlePauseToggle. cbn [bind get]. rewrite Hover. cbn.
        split; [reflexivity|]. split; [apply SameGame_refl|]. split; reflexivity. }
    destruct Hi as (w1 & Heq1 & Hsame1 & Hscr1 & Hp1).
    assert (Hover1 : isGameOver w1 = true) by (rewrite (game_isGameOver _ _ Hsame1); exact Hover).
    destruct (IH w1 Hover1) as (w2 & Heq2 & Hsame2 & Hscr2 & Hp2 & Hover2).
    exists w2. unfold bind. rewrite Heq1, Heq2.
    split; [reflexivity|]. split; [eapply SameGame_trans; eauto|].
    split; [congruence|]. split; [congruence|assumption].
Qed.

(** X7.  Pausing freezes the game: in a game that is not over, a click on
    the pause button, any number of frames and a second click on the pause
    button leave the world exactly as it was and signal nothing. *)
Theorem pause_then_resume (n : nat) (w : World) :
  isGameOver w = false -> isPaused w = false ->
  play rnd (PauseClick :: repeat AnimationFrame n ++ [PauseClick]) w = Ok (tt, w, []).
Proof.
  intros Hover Hp.
  assert (Hframes : forall wp, isPaused wp = true ->
            forall k rest, play rnd (repeat AnimationFrame k ++ rest) wp = play rnd rest wp).
  { intros wp Hwp k rest. induction k as [|k IH]; [reflexivity|].
    cbn [repeat app play dispatch]. unfold bind at 1.
    rewrite (animationFrame_halted wp) by (rewrite Hwp; reflexivity).
    rewrite IH. destruct (play rnd rest wp) as [[[u w'] out]|]; reflexivity. }
  cbn [play dispatch]. unfold handlePauseToggle at 1. unfold bind at 1.
  cbn [bind get]. rewrite Hover, Hp. cbn [negb when setIsPaused modify].
  rewrite (Hframes (with_isPaused true w) eq_refl n [PauseClick]).
  cbn [play dispatch]. unfold handlePauseToggle, bind, get.
  cbn [isGameOver isPaused with_isPaused]. rewrite Hover.
  cbn [negb when setIsPaused modify ret app].
  destruct w as [s sc sp l p o scr rc]. cbn in Hp. subst p. reflexivity.
Qed.

End HaltTheorems.

Lemma game_over_is_final_witness :
  isGameOver endedWorld = true /\
  exists w',
    play evenDraws [KeyDown " "; AnimationFrame; PauseClick; KeyUp " "] endedWorld
      = Ok (tt, w', []) /\
    SameGame endedWorld w'.
Proof.
  split; [reflexivity|].
  destruct (game_over_is_final evenDraws
              [KeyDown " "; AnimationFrame; PauseClick; KeyUp " "] endedWorld eq_refl)
    as (w' & Heq & Hsame & _).
  exists w'. split; [exact Heq|exact Hsame].
Defined.

Lemma pause_then_resume_witness :
  isGameOver parkedWorld = false /\ isPaused parkedWorld = false /\
  play evenDraws (PauseClick :: repeat AnimationFrame 3 ++ [PauseClick]) parkedWorld
    = Ok (tt, parkedWorld, []).
Proof.
  split; [reflexivity|]. split; [reflexivity|].
  apply (pause_then_resume evenDraws 3 parkedWorld); reflexivity.
Defined.

(** ** What a frame does to the car, the road and the coins *)

Lemma Kept_refl (coin : Coin.t) : Kept coin coin.
Proof. unfold Kept. auto. Qed.

Lemma Forall2_Kept_refl (cs : list Coin.t) : Forall2 Kept cs cs.
Proof. induction cs; constructor; auto using Kept_refl. Qed.

Lemma Forall2_Kept_trans (a b c : list Coin.t) :
  Forall2 Kept a b -> Forall2 Kept b c -> Forall2 Kept a c.
Proof.
  intros Hab. revert c. induction Hab as [|x y a b Hxy Hab IH]; intros c Hbc.
  - inversion Hbc. constructor.
  - inversion Hbc as [|y' z b' c' Hyz Hbc' E1 E2]. subst.
    constructor; [|now apply IH].
    destruct Hxy as (X1 & Y1 & C1), Hyz as (X2 & Y2 & C2).
    unfold Kept. repeat split; try congruence. auto.
Qed.

Lemma Visited_Kept (collide : Car.t -> R -> R -> bool) (s : GameState) (coin coin' : Coin.t) :
  Visited collide s coin coin' -> Kept coin coin'.
Proof.
  intros [-> | (Hc & _ & _ & ->)]; [apply Kept_refl|].
  unfold Kept. cbn. repeat split; congruence.
Qed.

Lemma Onward_refl (w : World) : Onward w w.
Proof.
  constructor.
  - exists []. now rewrite app_nil_r.
  - lra.
  - exists (coins (gameStateRef w)), []. rewrite app_nil_r.
    split; [reflexivity|apply Forall2_Kept_refl].
Qed.

Lemma Onward_trans (w1 w2 w3 : World) : Onward w1 w2 -> Onward w2 w3 -> Onward w1 w3.
Proof.
  intros [(p1 & Hp1) Hc1 (k1 & n1 & Hk1 & Hf1)] [(p2 & Hp2) Hc2 (k2 & n2 & Hk2 & Hf2)].
  constructor.
  - exists (p1 ++ p2). rewrite Hp2, Hp1. now rewrite app_assoc.
  - lra.
  - rewrite Hk1 in Hf2. apply Forall2_app_inv_l in Hf2.
    destruct Hf2 as (k2a & k2b & Hfa & _ & ->).
    exists k2a, (k2b ++ n2). rewrite Hk2, <- app_assoc.
    split; [reflexivity|]. eapply Forall2_Kept_trans; eauto.
Qed.

Lemma SameGame_Onward (w w' : World) : SameGame w w' -> Onward w w'.
Proof.
  intros []. constructor.
  - exists []. now rewrite app_nil_r.
  - lra.
  - exists (coins (gameStateRef w')), []. rewrite app_nil_r.
    split; [reflexivity|]. rewrite game_coins0. apply Forall2_Kept_refl.
Qed.

Section MotionTheorems.

Variable rnd : nat -> R.

(** X8.  A running frame on a non-empty road returns, and: the pressed keys
    stay; the car's angle goes down by TURN_SPEED if the left arrow is
    pressed and up by TURN_SPEED if the right arrow is; with the space bar
    pressed the car advances by MOVE_SPEED along that new angle, the part of
    the move that would take it above mid-height is given to the camera (the
    car's y is the maximum of CANVAS_HEIGHT / 2 and the advanced y, and y
    minus camera offset advances by the full step), and the car's speed and
    the speed shown are MOVE_SPEED; without the space bar the car and the
    camera stay where they are and both speeds are 0. *)
Theorem gameLoop_drives_the_car (w : World) :
  isPaused w = false -> isGameOver w = false ->
  roadPath (gameStateRef w) <> [] ->
  exists w' out,
    gameLoop rnd w = Ok (tt, w', out) /\
    let c := car (gameStateRef w) in
    let a := steeredAngle (gameStateRef w) in
    let c' := car (gameStateRef w') in
    keysPressed (gameStateRef w') = keysPressed (gameStateRef w) /\
    Car.angle c' = a /\
    if has " " (keysPressed (gameStateRef w)) then
      Car.x c' = Car.x c + cos a * MOVE_SPEED /\
      Car.y c' = Rmax (CANVAS_HEIGHT / 2) (Car.y c + sin a * MOVE_SPEED) /\
      Car.y c' - cameraOffsetY (gameStateRef w') =
        Car.y c + sin a * MOVE_SPEED - cameraOffsetY (gameStateRef w) /\
      Car.speed c' = MOVE_SPEED /\ speed w' = MOVE_SPEED
    else
      Car.x c' = Car.x c /\ Car.y c' = Car.y c /\
      cameraOffsetY (gameStateRef w') = cameraOffsetY (gameStateRef w) /\
      Car.speed c' = 0 /\ speed w' = 0.
Proof.
  intros Hp Ho Hne.
  destruct (gameLoop_frame rnd isCarOnRoad checkCollision w Hp Ho Hne)
    as (lastPoint & wd & w' & outc & Hlast & Hd & _ & Heq & Hstep & (cs' & Hstate) & _ & _).
  cbn zeta in *.
  eexists w', _. split; [exact Heq|]. cbn zeta.
  destruct (Driven_motion rnd w wd lastPoint Hlast Hd) as (Dkeys & _ & Da & Dsp & Dmove).
  cbn zeta in *.
  assert (Hspeed : speed w' = speed wd).
  { rewrite (step_speed _ _ _ Hstep).
    match goal with |- speed (flagged ?b2 (flagged ?b1 wd)) = _ =>
      rewrite (proj1 (flagged_same b2 (flagged b1 wd))), (proj1 (flagged_same b1 wd))
    end. reflexivity. }
  rewrite Hstate. cbn [car keysPressed cameraOffsetY with_coins].
  split; [exact Dkeys|]. split; [exact Da|].
  destruct (has " " _).
  - destruct Dmove as (Mx & My & Mw & Ms). repeat split; congruence.
  - destruct Dmove as (Mx & My & Mc & Ms). repeat split; congruence.
Qed.

(** In a world that satisfies the invariants a frame goes onward. *)
Lemma gameLoop_Onward (w : World) :
  Sound w -> returns (gameLoop rnd) w (fun _ w' _ => Onward w w').
Proof.
  intros [Hsteady _].
  destruct (isPaused w || isGameOver w) eqn:Hhalt.
  { eapply returns_eq;
      [exact (gameLoop_halted rnd isCarOnRoad checkCollision w Hhalt)|]. apply Onward_refl. }
  apply orb_false_elim in Hhalt. destruct Hhalt as [Hp Ho].
  assert (Hne : roadPath (gameStateRef w) <> []).
  { pose proof (steady_length _ Hsteady). destruct (roadPath (gameStateRef w)); [cbn in *; lia|easy]. }
  destruct (gameLoop_frame rnd isCarOnRoad checkCollision w Hp Ho Hne)
    as (lastPoint & wd & w' & outc & Hlast & Hd & _ & Heq & _ & (cs' & Hstate) & Hvisit & _).
  cbn zeta in *.
  eapply returns_eq; [exact Heq|].
  destruct (Driven_motion rnd w wd lastPoint Hlast Hd) as (_ & (pts & Dpath) & _ & _ & Dmove).
  cbn zeta in *.
  destruct (Driven_fields rnd w wd lastPoint Hlast Hd) as (_ & _ & _ & newCoins & Dcoins & _).
  constructor.
  - exists pts. rewrite Hstate. cbn [roadPath with_coins]. exact Dpath.
  - rewrite Hstate. cbn [cameraOffsetY with_coins].
    destruct (has " " _).
    + destruct Dmove as (_ & My & Mw & _).
      pose proof (Rmax_r (CANVAS_HEIGHT / 2)
        (Car.y (car (gameStateRef w)) + sin (steeredAngle (gameStateRef w)) * MOVE_SPEED)).
      lra.
    + destruct Dmove as (_ & _ & Mc & _). lra.
  - rewrite Dcoins in Hvisit. apply Forall2_app_inv_l in Hvisit.
    destruct Hvisit as (kept & rest & Hk & _ & Hw').
    exists kept, rest. split; [exact Hw'|].
    eapply Forall2_impl; [|exact Hk]. intros a b. apply Visited_Kept.
Qed.

Lemma dispatch_Onward (i : Input) (w : World) :
  Sound w -> returns (dispatch rnd i) w (fun _ w' _ => Onward w w').
Proof.
  intros Hsound. apply dispatch_keeps.
  - intros w0 w1 Hsame H. eapply Onward_trans; [exact H|]. now apply SameGame_Onward.
  - apply gameLoop_Onward. exact Hsound.
  - apply Onward_refl.
Qed.

Lemma play_Onward (inputs : list Input) (w : World) :
  Sound w -> returns (play rnd inputs) w (fun _ w' _ => Onward w w').
Proof.
  apply (play_relates rnd Onward Onward_refl Onward_trans). apply dispatch_Onward.
Qed.

Lemma reached_camera (events : list Event) :
  exists w out,
    reached rnd events = Ok (tt, w, out) /\ Sound w /\
    0 <= cameraOffsetY (gameStateRef w).
Proof.
  apply (reached_keeps_Fresh rnd (fun w => 0 <= cameraOffsetY (gameStateRef w))).
  - intros w0 w1 [] H. lra.
  - intros w Hsound H. eapply returns_weaken; [apply (gameLoop_Onward w Hsound)|].
    cbn beta. intros _ w' _ []. lra.
  - intros w []. lra.
Qed.

(** X9.  In every world that a mounted screen can reach the camera offset
    is not negative, and whatever keys, frames and pause clicks follow, the
    game goes on without a [TypeError], the road keeps all its points and
    only gets new ones at its end, and the camera offset does not go down:
    only the reset button shortens the road or moves the camera back. *)
Theorem road_and_camera_only_advance (events : list Event) (inputs : list Input) :
  exists w out,
    reached rnd events = Ok (tt, w, out) /\
    0 <= cameraOffsetY (gameStateRef w) /\
    exists w' out' newPoints,
      play rnd inputs w = Ok (tt, w', out') /\
      roadPath (gameStateRef w') = roadPath (gameStateRef w) ++ newPoints /\
      cameraOffsetY (gameStateRef w) <= cameraOffsetY (gameStateRef w').
Proof.
  destruct (reached_camera events) as (w & out & Heq & Hsound & Hcam).
  exists w, out. split; [exact Heq|]. split; [exact Hcam|].
  pose proof (play_Onward inputs w Hsound) as H. apply returns_ok in H.
  destruct H as ([] & w' & out' & Hplay & [(pts & Hpath) Hc _]).
  exists w', out', pts. auto.
Qed.

(** X10.  In every world that a mounted screen can reach, whatever keys,
    frames and pause clicks follow, the coins of that world are still in the
    list afterwards, at the same indices, each at the same place, and each
    one that was collected is still collected; coins that were added since
    come after them. *)
Theorem coins_are_kept (events : list Event) (inputs : list Input) :
  exists w out w' out' kept newCoins,
    reached rnd events = Ok (tt, w, out) /\
    play rnd inputs w = Ok (tt, w', out') /\
    coins (gameStateRef w') = kept ++ newCoins /\
    Forall2 Kept (coins (gameStateRef w)) kept.
Proof.
  destruct (reached_Sound rnd events) as (w & out & Heq & Hsound).
  pose proof (play_Onward inputs w Hsound) as H. apply returns_ok in H.
  destruct H as ([] & w' & out' & Hplay & [_ _ (kept & newCoins & Hk & Hf)]).
  exists w, out, w', out', kept, newCoins. auto.
Qed.

End MotionTheorems.

(** ** The shape of the road *)

Lemma segments_snoc (path : list Point.t) (a q : Point.t) :
  lastElement path = Some a -> segments (path ++ [q]) = segments path ++ [(a, q)].
Proof.
  induction path as [|p1 rest IH]; [discriminate|].
  destruct rest as [|p2 rest'].
  - intros H. injection H as ->. reflexivity.
  - intros H. change (lastElement (p1 :: p2 :: rest')) with (lastElement (p2 :: rest')) in H.
    change ((p1 :: p2 :: rest') ++ [q]) with (p1 :: p2 :: (rest' ++ [q])).
    change (segments (p1 :: p2 :: rest' ++ [q]))
      with ((p1, p2) :: segments ((p2 :: rest') ++ [q])).
    rewrite (IH H). reflexivity.
Qed.

Lemma lastElement_In {A : Type} (l : list A) (a : A) : lastElement l = Some a -> In a l.
Proof.
  intros H. apply nth_error_last in H. now apply nth_error_In in H.
Qed.

(** One more point, as both generators compute it. *)
Lemma Shaped_snoc (path : list Point.t) (cx cy d : R) :
  Shaped path -> lastElement path = Some (Point.mk cx cy) ->
  d = 0 \/ d = 1 \/ d = -1 ->
  Shaped (path ++ [Point.mk (keepWithinBounds (cx + d * (SEGMENT_WIDTH * (8 / 10))))
                            (cy - SEGMENT_WIDTH)]).
Proof.
  intros (Hhead & Hb & Hl) Hlast Hd.
  assert (Hcx : inBounds (Point.mk cx cy)).
  { rewrite Forall_forall in Hb. apply Hb. now apply lastElement_In. }
  unfold inBounds in Hcx. cbn [Point.x] in Hcx.
  split; [|split].
  - destruct path; [discriminate|exact Hhead].
  - apply Forall_app. split; [assumption|].
    constructor; [apply keepWithinBounds_inBounds|constructor].
  - rewrite (segments_snoc _ _ _ Hlast). apply Forall_app. split; [assumption|].
    constructor; [|constructor]. unfold Linked. cbn [fst snd Point.x Point.y].
    split; [reflexivity|].
    unfold keepWithinBounds, ROAD_WIDTH, CANVAS_WIDTH, SEGMENT_WIDTH, Rmax, Rmin in *.
    destruct Hd as [-> | [-> | ->]]; repeat destruct (Rle_dec _ _); lra.
Qed.

Lemma Shaped_levels (path : list Point.t) :
  Shaped path ->
  forall i p, nth_error path i = Some p ->
    Point.y p = CANVAS_HEIGHT - INR i * SEGMENT_WIDTH.
Proof.
  intros (Hhead & _ & Hl) i. induction i as [|i IH]; intros p Hp.
  - rewrite Hhead in Hp. injection Hp as <-. cbn. lra.
  - destruct (nth_error_defined path i) as [a Ha].
    { assert (S i < length path)%nat by (apply nth_error_Some; congruence). lia. }
    pose proof (segments_nth path i a p Ha Hp) as Hs. apply nth_error_In in Hs.
    rewrite Forall_forall in Hl. destruct (Hl _ Hs) as [Hy _]. cbn [fst snd] in Hy.
    rewrite Hy, (IH a Ha), S_INR. lra.
Qed.

Lemma returns_then {A B : Type} (I : World -> Prop) (m : M A) (f : A -> M B) (w : World)
      (Q : B -> World -> Prop) :
  returns m w (fun _ w1 _ => I w1) ->
  (forall a w1, I w1 -> returns (f a) w1 (fun b w2 _ => Q b w2)) ->
  returns (bind m f) w (fun b w2 _ => Q b w2).
Proof.
  intros Hm Hf. apply returns_bind.
  eapply returns_weaken; [exact Hm|]. cbn beta. intros a w1 _ HI.
  eapply returns_weaken; [apply (Hf a w1 HI)|]. cbn beta. auto.
Qed.

(** A step that pushes onto the road or the coins. *)
Ltac push := apply returns_bind; apply returns_modify; cbn beta.

Section ShapeFacts.

Variable rnd : nat -> R.

Lemma returns_chooseDirection (turn : bool) (w : World) (Q : R -> World -> list Signal -> Prop) :
  (forall d n, d = 0 \/ d = 1 \/ d = -1 -> Q d (with_randomCalls n w) []) ->
  Q 0 w [] ->
  returns (chooseDirection rnd turn) w Q.
Proof.
  intros Hturn Hstraight. unfold chooseDirection, returns. destruct turn.
  - cbn [bind Math_random ret app]. destruct (_ >? _); apply Hturn; auto.
  - exact Hstraight.
Qed.

Lemma returns_random (w : World) (Q : R -> World -> list Signal -> Prop) :
  Q (rnd (randomCalls w)) (with_randomCalls (S (randomCalls w)) w) [] ->
  returns (Math_random rnd) w Q.
Proof. exact (fun H => H). Qed.

Lemma initializeRoad_Shaped (w : World) :
  returns (initializeRoad rnd) w (fun _ w' _ => Shaped (roadPath (gameStateRef w'))).
Proof.
  unfold initializeRoad. step. push.
  apply returns_bind.
  pose (Inv := fun (j : nat) (acc : R * R) (w' : World) (out : list Signal) =>
    Shaped (roadPath (gameStateRef w')) /\
    lastElement (roadPath (gameStateRef w')) = Some (Point.mk (fst acc) (snd acc))).
  eapply returns_weaken.
  - apply (forLoop_invariant Inv _ 15 0 _ _ []).
    + unfold Inv. cbn. split; [|reflexivity].
      split; [reflexivity|]. split; [|constructor].
      constructor; [|constructor]. unfold inBounds, ROAD_WIDTH, CANVAS_WIDTH. cbn. lra.
    + intros j [cx cy] w1 out _ [Hshaped Hlast]. cbn [fst snd] in *. cbn beta iota.
      apply returns_bind. apply returns_chooseDirection.
      * intros d n Hd. cbn beta. push. apply returns_ret. unfold Inv. fields.
        split; [now apply Shaped_snoc|apply lastElement_snoc].
      * cbn beta. push. apply returns_ret. unfold Inv. fields.
        split; [apply Shaped_snoc; auto|apply lastElement_snoc].
  - cbn beta. intros acc w' out [Hshaped _]. apply returns_ret. exact Hshaped.
Qed.

Lemma extendRoad_Shaped (w : World) :
  Shaped (roadPath (gameStateRef w)) ->
  returns (extendRoad rnd) w (fun _ w' _ => Shaped (roadPath (gameStateRef w'))).
Proof.
  intros Hshaped. unfold extendRoad. step.
  assert (Hne : roadPath (gameStateRef w) <> []).
  { destruct Hshaped as [Hhead _]. destruct (roadPath (gameStateRef w)); [discriminate|easy]. }
  destruct (lastElement_nonempty _ Hne) as [lastPoint Hlast].
  apply returns_bind. apply (returns_defined _ lastPoint); [exact Hlast|]. cbn beta.
  apply returns_bind.
  pose (Inv := fun (j : nat) (acc : R * R) (w' : World) (out : list Signal) =>
    Shaped (roadPath (gameStateRef w')) /\
    lastElement (roadPath (gameStateRef w')) = Some (Point.mk (fst acc) (snd acc))).
  eapply returns_weaken.
  - apply (forLoop_invariant Inv _ 5 0 _ w []).
    + unfold Inv. cbn [fst snd]. split; [assumption|]. rewrite Hlast. now destruct lastPoint.
    + intros j [cx cy] w1 out _ [Hshaped1 Hlast1]. cbn [fst snd] in *. cbn beta iota.
      assert (Hcoin : forall (d : R) (w2 : World),
        d = 0 \/ d = 1 \/ d = -1 ->
        roadPath (gameStateRef w2) = roadPath (gameStateRef w1) ->
        returns
          (pushRoad (Point.mk (keepWithinBounds (cx + d * (SEGMENT_WIDTH * (8 / 10))))
                              (cy - SEGMENT_WIDTH)) ;;
           r <- Math_random rnd ;;
           (if r >? 4 / 10 then
              r' <- Math_random rnd ;;
              pushCoin (Coin.mk (keepWithinBounds (cx + d * (SEGMENT_WIDTH * (8 / 10)))
                                 + (r' - 5 / 10) * 40) (cy - SEGMENT_WIDTH) false)
            else ret tt) ;;
           ret (keepWithinBounds (cx + d * (SEGMENT_WIDTH * (8 / 10))), cy - SEGMENT_WIDTH))
          w2 (fun acc' w' o => Inv (S j) acc' w' (out ++ o))).
      { intros d w2 Hd Hpath. push. apply returns_bind. apply returns_random. cbn beta.
        destruct (_ >? _).
        - apply returns_bind. apply returns_bind. apply returns_random. cbn beta.
          apply returns_modify. apply returns_ret. unfold Inv. fields. rewrite Hpath.
          split; [now apply Shaped_snoc|apply lastElement_snoc].
        - step. apply returns_ret. unfold Inv. fields. rewrite Hpath.
          split; [now apply Shaped_snoc|apply lastElement_snoc]. }
      apply returns_bind. apply returns_chooseDirection.
      * intros d n Hd. cbn beta. eapply returns_weaken; [apply (Hcoin d); auto|].
        cbn beta. intros acc' w' o H. now rewrite app_nil_l.
      * cbn beta. eapply returns_weaken; [apply (Hcoin 0); auto|].
        cbn beta. intros acc' w' o H. now rewrite app_nil_l.
  - cbn beta. intros acc w' out [Hshaped' _]. apply returns_ret. exact Hshaped'.
Qed.

(** A frame changes the road through [extendRoad] only. *)
Lemma gameLoop_road (P : list Point.t -> Prop)
      (onRoad : Car.t -> list Point.t -> bool) (collide : Car.t -> R -> R -> bool)
      (w : World) :
  (forall path, P path -> path <> []) ->
  (forall w0, P (roadPath (gameStateRef w0)) ->
     returns (extendRoad rnd) w0 (fun _ w1 _ => P (roadPath (gameStateRef w1)))) ->
  P (roadPath (gameStateRef w)) ->
  returns (gameLoop_with rnd onRoad collide) w (fun _ w' _ => P (roadPath (gameStateRef w'))).
Proof.
  intros Hne Hext HP. unfold gameLoop_with.
  set (I := fun w0 : World => P (roadPath (gameStateRef w0))).
  step. destruct (isPaused w || isGameOver w); [apply returns_ret; exact HP|].
  step.
  apply (returns_then I).
  { apply returns_when. destruct (has _ _); [apply returns_modify|]; exact HP. }
  intros _ w1 HI1.
  apply (returns_then I).
  { apply returns_when. destruct (has _ _); [apply returns_modify|]; exact HI1. }
  intros _ w2 HI2.
  step.
  apply (returns_then I).
  { destruct (has " " _).
    - step. step. step.
      destruct (lastElement_nonempty _ (Hne _ HI2)) as [lastPoint Hlast].
      apply returns_bind. apply (returns_defined _ lastPoint); [exact Hlast|]. cbn beta.
      apply (returns_then I).
      { apply returns_when. destruct (_ >? _); [|exact HI2].
        apply Hext. exact HI2. }
      intros _ w3 HI3. step.
      apply returns_when. destruct (_ <? _); [apply returns_modify|]; exact HI3.
    - step. apply returns_modify. exact HI2. }
  intros _ w3 HI3.
  step.
  apply (returns_then I).
  { apply returns_when. destruct (_ && _); [|exact HI3].
    step. apply returns_emit. exact HI3. }
  intros _ w4 HI4.
  apply (returns_then I).
  { apply returns_when. destruct (_ || _); [|exact HI4].
    step. apply returns_emit. exact HI4. }
  intros _ w5 HI5.
  apply (returns_then I).
  { apply returns_drawRoad; [exact (Hne _ HI5)|exact HI5]. }
  clear w5 HI5. intros _ w5 HI5.
  apply returns_bind.
  eapply returns_weaken; [apply (forEach_collectCoin collide)|].
  cbn beta. intros cs' w6 out (_ & Hstate & _).
  apply returns_modify. unfold I in HI5. fields. rewrite Hstate. exact HI5.
Qed.

Lemma initialize_Shaped (w : World) :
  returns (initializeRoad rnd ;; initializeCoins rnd) w
    (fun _ w' _ => Shaped (roadPath (gameStateRef w'))).
Proof.
  apply returns_bind.
  eapply returns_weaken; [apply (initializeRoad_Shaped w)|].
  cbn beta. intros _ w1 out1 Hshaped.
  eapply returns_weaken; [apply (initializeCoins_spec rnd w1)|].
  cbn beta. intros _ w2 out2 (_ & _ & Hpath & _). now rewrite Hpath.
Qed.

Lemma reached_Shaped (events : list Event) :
  exists w out,
    reached rnd events = Ok (tt, w, out) /\ Sound w /\ Shaped (roadPath (gameStateRef w)).
Proof.
  apply (reached_keeps rnd (fun w => Shaped (roadPath (gameStateRef w)))).
  - intros w0 w1 [] H. congruence.
  - intros w _ H. apply (gameLoop_road Shaped isCarOnRoad checkCollision w); [| |exact H].
    + intros path [Hhead _]. destruct path; [discriminate|easy].
    + intros w0. apply extendRoad_Shaped.
  - intros w. unfold handleReset, resetGame. do 7 step. apply initialize_Shaped.
  - unfold mount. apply initialize_Shaped.
Qed.

(** X11.  In every world that a mounted screen can reach, the road starts
    at the bottom centre of the canvas, (CANVAS_WIDTH / 2, CANVAS_HEIGHT);
    its point number i (from 0) is at height CANVAS_HEIGHT - i *
    SEGMENT_WIDTH, so each point is exactly one SEGMENT_WIDTH above the one
    before; and from one point to the next the x changes by at most
    SEGMENT_WIDTH * 0.8 = 48 either way. *)
Theorem road_climbs_in_even_steps (events : list Event) :
  exists w out,
    reached rnd events = Ok (tt, w, out) /\
    let path := roadPath (gameStateRef w) in
    nth_error path 0 = Some (Point.mk (CANVAS_WIDTH / 2) CANVAS_HEIGHT) /\
    (forall i p, nth_error path i = Some p ->
       Point.y p = CANVAS_HEIGHT - INR i * SEGMENT_WIDTH) /\
    (forall i p q, nth_error path i = Some p -> nth_error path (S i) = Some q ->
       - 48 <= Point.x q - Point.x p <= 48) /\
    SEGMENT_WIDTH * (8 / 10) = 48.
Proof.
  destruct (reached_Shaped events) as (w & out & Heq & _ & Hshaped).
  exists w, out. split; [exact Heq|]. cbn zeta.
  split; [exact (proj1 Hshaped)|]. split; [exact (Shaped_levels _ Hshaped)|].
  split; [|unfold SEGMENT_WIDTH; lra].
  intros i p q Hp Hq. destruct Hshaped as (_ & _ & Hl).
  pose proof (segments_nth _ i p q Hp Hq) as Hs. apply nth_error_In in Hs.
  rewrite Forall_forall in Hl. destruct (Hl _ Hs) as [_ Hx]. cbn [fst snd] in Hx.
  unfold SEGMENT_WIDTH in Hx. lra.
Qed.

End ShapeFacts.

(** ** The pressed keys *)

Lemma has_add (k key : string) (keys : list string) :
  has k (add key keys) = has k keys || String.eqb k key.
Proof.
  unfold add, has. destruct (existsb (String.eqb key) keys) eqn:Hin.
  - destruct (String.eqb k key) eqn:Hk; [|now rewrite orb_false_r].
    apply String.eqb_eq in Hk. subst k. now rewrite Hin.
  - rewrite existsb_app. cbn. now rewrite orb_false_r.
Qed.

Lemma has_delete (k key : string) (keys : list string) :
  has k (delete key keys) = has k keys && negb (String.eqb k key).
Proof.
  unfold delete, has. induction keys as [|a rest IH]; [reflexivity|].
  cbn [filter existsb].
  destruct (String.eqb key a) eqn:Ha; cbn [negb].
  - apply String.eqb_eq in Ha. subst a. rewrite IH.
    destruct (String.eqb k key) eqn:Hk; cbn [negb orb].
    + now rewrite !andb_false_r.
    + now rewrite !andb_true_r.
  - cbn [existsb]. rewrite IH.
    destruct (String.eqb k a) eqn:Hka; cbn [orb]; [|reflexivity].
    apply String.eqb_eq in Hka. subst a. rewrite String.eqb_sym, Ha. reflexivity.
Qed.

Section KeyTheorems.

Variable rnd : nat -> R.

Lemma gameLoop_keys (w : World) :
  Sound w ->
  returns (gameLoop rnd) w (fun _ w' _ =>
    keysPressed (gameStateRef w') = keysPressed (gameStateRef w)).
Proof.
  intros [Hsteady _].
  destruct (isPaused w || isGameOver w) eqn:Hhalt.
  { eapply returns_eq;
      [exact (gameLoop_halted rnd isCarOnRoad checkCollision w Hhalt)|]. reflexivity. }
  apply orb_false_elim in Hhalt. destruct Hhalt as [Hp Ho].
  assert (Hne : roadPath (gameStateRef w) <> []).
  { pose proof (steady_length _ Hsteady). destruct (roadPath (gameStateRef w)); [cbn in *; lia|easy]. }
  destruct (gameLoop_frame rnd isCarOnRoad checkCollision w Hp Ho Hne)
    as (lastPoint & wd & w' & outc & Hlast & Hd & _ & Heq & _ & (cs' & Hstate) & _ & _).
  cbn zeta in *.
  eapply returns_eq; [exact Heq|].
  destruct (Driven_motion rnd w wd lastPoint Hlast Hd) as (Dkeys & _).
  rewrite Hstate. exact Dkeys.
Qed.

(** What one event does to the membership of a key. *)
Lemma handle_keys (e : Event) (w : World) :
  Sound w ->
  returns (handle rnd e) w (fun _ w' _ =>
    Sound w' /\
    forall key, has key (keysPressed (gameStateRef w')) =
                pressedAfter key (has key (keysPressed (gameStateRef w))) [e]).
Proof.
  intros Hsound. destruct e as [i|]; cbn [handle].
  - apply returns_and.
    { eapply returns_weaken; [apply (dispatch_Sound rnd i w Hsound)|].
      cbn beta. intros _ w' out (H & _). exact H. }
    destruct i as [k|k| |]; cbn [dispatch pressedAfter].
    + unfold handleKeyDown.
      assert (Hc : existsb (String.eqb k) ["ArrowLeft"; "ArrowRight"; " "]%string
                   = has k gameKeys) by reflexivity.
      rewrite Hc. apply returns_when. destruct (has k gameKeys).
      * apply returns_modify. intros key. cbn [gameStateRef with_state keysPressed with_keysPressed].
        rewrite has_add. reflexivity.
      * intros key. now rewrite orb_false_r.
    + unfold handleKeyUp. apply returns_modify. intros key.
      cbn [gameStateRef with_state keysPressed with_keysPressed]. apply has_delete.
    + apply (animationFrame_keeps rnd
               (fun w' => forall key, has key (keysPressed (gameStateRef w')) =
                                      has key (keysPressed (gameStateRef w))) w).
      * intros w0 b H. exact H.
      * eapply returns_weaken; [apply (gameLoop_keys w Hsound)|].
        cbn beta. intros _ w' _ Hk key. now rewrite Hk.
    + unfold handlePauseToggle. apply returns_bind. apply returns_get. cbn beta.
      apply returns_when. destruct (negb _); [apply returns_modify|]; intros key; reflexivity.
  - eapply returns_weaken; [apply (handleReset_Fresh rnd w)|].
    cbn beta. intros _ w' out (_ & Hf & Hs). split; [exact Hs|].
    intros key. cbn [pressedAfter]. now rewrite (fresh_keysPressed _ Hf).
Qed.

Lemma session_keys (events : list Event) (w : World) :
  Sound w ->
  returns (session rnd events) w (fun _ w' _ =>
    forall key, has key (keysPressed (gameStateRef w')) =
                pressedAfter key (has key (keysPressed (gameStateRef w))) events).
Proof.
  revert w. induction events as [|e rest IH]; intros w Hsound; cbn [session].
  - apply returns_ret. reflexivity.
  - apply returns_bind.
    eapply returns_weaken; [apply (handle_keys e w Hsound)|].
    cbn beta. intros _ w1 out1 [Hsound1 H1].
    eapply returns_weaken; [apply (IH w1 Hsound1)|].
    cbn beta. intros _ w2 out2 H2 key. rewrite H2, H1.
    destruct e as [[k|k| |]|]; reflexivity.
Qed.

(** X12.  In every world that a mounted screen can reach, a key is in the
    set of pressed keys exactly when, since the last click on the reset
    button (or since the mount), its last key event was a keydown and it is
    one of the three game keys; frames and pause clicks, paused or not, do
    not change the set.  So a key that is not a game key is never in the
    set. *)
Theorem keys_follow_the_key_events (events : list Event) :
  exists w out,
    reached rnd events = Ok (tt, w, out) /\
    (forall key, has key (keysPressed (gameStateRef w)) = pressedAfter key false events) /\
    (forall key, has key gameKeys = false ->
                 has key (keysPressed (gameStateRef w)) = false).
Proof.
  assert (H : returns (mount rnd ;; session rnd events) initialWorld (fun _ w _ =>
            forall key, has key (keysPressed (gameStateRef w)) = pressedAfter key false events)).
  { apply returns_bind.
    eapply returns_weaken; [apply (mount_Fresh rnd)|].
    cbn beta. intros _ w1 out1 (_ & Hf & Hsound).
    eapply returns_weaken; [apply (session_keys events w1 Hsound)|].
    cbn beta. intros _ w2 out2 H key. rewrite H, (fresh_keysPressed _ Hf). reflexivity. }
  apply returns_ok in H. destruct H as ([] & w & out & Heq & Hkeys).
  exists w, out. split; [exact Heq|]. split; [exact Hkeys|].
  intros key Hnot. rewrite Hkeys. clear Hkeys Heq.
  assert (Hgen : forall evs, pressedAfter key false evs = false).
  { induction evs as [|[[k|k| |]|] rest IH]; cbn [pressedAfter orb andb]; auto.
    destruct (String.eqb key k) eqn:Hk.
    - apply String.eqb_eq in Hk. subst k. rewrite Hnot. exact IH.
    - rewrite andb_false_r. exact IH. }
  apply Hgen.
Qed.

End KeyTheorems.

(** ** Winning, the speed shown and the sides of the canvas *)

Lemma Sound_road (w : World) : Sound w -> roadPath (gameStateRef w) <> [].
Proof.
  intros [Hsteady _]. pose proof (steady_length _ Hsteady).
  destruct (roadPath (gameStateRef w)); [cbn in *; lia|easy].
Qed.

Lemma collectCoin_Won (collide : Car.t -> R -> R -> bool) (coin : Coin.t) (w : World) :
  Won w -> returns (collectCoin_with collide coin) w (fun _ w' _ => Won w').
Proof.
  intros Hwon. unfold returns, collectCoin_with.
  destruct (Coin.collected coin); [exact Hwon|].
  cbn [bind getState].
  destruct (_ || _); [exact Hwon|].
  destruct (collide _ _ _); [|exact Hwon].
  unfold setScoreWith, scoreUpdater. run.
  destruct ((score w + 10 >=? ACTION_SCORE_THRESHOLD)%Z && negb (actionTriggeredRef w));
    destruct (score w + 10 >=? MAX_SCORE)%Z eqn:Hmax;
    unfold Won in *; cbn; auto; intros Hge; rewrite Z.geb_leb in Hmax;
    apply Z.leb_gt in Hmax; lia.
Qed.

Lemma coinLoop_Won (collide : Car.t -> R -> R -> bool) (w : World) :
  Won w -> returns (coinLoop collide) w (fun _ w' _ => Won w').
Proof.
  intros Hwon. unfold coinLoop. step. apply returns_bind.
  eapply returns_weaken.
  - apply (forEach_invariant (fun _ _ w' _ => Won w') (collectCoin_with collide)
             (coins (gameStateRef w)) [] [] w [] Hwon).
    intros _ _ a w1 _ H1. apply (collectCoin_Won collide a w1 H1).
  - cbn beta. intros cs' w' out H. apply returns_modify. exact H.
Qed.

Section OutcomeTheorems.

Variable rnd : nat -> R.

(** A running frame of a world that satisfies the invariants, taken apart
    once more: the world at the boundary checks satisfies them too. *)
Lemma gameLoop_Sound_frame (w : World) :
  Sound w -> isPaused w = false -> isGameOver w = false ->
  exists lastPoint wd w' outc,
    lastElement (roadPath (gameStateRef w)) = Some lastPoint /\
    Driven rnd w lastPoint wd /\ Steady wd /\
    let thrust := has " " (keysPressed (gameStateRef w)) in
    let s := gameStateRef wd in
    let offRoad := thrust && negb (isCarOnRoad (car s) (roadPath s)) in
    let offScreen := (Car.x (car s) <? 0) || (Car.x (car s) >? CANVAS_WIDTH) in
    let wc := flagged offScreen (flagged offRoad wd) in
    coinLoop checkCollision wc = Ok (tt, w', outc) /\
    gameLoop rnd w = Ok (tt, w', boundarySignals isCarOnRoad thrust s ++ outc) /\
    CoinStep wc w' outc /\
    (exists cs', gameStateRef w' = with_coins cs' s) /\
    car (gameStateRef w') = car s /\
    score wc = score w /\
    isGameOver wc = offRoad || offScreen.
Proof.
  intros Hsound Hp Ho.
  destruct (gameLoop_frame rnd isCarOnRoad checkCollision w Hp Ho (Sound_road w Hsound))
    as (lastPoint & wd & w' & outc & Hlast & Hd & Hloop & Heq & Hstep & (cs' & Hstate) & _ & _).
  cbn zeta in *.
  exists lastPoint, wd, w', outc.
  destruct (Driven_Steady rnd w wd lastPoint (proj1 Hsound) Hlast Hd) as (Hwd & Dsc & _ & Dov & _).
  split; [exact Hlast|]. split; [exact Hd|]. split; [exact Hwd|]. cbn zeta.
  split; [exact Hloop|]. split; [exact Heq|]. split; [exact Hstep|].
  split; [exists cs'; exact Hstate|].
  split; [now rewrite Hstate|].
  match goal with |- context [flagged ?b2 (flagged ?b1 wd)] =>
    destruct (flagged_fields b2 (flagged b1 wd)) as (_ & F2 & _ & _ & _ & F6);
    destruct (flagged_fields b1 wd) as (_ & G2 & _ & _ & _ & G6)
  end.
  split; [congruence|]. rewrite F6, G6, Dov, Ho. reflexivity.
Qed.

Lemma gameLoop_Won (w : World) :
  Sound w -> Won w -> returns (gameLoop rnd) w (fun _ w' _ => Won w').
Proof.
  intros Hsound Hwon.
  destruct (isPaused w || isGameOver w) eqn:Hhalt.
  { eapply returns_eq;
      [exact (gameLoop_halted rnd isCarOnRoad checkCollision w Hhalt)|]. exact Hwon. }
  apply orb_false_elim in Hhalt. destruct Hhalt as [Hp Ho].
  destruct (gameLoop_Sound_frame w Hsound Hp Ho)
    as (lastPoint & wd & w' & outc & _ & _ & _ & Hloop & Heq & _ & _ & _ & Hsc & Hov).
  cbn zeta in *.
  eapply returns_eq; [exact Heq|].
  match type of Hloop with coinLoop _ ?x = _ => set (wc := x) in * end.
  assert (Hwc : Won wc).
  { unfold Won in *. rewrite Hsc. intros Hge. specialize (Hwon Hge). congruence. }
  pose proof (coinLoop_Won checkCollision wc Hwc) as H.
  unfold returns in H. rewrite Hloop in H. exact H.
Qed.

(** X13.  In every world that a mounted screen can reach, a score of 20000
    or more comes with the game being over: whenever [GameScreen] computes
    [isWinner] as true, [isGameOver] is true as well, so the overlay that
    tells the player "You Win" is on the screen. *)
Theorem winner_is_told (events : list Event) :
  exists w out,
    reached rnd events = Ok (tt, w, out) /\
    (isWinner w = true -> isGameOver w = true).
Proof.
  destruct (reached_keeps_Fresh rnd Won) with (events := events) as (w & out & Heq & _ & Hwon).
  - intros w0 w1 [] H. unfold Won in *. intros Hge.
    rewrite game_isGameOver0. apply H. now rewrite <- game_score0.
  - apply gameLoop_Won.
  - intros w Hf. unfold Won. rewrite (fresh_score _ Hf). unfold MAX_SCORE. lia.
  - exists w, out. split; [exact Heq|]. unfold isWinner. rewrite Z.geb_leb.
    intros Hw. apply Hwon. unfold MAX_SCORE. apply Z.leb_le. exact Hw.
Qed.

Lemma gameLoop_SpeedShown (w : World) :
  Sound w -> SpeedShown w -> returns (gameLoop rnd) w (fun _ w' _ => SpeedShown w').
Proof.
  intros Hsound Hshown.
  destruct (isPaused w || isGameOver w) eqn:Hhalt.
  { eapply returns_eq;
      [exact (gameLoop_halted rnd isCarOnRoad checkCollision w Hhalt)|]. exact Hshown. }
  apply orb_false_elim in Hhalt. destruct Hhalt as [Hp Ho].
  destruct (gameLoop_Sound_frame w Hsound Hp Ho)
    as (lastPoint & wd & w' & outc & Hlast & Hd & _ & Hloop & Heq & Hstep & _ & Hcar & _ & _).
  cbn zeta in *.
  eapply returns_eq; [exact Heq|].
  destruct (Driven_motion rnd w wd lastPoint Hlast Hd) as (_ & _ & _ & Dsp & Dmove).
  cbn zeta in *.
  assert (Hspeed : speed w' = speed wd).
  { rewrite (step_speed _ _ _ Hstep).
    match goal with |- speed (flagged ?b2 (flagged ?b1 wd)) = _ =>
      rewrite (proj1 (flagged_same b2 (flagged b1 wd))), (proj1 (flagged_same b1 wd))
    end. reflexivity. }
  unfold SpeedShown. rewrite Hcar, Hspeed. split; [congruence|].
  destruct (has " " _).
  - right. apply Dmove.
  - left. apply Dmove.
Qed.

(** X14.  In every world that a mounted screen can reach, the speed that
    the screen shows is the speed stored in the car, and it is either 0 or
    MOVE_SPEED. *)
Theorem speed_shown_is_the_cars (events : list Event) :
  exists w out,
    reached rnd events = Ok (tt, w, out) /\
    speed w = Car.speed (car (gameStateRef w)) /\
    (speed w = 0 \/ speed w = MOVE_SPEED).
Proof.
  destruct (reached_keeps_Fresh rnd SpeedShown) with (events := events)
    as (w & out & Heq & _ & Hshown).
  - intros w0 w1 [] H. unfold SpeedShown in *. now rewrite game_car0, game_speed0.
  - apply gameLoop_SpeedShown.
  - intros w Hf. unfold SpeedShown. rewrite (fresh_car _ Hf), (fresh_speed _ Hf). cbn. auto.
  - exists w, out. split; [exact Heq|exact Hshown].
Qed.

Lemma gameLoop_InLane (w : World) :
  Sound w -> InLane w -> returns (gameLoop rnd) w (fun _ w' _ => InLane w').
Proof.
  intros Hsound Hlane.
  destruct (isPaused w || isGameOver w) eqn:Hhalt.
  { eapply returns_eq;
      [exact (gameLoop_halted rnd isCarOnRoad checkCollision w Hhalt)|]. exact Hlane. }
  apply orb_false_elim in Hhalt. destruct Hhalt as [Hp Ho].
  destruct (gameLoop_Sound_frame w Hsound Hp Ho)
    as (lastPoint & wd & w' & outc & Hlast & Hd & Hwd & Hloop & Heq & Hstep & _ & Hcar & _ & Hov).
  cbn zeta in *.
  eapply returns_eq; [exact Heq|].
  unfold InLane. intros Hon. rewrite Hcar.
  assert (Hwc : (has " " (keysPressed (gameStateRef w)) &&
                 negb (isCarOnRoad (car (gameStateRef wd)) (roadPath (gameStateRef wd)))) ||
                ((Car.x (car (gameStateRef wd)) <? 0) ||
                 (Car.x (car (gameStateRef wd)) >? CANVAS_WIDTH)) = false).
  { rewrite <- Hov. destruct (isGameOver (flagged _ _)) eqn:E; [|reflexivity].
    rewrite (step_over _ _ _ Hstep E) in Hon. discriminate. }
  apply orb_false_elim in Hwc. destruct Hwc as [Hroad _].
  destruct (Driven_fields rnd w wd lastPoint Hlast Hd) as (_ & _ & Dx & _).
  destruct (has " " (keysPressed (gameStateRef w))).
  - cbn [andb] in Hroad. apply negb_false_iff in Hroad.
    apply (on_road_inside _ _ (steady_bounds _ Hwd) Hroad).
  - rewrite Dx. apply Hlane. exact Ho.
Qed.

Lemma reached_InLane (events : list Event) :
  exists w out, reached rnd events = Ok (tt, w, out) /\ Sound w /\ InLane w.
Proof.
  apply (reached_keeps_Fresh rnd InLane).
  - intros w0 w1 [] H. unfold InLane in *. rewrite game_car0, game_isGameOver0. exact H.
  - apply gameLoop_InLane.
  - intros w Hf _. rewrite (fresh_car _ Hf). unfold CANVAS_WIDTH. cbn. lra.
Qed.

(** X15.  The off-screen check never ends a game.  In every world that a
    mounted screen can reach, the car of a game that is not over is more
    than 20 inside the canvas on either side (a frame that moves it leaves
    it on the road, or ends the game at the off-road check), and a frame
    moves it by at most MOVE_SPEED sideways: so in the next frame, which
    returns, the car's x is neither below 0 nor above CANVAS_WIDTH and the
    frame does not signal the game over of the off-screen check. *)
Theorem off_screen_check_never_fires (events : list Event) :
  exists w out w' out',
    reached rnd events = Ok (tt, w, out) /\
    (isGameOver w = false -> 20 < Car.x (car (gameStateRef w)) < CANVAS_WIDTH - 20) /\
    gameLoop rnd w = Ok (tt, w', out') /\
    signalled GameOverOffScreen out' = false.
Proof.
  destruct (reached_InLane events) as (w & out & Heq & Hsound & Hlane).
  destruct (isPaused w || isGameOver w) eqn:Hhalt.
  { exists w, out, w, []. split; [exact Heq|]. split; [exact Hlane|].
    split; [exact (gameLoop_halted rnd isCarOnRoad checkCollision w Hhalt)|reflexivity]. }
  apply orb_false_elim in Hhalt. destruct Hhalt as [Hp Ho].
  destruct (gameLoop_Sound_frame w Hsound Hp Ho)
    as (lastPoint & wd & w' & outc & Hlast & Hd & Hwd & Hloop & Hrun & Hstep & _ & Hcar & _ & _).
  cbn zeta in *.
  eexists w, out, w', _. split; [exact Heq|]. split; [exact Hlane|]. split; [exact Hrun|].
  destruct (step_quiet _ _ _ Hstep) as (_ & Q2 & _).
  apply signalled_occurrences in Q2.
  rewrite signalled_app, Q2, orb_false_r. unfold boundarySignals.
  destruct (Driven_fields rnd w wd lastPoint Hlast Hd) as (_ & _ & Dx & _).
  assert (Hin : (Car.x (car (gameStateRef wd)) <? 0) ||
                (Car.x (car (gameStateRef wd)) >? CANVAS_WIDTH) = false).
  { specialize (Hlane Ho). rewrite Dx. unfold CANVAS_WIDTH, MOVE_SPEED in *.
    pose proof (COS_bound (Car.angle (car (gameStateRef (steered w))))) as Hcos.
    apply orb_false_intro; [apply ltb_false|apply gtb_false];
      destruct (has " " _); nra. }
  rewrite Hin. destruct (_ && _); reflexivity.
Qed.

End OutcomeTheorems.

(** ** The coins a frame collects *)

Lemma collectCoin_picked (coin : Coin.t) (w : World) :
  returns (collectCoin coin) w (fun coin' w' _ =>
    coin' = picked (car (gameStateRef w)) (cameraOffsetY (gameStateRef w)) coin /\
    gameStateRef w' = gameStateRef w).
Proof.
  unfold returns, collectCoin, collectCoin_with, picked, inReach, culled.
  destruct (Coin.collected coin) eqn:Hc; [split; reflexivity|].
  cbn [bind getState negb andb].
  destruct (_ || _); [split; reflexivity|]. cbn [negb].
  destruct (checkCollision _ _ _); [|split; reflexivity].
  unfold setScoreWith, scoreUpdater. run.
  destruct ((score w + 10 >=? ACTION_SCORE_THRESHOLD)%Z && negb (actionTriggeredRef w));
    destruct (score w + 10 >=? MAX_SCORE)%Z; cbn; split; reflexivity.
Qed.

Lemma coinLoop_picked (w : World) :
  returns (coinLoop checkCollision) w (fun _ w' _ =>
    let s := gameStateRef w in
    gameStateRef w' = with_coins (map (picked (car s) (cameraOffsetY s)) (coins s)) s).
Proof.
  unfold coinLoop. step. apply returns_bind.
  set (s := gameStateRef w).
  eapply returns_weaken.
  - apply (forEach_invariant
             (fun seen seen' w' _ =>
                seen' = map (picked (car s) (cameraOffsetY s)) seen /\ gameStateRef w' = s)
             collectCoin (coins s) [] [] w []).
    + split; reflexivity.
    + intros seen seen' a w1 _ [Hseen Hstate].
      eapply returns_weaken; [apply (collectCoin_picked a w1)|].
      cbn beta. intros a' w2 _ [Ha Hstate2]. rewrite Hstate in Ha, Hstate2.
      split; [|exact Hstate2]. rewrite map_app, Hseen, Ha. reflexivity.
  - cbn beta. intros cs' w' out [Hcs Hstate]. cbn [app] in Hcs.
    apply returns_modify. cbn zeta. fields. rewrite Hstate, Hcs. reflexivity.
Qed.



Section CoinTheorems.

Variable rnd : nat -> R.


End CoinTheorems.

(** ** Driving straight up, for ever *)

Lemma HasColumn_app (path newPoints : list Point.t) :
  HasColumn path -> HasColumn (path ++ newPoints).
Proof.
  intros (x4 & Hx4 & Ha & Hb). exists x4. split; [assumption|].
  assert (H5 : (5 < length path)%nat) by (apply nth_error_Some; congruence).
  split; rewrite nth_error_app1 by lia; assumption.
Qed.

Section StraightTheorems.

Variable rnd : nat -> R.

Lemma gameLoop_Upright (w : World) :
  Sound w -> Upright w -> returns (gameLoop rnd) w (fun _ w' _ => Upright w').
Proof.
  intros Hsound Hup.
  pose proof Hup as (Hkeys & Hp & Hx & Ha & Hy & Hcol & Hwon).
  destruct (isGameOver w) eqn:Ho.
  { eapply returns_eq;
      [apply (gameLoop_halted rnd isCarOnRoad checkCollision w); rewrite Ho; apply orb_true_r|].
    unfold Upright. rewrite Ho. auto 10. }
  destruct (gameLoop_Sound_frame rnd w Hsound Hp Ho)
    as (lastPoint & wd & w' & outc & Hlast & Hd & Hwd & Hloop & Heq & Hstep & (cs' & Hstate)
        & Hcar & Hsc & Hov).
  cbn zeta in *.
  eapply returns_eq; [exact Heq|].
  destruct (Driven_motion rnd w wd lastPoint Hlast Hd) as (Dkeys & (pts & Dpath) & Da & _ & Dmove).
  cbn zeta in *.
  destruct (Driven_Steady rnd w wd lastPoint (proj1 Hsound) Hlast Hd) as (_ & _ & Dp & _ & _).
  assert (Hangle : steeredAngle (gameStateRef w) = - PI / 2).
  { unfold steeredAngle. rewrite Hkeys, Ha. cbn. lra. }
  rewrite Hkeys, Hangle in *. cbn [has existsb String.eqb Ascii.eqb Bool.eqb orb] in *.
  destruct straight_up as [Hcos Hsin]. rewrite Hcos, Hsin in Dmove.
  destruct Dmove as (Mx & My & _ & _).
  assert (Hx' : Car.x (car (gameStateRef wd)) = 400) by (rewrite Mx, Hx; lra).
  assert (Hy' : 300 <= Car.y (car (gameStateRef wd)) <= 500).
  { rewrite My. unfold CANVAS_HEIGHT, MOVE_SPEED, Rmax. destruct (Rle_dec _ _); lra. }
  assert (Hcol' : HasColumn (roadPath (gameStateRef wd))).
  { rewrite Dpath. now apply HasColumn_app. }
  assert (Hroad : isCarOnRoad (car (gameStateRef wd)) (roadPath (gameStateRef wd)) = true)
    by (apply column_on_road; assumption).
  assert (Hscreen : (Car.x (car (gameStateRef wd)) <? 0) ||
                    (Car.x (car (gameStateRef wd)) >? CANVAS_WIDTH) = false).
  { rewrite Hx'. apply orb_false_intro; [apply ltb_false|apply gtb_false];
      unfold CANVAS_WIDTH; lra. }
  rewrite Hroad, Hscreen in Hov. cbn in Hov.
  unfold Upright. rewrite Hstate. cbn [car keysPressed roadPath with_coins].
  split; [exact Dkeys|].
  split.
  { rewrite (step_isPaused _ _ _ Hstep).
    match goal with |- isPaused (flagged ?b2 (flagged ?b1 wd)) = _ =>
      destruct (flagged_fields b2 (flagged b1 wd)) as (_ & _ & _ & F4 & _);
      destruct (flagged_fields b1 wd) as (_ & _ & _ & G4 & _)
    end. congruence. }
  split; [exact Hx'|]. split; [rewrite Da; reflexivity|].
  split; [exact Hy'|]. split; [exact Hcol'|].
  intros Hover. destruct (step_won _ _ _ Hstep Hover) as [H|H]; [|exact H].
  rewrite Hroad, Hscreen in H. cbn in H. congruence.
Qed.

Lemma frames_Upright (n : nat) (w : World) :
  Sound w -> Upright w ->
  returns (session rnd (repeat (User AnimationFrame) n)) w (fun _ w' _ => Upright w').
Proof.
  revert w. induction n as [|n IH]; intros w Hsound Hup; cbn [repeat session].
  - apply returns_ret. exact Hup.
  - apply returns_bind. cbn [handle dispatch].
    eapply returns_weaken.
    + apply returns_and; [apply (animationFrame_Sound rnd w Hsound)|].
      apply (animationFrame_keeps rnd Upright w).
      * intros w0 b H. exact H.
      * apply gameLoop_Upright; assumption.
    + cbn beta. intros _ w1 out1 [(Hsound1 & _) Hup1].
      eapply returns_weaken; [apply (IH w1 Hsound1 Hup1)|].
      cbn beta. intros _ w2 out2 H. exact H.
Qed.

(** X17.  Hold the space bar from the start and never steer: whatever road
    the random draws make and however many frames go by, the game does not
    stop with a [TypeError], the car stays in its starting column (x = 400)
    and the game is over only if the score has reached MAX_SCORE; no frame
    ends it at the off-road or the off-screen check.  ([isCarOnRoad]
    compares the car's position on the screen, which stays between heights
    300 and 500, with the road's points as they were generated, without the
    camera offset: the car stays next to the vertical fifth segment of the
    initial road.) *)
Theorem straight_drive_is_never_lost (n : nat) :
  exists w out,
    reached rnd (holdSpace n) = Ok (tt, w, out) /\
    Car.x (car (gameStateRef w)) = 400 /\
    300 <= Car.y (car (gameStateRef w)) <= 500 /\
    (isGameOver w = true -> (MAX_SCORE <= score w)%Z).
Proof.
  assert (H : returns (mount rnd ;; session rnd (holdSpace n)) initialWorld
                (fun _ w _ => Upright w)).
  { unfold holdSpace. cbn [session handle dispatch].
    apply (returns_bind_assoc (mount rnd) (fun _ => handleKeyDown " ")
             (fun _ => session rnd (repeat (User AnimationFrame) n))).
    apply returns_bind.
    eapply returns_weaken; [apply (mount_cruising rnd)|].
    cbn beta. intros _ w0 out0 [Hsound (Hkeys & Hp & Ho & Hx & Ha & Hy & _ & Hcol & _)].
    apply (frames_Upright n w0 Hsound).
    unfold Upright. rewrite Ho. repeat split; auto; try discriminate.
    - rewrite Hy. cbn [INR]. unfold Rmax. destruct (Rle_dec _ _); lra.
    - rewrite Hy. cbn [INR]. unfold Rmax. destruct (Rle_dec _ _); lra. }
  apply returns_ok in H. destruct H as ([] & w & out & Heq & Hup).
  destruct Hup as (_ & _ & Hx & _ & Hy & _ & Hwon).
  exists w, out. auto.
Qed.

(** X18.  In every world that a mounted screen can reach, the car is not
    above mid-height of the canvas, and the last point of the road is at
    least 194 above the top of the canvas on the screen (its y plus the
    camera offset is at most -194 = -ROAD_EXTEND_THRESHOLD + MOVE_SPEED): the
    end of the road never comes into view. *)
Theorem road_end_stays_out_of_view (events : list Event) :
  exists w out lastPoint,
    reached rnd events = Ok (tt, w, out) /\
    CANVAS_HEIGHT / 2 <= Car.y (car (gameStateRef w)) /\
    lastElement (roadPath (gameStateRef w)) = Some lastPoint /\
    Point.y lastPoint + cameraOffsetY (gameStateRef w) <= -194.
Proof.
  destruct (reached_Sound rnd events) as (w & out & Heq & [Hsteady _]).
  destruct (steady_horizon _ Hsteady) as (q & Hq & Hh).
  exists w, out, q. split; [exact Heq|]. split; [exact (steady_car _ Hsteady)|].
  split; [exact Hq|]. unfold horizon, ROAD_EXTEND_THRESHOLD, MOVE_SPEED in Hh. lra.
Qed.

End StraightTheorems.

(** ** Where the coins are *)

Lemma PlacedNear_NearAnchor (anchors : list (R * R)) (cs : list Coin.t) :
  PlacedNear anchors cs -> Forall (NearAnchor anchors) cs.
Proof.
  induction 1 as [|a anchors cs H IH|a anchors cs offsetX Hoff H IH].
  - constructor.
  - eapply Forall_impl; [|exact IH]. intros c (b & Hb & Hy & Hx).
    exists b. split; [now right|auto].
  - constructor.
    + exists a. split; [now left|]. cbn [Coin.x Coin.y]. split; [reflexivity|lra].
    + eapply Forall_impl; [|exact IH]. intros c (b & Hb & Hy & Hx).
      exists b. split; [now right|auto].
Qed.

Lemma NearAnchor_incl (anchors anchors' : list (R * R)) (coin : Coin.t) :
  incl anchors anchors' -> NearAnchor anchors coin -> NearAnchor anchors' coin.
Proof. intros Hincl (a & Ha & H). exists a. split; [apply Hincl, Ha|exact H]. Qed.

Lemma segments_app_incl (path newPoints : list Point.t) :
  incl (segments path) (segments (path ++ newPoints)).
Proof.
  induction path as [|p1 rest IH]; [easy|].
  destruct rest as [|p2 rest']; [easy|].
  change (segments (p1 :: p2 :: rest')) with ((p1, p2) :: segments (p2 :: rest')).
  change (segments ((p1 :: p2 :: rest') ++ newPoints))
    with ((p1, p2) :: segments ((p2 :: rest') ++ newPoints)).
  intros s [<-|Hs]; [now left|right; now apply IH].
Qed.

Lemma anchorsOf_app_incl (path newPoints : list Point.t) :
  incl (anchorsOf path) (anchorsOf (path ++ newPoints)).
Proof.
  unfold anchorsOf. intros a Ha. apply in_app_iff in Ha. apply in_app_iff.
  destruct Ha as [Ha|Ha].
  - left. apply in_map_iff in Ha. destruct Ha as (s & <- & Hs).
    apply in_map. now apply segments_app_incl.
  - right. rewrite map_app. apply in_app_iff. now left.
Qed.

Lemma Kept_NearAnchor (anchors : list (R * R)) (coin coin' : Coin.t) :
  Kept coin coin' -> NearAnchor anchors coin -> NearAnchor anchors coin'.
Proof.
  intros (Hx & Hy & _) (a & Ha & H1 & H2). exists a. rewrite Hx, Hy. auto.
Qed.

(** The new points and the new coins of a frame, together. *)
Lemma Driven_spawn (rnd : nat -> R) (w wd : World) (lastPoint : Point.t) :
  lastElement (roadPath (gameStateRef w)) = Some lastPoint ->
  Driven rnd w lastPoint wd ->
  exists newPoints newCoins n n',
    roadPath (gameStateRef wd) = roadPath (gameStateRef w) ++ newPoints /\
    coins (gameStateRef wd) = coins (gameStateRef w) ++ newCoins /\
    Spawned rnd n (map endPoint newPoints) newCoins n'.
Proof.
  intros Hlast Hd.
  destruct (steered_unchanged w) as (_ & Hpath & Hcoins & _).
  unfold Driven in Hd. destruct (has " " _).
  - destruct Hd as (we & Hext & ->).
    destruct (recentered_fields we) as (Rpath & Rcoins & _).
    destruct (moved_fields (steered w)) as (Mpath & Mcoins & _).
    destruct (horizon _ _ >? _).
    + destruct Hext as (_ & pts & cs & q & Hpath' & Hcoins' & _ & _ & _ & _ & _ & Hsp).
      exists pts, cs, (randomCalls (moved (steered w))), (randomCalls we).
      split; [congruence|]. split; [congruence|exact Hsp].
    + subst we. exists [], [], 0%nat, 0%nat. rewrite !app_nil_r.
      split; [congruence|]. split; [congruence|constructor].
  - subst wd. destruct (stopped_fields (steered w)) as (Tpath & Tcoins & _).
    exists [], [], 0%nat, 0%nat. rewrite !app_nil_r.
    split; [congruence|]. split; [congruence|constructor].
Qed.

Section PlacementTheorems.

Variable rnd : nat -> R.
Hypothesis rnd_range : forall k, 0 <= rnd k < 1.

Lemma gameLoop_NearAnchor (w : World) :
  Sound w ->
  Forall (NearAnchor (anchorsOf (roadPath (gameStateRef w)))) (coins (gameStateRef w)) ->
  returns (gameLoop rnd) w (fun _ w' _ =>
    Forall (NearAnchor (anchorsOf (roadPath (gameStateRef w')))) (coins (gameStateRef w'))).
Proof.
  intros Hsound Hnear.
  destruct (isPaused w || isGameOver w) eqn:Hhalt.
  { eapply returns_eq;
      [exact (gameLoop_halted rnd isCarOnRoad checkCollision w Hhalt)|]. exact Hnear. }
  apply orb_false_elim in Hhalt. destruct Hhalt as [Hp Ho].
  destruct (gameLoop_frame rnd isCarOnRoad checkCollision w Hp Ho (Sound_road w Hsound))
    as (lastPoint & wd & w' & outc & Hlast & Hd & _ & Heq & _ & (cs' & Hstate) & Hvisit & _).
  cbn zeta in *.
  eapply returns_eq; [exact Heq|].
  destruct (Driven_spawn rnd w wd lastPoint Hlast Hd) as (pts & cs & n & n' & Dpath & Dcoins & Dsp).
  assert (Hwd : Forall (NearAnchor (anchorsOf (roadPath (gameStateRef wd))))
                       (coins (gameStateRef wd))).
  { rewrite Dpath, Dcoins. apply Forall_app. split.
    - eapply Forall_impl; [|exact Hnear]. intros c. apply NearAnchor_incl, anchorsOf_app_incl.
    - pose proof (PlacedNear_NearAnchor _ _ (Spawned_PlacedNear rnd n n' _ _ rnd_range Dsp)) as H.
      eapply Forall_impl; [|exact H]. intros c. apply NearAnchor_incl.
      unfold anchorsOf. intros a Ha. apply in_app_iff. right.
      rewrite map_app. apply in_app_iff. now right. }
  assert (Hroad : roadPath (gameStateRef w') = roadPath (gameStateRef wd)) by now rewrite Hstate.
  rewrite Hroad. clear - Hwd Hvisit.
  induction Hvisit as [|c c' l l' Hc Hl IH]; [constructor|].
  inversion Hwd as [|? ? Hn Hrest]; subst.
  constructor; [|now apply IH].
  apply (Kept_NearAnchor _ c c'); [now apply (Visited_Kept checkCollision (gameStateRef wd))|exact Hn].
Qed.

Lemma initialize_NearAnchor (w : World) :
  car (gameStateRef w) = car freshGameState ->
  cameraOffsetY (gameStateRef w) = 0 ->
  returns (initializeRoad rnd ;; initializeCoins rnd) w (fun _ w' _ =>
    Forall (NearAnchor (anchorsOf (roadPath (gameStateRef w')))) (coins (gameStateRef w'))).
Proof.
  intros Hcar Hcam.
  eapply returns_weaken; [apply (initialize_spec rnd w Hcar Hcam)|].
  cbn beta. intros _ w' out (_ & _ & _ & _ & _ & n & n' & Hsp).
  pose proof (PlacedNear_NearAnchor _ _ (Spawned_PlacedNear rnd n n' _ _ rnd_range Hsp)) as H.
  eapply Forall_impl; [|exact H]. intros c. apply NearAnchor_incl.
  unfold anchorsOf. intros a Ha. apply in_app_iff. left.
  apply in_map_iff in Ha. destruct Ha as (s & <- & Hs). apply in_map.
  destruct (segments (roadPath (gameStateRef w'))); [easy|now right].
Qed.

(** X19.  With every random draw in [0, 1): in every world that a mounted
    screen can reach, every coin is at the height of a point of the road or
    of the midpoint of one of its segments, at most 20 to the left or to the
    right of it; so every coin has its x in [180, 620], on the canvas and
    well inside the painted road.  (The shift is below 20 before it is added
    to the anchor; the sum, once rounded, can be the anchor's x plus 20.) *)
Theorem coins_lie_along_the_road (events : list Event) :
  exists w out,
    reached rnd events = Ok (tt, w, out) /\
    Forall (NearAnchor (anchorsOf (roadPath (gameStateRef w)))) (coins (gameStateRef w)) /\
    Forall (fun coin => 180 <= Coin.x coin <= 620) (coins (gameStateRef w)).
Proof.
  destruct (reached_keeps rnd
              (fun w => Forall (NearAnchor (anchorsOf (roadPath (gameStateRef w))))
                               (coins (gameStateRef w))))
    with (events := events) as (w & out & Heq & Hsound & Hnear).
  - intros w0 w1 [] H. now rewrite game_roadPath0, game_coins0.
  - apply gameLoop_NearAnchor.
  - intros w. unfold handleReset, resetGame. do 7 step.
    apply initialize_NearAnchor; reflexivity.
  - unfold mount. apply initialize_NearAnchor; reflexivity.
  - exists w, out. split; [exact Heq|]. split; [exact Hnear|].
    eapply Forall_impl; [|exact Hnear]. intros coin (a & Ha & _ & Hx).
    assert (Hb : 200 <= fst a <= 600).
    { pose proof (steady_bounds _ (proj1 Hsound)) as Hb. rewrite Forall_forall in Hb.
      unfold anchorsOf in Ha. apply in_app_iff in Ha. destruct Ha as [Ha|Ha];
        apply in_map_iff in Ha.
      - destruct Ha as ([p q] & <- & Hs). apply segments_In in Hs. cbn [fst snd] in Hs.
        destruct Hs as [Hp Hq]. apply Hb in Hp, Hq.
        unfold inBounds, ROAD_WIDTH, CANVAS_WIDTH in *. cbn [midPoint fst snd]. lra.
      - destruct Ha as (p & <- & Hp). apply Hb in Hp.
        unfold inBounds, ROAD_WIDTH, CANVAS_WIDTH in *. cbn [endPoint fst]. lra. }
    lra.
Qed.

End PlacementTheorems.

Lemma coins_lie_along_the_road_witness :
  (forall k, 0 <= evenDraws k < 1) /\
  exists w out,
    reached evenDraws cruise51 = Ok (tt, w, out) /\
    Forall (fun coin => 180 <= Coin.x coin <= 620) (coins (gameStateRef w)).
Proof.
  assert (Hrnd : forall k, 0 <= evenDraws k < 1) by (intros k; unfold evenDraws; lra).
  split; [exact Hrnd|].
  destruct (coins_lie_along_the_road evenDraws Hrnd cruise51) as (w & out & Heq & _ & Hx).
  exists w, out. split; [exact Heq|exact Hx].
Defined.

(** ** The frame theorems on concrete worlds *)


(** A running frame without thrust: the car and the camera stay where they
    are, the road is as it was, and the coin loop goes through the coins of
    the world. *)
Lemma gameLoop_standing (rnd : nat -> R) (w : World) :
  isPaused w = false -> isGameOver w = false ->
  roadPath (gameStateRef w) <> [] ->
  has " " (keysPressed (gameStateRef w)) = false ->
  exists w' out,
    gameLoop rnd w = Ok (tt, w', out) /\
    Car.x (car (gameStateRef w')) = Car.x (car (gameStateRef w)) /\
    Car.y (car (gameStateRef w')) = Car.y (car (gameStateRef w)) /\
    cameraOffsetY (gameStateRef w') = cameraOffsetY (gameStateRef w) /\
    roadPath (gameStateRef w') = roadPath (gameStateRef w) /\
    coins (gameStateRef w') =
      map (picked (car (gameStateRef w')) (cameraOffsetY (gameStateRef w)))
          (coins (gameStateRef w)).
Proof.
  intros Hp Ho Hne Hidle.
  destruct (gameLoop_frame rnd isCarOnRoad checkCollision w Hp Ho Hne)
    as (lastPoint & wd & w' & outc & Hlast & Hd & Hloop & Heq & _).
  cbn zeta in *.
  eexists w', _. split; [exact Heq|].
  unfold Driven in Hd. rewrite Hidle in Hd. subst wd.
  destruct (stopped_fields (steered w)) as (Tpath & Tcoins & _ & Tcam & Tx & Ty & _).
  destruct (steered_unchanged w) as (_ & Hpath & Hcoins & Hcam & Hx & Hy & _).
  match type of Hloop with coinLoop _ ?x = _ => set (wc := x) in * end.
  assert (Hwc : gameStateRef wc = gameStateRef (stopped (steered w))).
  { unfold wc.
    match goal with |- context [flagged ?b2 (flagged ?b1 ?wd)] =>
      destruct (flagged_fields b2 (flagged b1 wd)) as (F1 & _);
      destruct (flagged_fields b1 wd) as (G1 & _)
    end. congruence. }
  pose proof (coinLoop_picked wc) as Hpick. unfold returns in Hpick.
  rewrite Hloop in Hpick. cbn zeta in Hpick. rewrite Hwc in Hpick.
  rewrite Hpick. cbn [car cameraOffsetY coins roadPath with_coins].
  rewrite Tpath, Tcoins, Tcam, Tx, Ty, Hpath, Hcoins, Hcam, Hx, Hy.
  repeat split; reflexivity.
Qed.

(** The tests of the coin callback only see where the car is. *)
Lemma inReach_same_place (c c0 : Car.t) (offsetY : R) (coin : Coin.t) :
  Car.x c = Car.x c0 -> Car.y c = Car.y c0 ->
  inReach c offsetY coin = inReach c0 offsetY coin.
Proof. intros Hx Hy. unfold inReach, checkCollision. now rewrite Hx, Hy. Qed.

Lemma picked_same_place (c c0 : Car.t) (offsetY : R) (cs : list Coin.t) :
  Car.x c = Car.x c0 -> Car.y c = Car.y c0 ->
  map (picked c offsetY) cs = map (picked c0 offsetY) cs.
Proof.
  intros Hx Hy. apply map_ext. intros coin. unfold picked.
  now rewrite (inReach_same_place c c0 offsetY coin Hx Hy).
Qed.

Lemma culled_inside (offsetY : R) (coin : Coin.t) :
  -50 <= Coin.y coin + offsetY <= CANVAS_HEIGHT + 50 -> culled offsetY coin = false.
Proof.
  intros H. unfold culled. apply orb_false_intro; [apply ltb_false|apply gtb_false]; lra.
Qed.


Lemma inReach_hit (c : Car.t) (offsetY : R) (coin : Coin.t) :
  Coin.collected coin = false ->
  -50 <= Coin.y coin + offsetY <= CANVAS_HEIGHT + 50 ->
  (Car.x c - Coin.x coin) * (Car.x c - Coin.x coin) +
  (Car.y c - (Coin.y coin + offsetY)) * (Car.y c - (Coin.y coin + offsetY)) < 44 * 44 ->
  inReach c offsetY coin = true.
Proof.
  intros Hc Hy Hd. unfold inReach. rewrite Hc, (culled_inside _ _ Hy).
  cbn [negb andb]. now apply checkCollision_disc.
Qed.

Lemma inReach_collected (c : Car.t) (offsetY : R) (coin : Coin.t) :
  Coin.collected coin = true -> inReach c offsetY coin = false.
Proof. intros Hc. unfold inReach. now rewrite Hc. Qed.






Lemma gameLoop_drives_the_car_witness :
  isPaused steeringWorld = false /\ isGameOver steeringWorld = false /\
  roadPath (gameStateRef steeringWorld) <> [] /\
  exists w' out,
    gameLoop evenDraws steeringWorld = Ok (tt, w', out) /\
    Car.angle (car (gameStateRef w')) = - PI / 2 - TURN_SPEED /\
    Car.x (car (gameStateRef w')) = 400 + cos (- PI / 2 - TURN_SPEED) * MOVE_SPEED /\
    Car.y (car (gameStateRef w')) - cameraOffsetY (gameStateRef w') =
      500 + sin (- PI / 2 - TURN_SPEED) * MOVE_SPEED /\
    Car.speed (car (gameStateRef w')) = MOVE_SPEED /\
    speed w' = MOVE_SPEED.
Proof.
  assert (Hne : roadPath (gameStateRef steeringWorld) <> []) by (simpl; discriminate).
  split; [reflexivity|]. split; [reflexivity|]. split; [exact Hne|].
  destruct (gameLoop_drives_the_car evenDraws steeringWorld eq_refl eq_refl Hne)
    as (w' & out & Heq & _ & Ha & Hmove).
  change (has " " (keysPressed (gameStateRef steeringWorld))) with true in Hmove.
  cbv iota in Hmove.
  assert (Hangle : steeredAngle (gameStateRef steeringWorld) = - PI / 2 - TURN_SPEED).
  { change (steeredAngle (gameStateRef steeringWorld)) with (- PI / 2 + - TURN_SPEED + 0).
    lra. }
  rewrite Hangle in Ha, Hmove.
  change (Car.x (car (gameStateRef steeringWorld))) with (CANVAS_WIDTH / 2) in Hmove.
  change (Car.y (car (gameStateRef steeringWorld))) with (CANVAS_HEIGHT - 100) in Hmove.
  change (cameraOffsetY (gameStateRef steeringWorld)) with 0 in Hmove.
  destruct Hmove as (Mx & _ & Mw & Ms & Msp).
  exists w', out. split; [exact Heq|]. split; [exact Ha|].
  split; [rewrite Mx; unfold CANVAS_WIDTH; lra|].
  split; [rewrite Mw; unfold CANVAS_HEIGHT; lra|].
  split; [exact Ms|exact Msp].
Defined.


(** One frame in a world where the car stands at (400, 500) and the camera
    has not moved. *)
Lemma standing_frame_coins (rnd : nat -> R) (w : World) (expected : list Coin.t) :
  isPaused w = false -> isGameOver w = false ->
  roadPath (gameStateRef w) <> [] ->
  has " " (keysPressed (gameStateRef w)) = false ->
  car (gameStateRef w) = standingCar -> cameraOffsetY (gameStateRef w) = 0 ->
  map (picked standingCar 0) (coins (gameStateRef w)) = expected ->
  returns (play rnd [AnimationFrame]) w (fun _ w' _ => coins (gameStateRef w') = expected).
Proof.
  intros Hp Ho Hne Hidle Hcar Hcam Hexp. cbn [play dispatch].
  apply returns_bind.
  eapply returns_weaken.
  - apply (animationFrame_keeps rnd (fun w' => coins (gameStateRef w') = expected) w).
    + intros w0 b H. exact H.
    + destruct (gameLoop_standing rnd w Hp Ho Hne Hidle)
        as (w' & out & Heq & Hx & Hy & _ & _ & Hcoins).
      eapply returns_eq; [exact Heq|].
      rewrite Hcoins, Hcam, <- Hexp. rewrite Hcar in Hx, Hy.
      apply picked_same_place; assumption.
  - cbn beta. intros _ w' _ H. apply returns_ret. exact H.
Qed.

Lemma columnRoad_inBounds : Forall inBounds columnRoad.
Proof.
  unfold columnRoad.
  repeat (constructor; [unfold inBounds, ROAD_WIDTH, CANVAS_WIDTH; cbn; lra|]).
  constructor.
Qed.

Lemma milestoneWorld_Sound : Sound milestoneWorld.
Proof.
  split; [|reflexivity]. constructor.
  - cbn. lia.
  - exact columnRoad_inBounds.
  - exists (Point.mk 400 (-300)). split; [reflexivity|].
    unfold horizon, ROAD_EXTEND_THRESHOLD, MOVE_SPEED. cbn. lra.
  - unfold CANVAS_HEIGHT. cbn. lra.
  - reflexivity.
  - reflexivity.
Qed.

Lemma laterWorld_Sound : Sound laterWorld.
Proof.
  split; [|reflexivity]. constructor.
  - cbn. lia.
  - exact columnRoad_inBounds.
  - exists (Point.mk 400 (-300)). split; [reflexivity|].
    unfold horizon, ROAD_EXTEND_THRESHOLD, MOVE_SPEED. cbn. lra.
  - unfold CANVAS_HEIGHT. cbn. lra.
  - reflexivity.
  - reflexivity.
Qed.

Lemma picked_taken (c : Car.t) (offsetY : R) (coin : Coin.t) :
  Coin.collected coin = true -> picked c offsetY coin = coin.
Proof. intros H. unfold picked. now rewrite inReach_collected. Qed.

Lemma picked_near (x y : R) :
  -50 <= y <= CANVAS_HEIGHT + 50 ->
  (400 - x) * (400 - x) + (500 - y) * (500 - y) < 44 * 44 ->
  picked standingCar 0 (Coin.mk x y false) = Coin.mk x y true.
Proof.
  intros Hy Hd. unfold picked. rewrite inReach_hit; [reflexivity|reflexivity| |];
    cbn [Coin.x Coin.y Car.x Car.y standingCar]; [lra|].
  replace (500 - (y + 0)) with (500 - y) by lra. exact Hd.
Qed.

Lemma milestoneWorld_picked :
  map (picked standingCar 0) (coins (gameStateRef milestoneWorld)) =
  repeat (Coin.mk 400 900 true) 28 ++
  [Coin.mk 400 500 true; Coin.mk 420 500 true; Coin.mk 400 520 true].
Proof.
  change (coins (gameStateRef milestoneWorld))
    with (repeat (Coin.mk 400 900 true) 28 ++
          [Coin.mk 400 500 false; Coin.mk 420 500 false; Coin.mk 400 520 false]).
  rewrite map_app, map_repeat, (picked_taken standingCar 0 (Coin.mk 400 900 true) eq_refl).
  cbn [map].
  rewrite !picked_near by (unfold CANVAS_HEIGHT; lra). reflexivity.
Qed.

Lemma laterWorld_picked :
  map (picked standingCar 0) (coins (gameStateRef laterWorld)) =
  repeat (Coin.mk 400 900 true) 31 ++ [Coin.mk 400 500 true].
Proof.
  change (coins (gameStateRef laterWorld))
    with (repeat (Coin.mk 400 900 true) 31 ++ [Coin.mk 400 500 false]).
  rewrite map_app, map_repeat, (picked_taken standingCar 0 (Coin.mk 400 900 true) eq_refl).
  cbn [map].
  rewrite !picked_near by (unfold CANVAS_HEIGHT; lra). reflexivity.
Qed.

Lemma milestone_fires_once_witness :
  Sound milestoneWorld /\ Sound laterWorld /\
  score milestoneWorld = 280%Z /\ score laterWorld = 310%Z /\
  (exists w' out,
     play evenDraws [AnimationFrame] milestoneWorld = Ok (tt, w', out) /\
     score w' = 310%Z /\
     occurrences ThresholdReached out = 1%nat /\
     occurrences ProcessActionFlow out = 1%nat /\
     actionTriggeredRef w' = true) /\
  (exists w' out,
     play evenDraws [AnimationFrame] laterWorld = Ok (tt, w', out) /\
     score w' = 320%Z /\
     occurrences ThresholdReached out = 0%nat /\
     occurrences ProcessActionFlow out = 0%nat /\
     actionTriggeredRef w' = true).
Proof.
  split; [exact milestoneWorld_Sound|]. split; [exact laterWorld_Sound|].
  split; [reflexivity|]. split; [reflexivity|].
  pose proof (milestone_fires_once evenDraws [] [AnimationFrame]) as (_ & _ & Hfrom).
  split.
  - destruct (Hfrom milestoneWorld milestoneWorld_Sound)
      as (w' & out & Hplay & Hsound & _ & HT & HP & Hlatch).
    pose proof (standing_frame_coins evenDraws milestoneWorld _ eq_refl eq_refl
                  ltac:(simpl; discriminate) eq_refl eq_refl eq_refl milestoneWorld_picked)
      as Hcoins.
    unfold returns in Hcoins. rewrite Hplay in Hcoins.
    assert (Hscore : score w' = 310%Z).
    { rewrite (steady_score _ (proj1 Hsound)), Hcoins. reflexivity. }
    exists w', out. rewrite Hscore in *. auto.
  - destruct (Hfrom laterWorld laterWorld_Sound)
      as (w' & out & Hplay & Hsound & _ & HT & HP & Hlatch).
    pose proof (standing_frame_coins evenDraws laterWorld _ eq_refl eq_refl
                  ltac:(simpl; discriminate) eq_refl eq_refl eq_refl laterWorld_picked)
      as Hcoins.
    unfold returns in Hcoins. rewrite Hplay in Hcoins.
    assert (Hscore : score w' = 320%Z).
    { rewrite (steady_score _ (proj1 Hsound)), Hcoins. reflexivity. }
    exists w', out. rewrite Hscore in *. auto.
Defined.

(** ** A frame before the road exists *)

Lemma fails_after {A B : Type} (m : M A) (f : A -> M B) (w : World) :
  returns m w (fun a w1 _ => f a w1 = TypeError) -> bind m f w = TypeError.
Proof.
  unfold returns, bind. destruct (m w) as [[[a w1] o]|]; [|easy]. now intros ->.
Qed.

(** X23.  A running frame on an empty road stops with a [TypeError], with or
    without thrust: with thrust at the read of the last road point, without
    thrust when the road is drawn from [roadPath[0]].  (The mount effect
    and the reset button fill the road before any frame runs.) *)
Theorem frame_on_empty_road_fails (rnd : nat -> R) (w : World) :
  roadPath (gameStateRef w) = [] ->
  isPaused w = false -> isGameOver w = false ->
  gameLoop rnd w = TypeError.
Proof.
  intros Hroad Hp Ho. unfold gameLoop, gameLoop_with.
  set (I := fun w0 : World => roadPath (gameStateRef w0) = []).
  apply fails_after. apply returns_get. cbn beta. rewrite Hp, Ho. cbn [orb].
  apply fails_after. apply returns_getState. cbn beta.
  apply fails_after.
  apply (returns_weaken _ _ (fun _ w1 _ => I w1)).
  { apply returns_when. destruct (has _ _); [apply returns_modify|]; exact Hroad. }
  cbn beta. intros _ w1 _ H1.
  apply fails_after.
  apply (returns_weaken _ _ (fun _ w2 _ => I w2)).
  { apply returns_when. destruct (has _ _); [apply returns_modify|]; exact H1. }
  cbn beta. intros _ w2 _ H2.
  apply fails_after. apply returns_getState. cbn beta.
  destruct (has " " (keysPressed (gameStateRef w2))).
  - unfold bind at 1. unfold bind at 1. unfold bind at 1.
    cbn [modifyState modify setSpeed]. unfold bind at 1. cbn [getState].
    unfold bind at 1. fields. unfold I in H2. rewrite H2. reflexivity.
  - apply fails_after.
    apply (returns_weaken _ _ (fun _ w3 _ => I w3)).
    { step. apply returns_modify. exact H2. }
    cbn beta. intros _ w3 _ H3.
    apply fails_after. apply returns_getState. cbn beta. cbn [andb].
    apply fails_after. apply returns_ret.
    apply fails_after.
    apply (returns_weaken _ _ (fun _ w4 _ => I w4)).
    { apply returns_when. destruct (_ || _); [|exact H3].
      step. apply returns_emit. exact H3. }
    cbn beta. intros _ w4 _ H4.
    unfold bind at 1, drawRoad. unfold bind at 1. cbn [getState].
    unfold I in H4. rewrite H4. reflexivity.
Qed.

Lemma frame_on_empty_road_fails_witness :
  roadPath (gameStateRef initialWorld) = [] /\
  isPaused initialWorld = false /\ isGameOver initialWorld = false /\
  gameLoop evenDraws initialWorld = TypeError /\
  gameLoop evenDraws (with_state (with_keysPressed [" "%string]) initialWorld) = TypeError.
Proof.
  split; [reflexivity|]. split; [reflexivity|]. split; [reflexivity|]. split.
  - exact (frame_on_empty_road_fails evenDraws initialWorld eq_refl eq_refl eq_refl).
  - exact (frame_on_empty_road_fails evenDraws
             (with_state (with_keysPressed [" "%string]) initialWorld) eq_refl eq_refl eq_refl).
Defined.

(** ** The canister call *)

Open Scope string_scope.

Lemma startsWith_app (needle post : string) : startsWith (needle ++ post) needle = true.
Proof.
  induction needle as [|a needle IH]; [reflexivity|].
  cbn. now rewrite Ascii.eqb_refl, IH.
Qed.

Lemma startsWith_inv (s needle : string) :
  startsWith s needle = true -> exists post, s = needle ++ post.
Proof.
  revert s. induction needle as [|a needle IH]; intros s H.
  - exists s. reflexivity.
  - destruct s as [|b s]; [discriminate|]. cbn in H.
    apply andb_true_iff in H. destruct H as [Hab Hrest].
    apply Ascii.eqb_eq in Hab. subst b.
    destruct (IH s Hrest) as [post ->]. exists post. reflexivity.
Qed.

Lemma includes_unfold (s needle : string) :
  includes s needle =
  startsWith s needle ||
  match s with
  | EmptyString => false
  | String _ s' => includes s' needle
  end.
Proof. destruct s; reflexivity. Qed.

(** [includes] finds a text exactly when it is somewhere in the string. *)
Lemma includes_spec (s needle : string) :
  includes s needle = true <-> exists pre post, s = pre ++ needle ++ post.
Proof.
  split.
  - induction s as [|c s IH]; rewrite includes_unfold; intros H;
      apply orb_true_iff in H; destruct H as [H|H]; try discriminate.
    + destruct (startsWith_inv _ _ H) as [post Hpost]. exists "", post. exact Hpost.
    + destruct (startsWith_inv _ _ H) as [post Hpost]. exists "", post. exact Hpost.
    + destruct (IH H) as (pre & post & ->). exists (String c pre), post. reflexivity.
  - intros (pre & post & ->). induction pre as [|c pre IH].
    + rewrite includes_unfold. cbn [append]. now rewrite startsWith_app.
    + rewrite includes_unfold. cbn [append]. rewrite IH. apply orb_true_r.
Qed.

Lemma toLowerCase_app (a b : string) :
  toLowerCase (a ++ b) = toLowerCase a ++ toLowerCase b.
Proof. induction a as [|c a IH]; [reflexivity|]. cbn. now rewrite IH. Qed.

Lemma isUnrelatedError_word (pre word post : string) :
  In (toLowerCase word) ["datadog"; "rum"; "analytics"; "tracking"] ->
  isUnrelatedError (pre ++ word ++ post) = true.
Proof.
  intros Hword. unfold isUnrelatedError. rewrite !toLowerCase_app.
  assert (Hin : includes (toLowerCase pre ++ toLowerCase word ++ toLowerCase post)
                         (toLowerCase word) = true).
  { apply includes_spec. eauto. }
  set (text := toLowerCase pre ++ toLowerCase word ++ toLowerCase post) in *.
  destruct Hword as [H|[H|[H|[H|[]]]]]; rewrite <- H in Hin; rewrite Hin;
    rewrite ?orb_true_r; reflexivity.
Qed.

Lemma authenticated_passes (identity : Principal.t) :
  isUserAuthenticated (Some identity) = true ->
  Principal.isAnonymous identity || String.eqb (Principal.toString identity) "2vxsx-fae" = false.
Proof.
  unfold isUserAuthenticated.
  destruct (Principal.isAnonymous identity), (String.eqb _ _); cbn; congruence.
Qed.

(** X20.  A failed canister call is reported to the player as a success
    when its message has one of the words "datadog", "rum", "analytics" or
    "tracking" anywhere in it, in any letter case, also inside a longer word:
    with an authenticated identity, a ready actor and a clear latch, if
    [actor.processAction] rejects with an [Error] with such a message, then
    [mutationFn] fulfils instead of rejecting, so that the handler shows the
    tile without an error and the toast "Action processed successfully!". *)
Theorem unrelated_word_turns_failure_into_success
        (identity : Principal.t) (processAction : Actor) (tile : GameScreen.Tile)
        (pre word post : string) :
  isUserAuthenticated (Some identity) = true ->
  GameScreen.actionTriggeredRef tile = false ->
  In (toLowerCase word) ["datadog"; "rum"; "analytics"; "tracking"] ->
  processAction (ActionArg.mk "car_rush_won" []) =
    Failed (ErrorInstance (pre ++ word ++ post)) ->
  mutationFn (Some processAction) false (ActionArg.mk "car_rush_won" []) = Fulfilled /\
  GameScreen.handleScoreThresholdReached
    (GameScreen.mkHooks (Some identity) (Some processAction) false) tile =
  (GameScreen.mkTile true true None, [ToastSuccess "Action processed successfully!"]).
Proof.
  intros Hauth Hlatch Hword Hcall.
  assert (Hm : mutationFn (Some processAction) false (ActionArg.mk "car_rush_won" []) = Fulfilled).
  { unfold mutationFn. rewrite Hcall. cbn [errorMessageOf].
    now rewrite (isUnrelatedError_word pre word post Hword). }
  split; [exact Hm|].
  unfold GameScreen.handleScoreThresholdReached. rewrite Hlatch.
  cbn [GameScreen.identity GameScreen.actor GameScreen.isActorFetching].
  rewrite (authenticated_passes identity Hauth).
  unfold GameScreen.mutate. cbn [GameScreen.actor GameScreen.isActorFetching].
  rewrite Hm. reflexivity.
Qed.

Lemma unrelated_word_turns_failure_into_success_witness :
  GameScreen.handleScoreThresholdReached
    (readyHooks (Failed (ErrorInstance "Quorum not reached"))) blankTile =
  (GameScreen.mkTile true true None, [ToastSuccess "Action processed successfully!"]).
Proof.
  apply (unrelated_word_turns_failure_into_success
           (Principal.mk false "w7x7r-cok77-xa")
           (fun _ => Failed (ErrorInstance "Quorum not reached")) blankTile
           "Quo" "rum" " not reached").
  - reflexivity.
  - reflexivity.
  - simpl. auto.
  - reflexivity.
Defined.

(** X21.  The handler asks for the canister call at most once per latch:
    whatever the hooks give, after a call of the handler the latch is set,
    and a further call, with any hooks, changes nothing and shows nothing,
    also when the first call stopped at one of its checks (a failed check is
    not tried again before the reset button clears the latch).  The actor
    is asked for nothing but [processAction] of the action "car_rush_won"
    with no fields, and is not asked at all when the latch is set, when the
    identity is missing or anonymous (the test that [isUserAuthenticated]
    makes), or when the actor is still being fetched. *)
Theorem processAction_is_requested_once
        (hooks hooks' : GameScreen.Hooks) (tile : GameScreen.Tile) :
  let after := fst (GameScreen.handleScoreThresholdReached hooks tile) in
  let withActor (a : Actor) :=
    GameScreen.mkHooks (GameScreen.identity hooks) (Some a) (GameScreen.isActorFetching hooks) in
  GameScreen.actionTriggeredRef after = true /\
  GameScreen.handleScoreThresholdReached hooks' after = (after, []) /\
  (forall a a' : Actor,
     a (ActionArg.mk "car_rush_won" []) = a' (ActionArg.mk "car_rush_won" []) ->
     GameScreen.handleScoreThresholdReached (withActor a) tile =
     GameScreen.handleScoreThresholdReached (withActor a') tile) /\
  (GameScreen.actionTriggeredRef tile = true \/
   isUserAuthenticated (GameScreen.identity hooks) = false \/
   GameScreen.isActorFetching hooks = true ->
   forall a a' : Actor,
     GameScreen.handleScoreThresholdReached (withActor a) tile =
     GameScreen.handleScoreThresholdReached (withActor a') tile).
Proof.
  cbn zeta.
  assert (Hset : GameScreen.actionTriggeredRef
                   (fst (GameScreen.handleScoreThresholdReached hooks tile)) = true).
  { unfold GameScreen.handleScoreThresholdReached, GameScreen.mutate,
      GameScreen.onSuccess, GameScreen.onError.
    destruct (GameScreen.actionTriggeredRef tile) eqn:Hl; [exact Hl|].
    destruct (GameScreen.identity hooks) as [p|]; [|reflexivity].
    destruct (_ || _); [reflexivity|].
    destruct (GameScreen.actor hooks); [|reflexivity].
    destruct (GameScreen.isActorFetching hooks); [reflexivity|].
    destruct (mutationFn _ _ _); reflexivity. }
  split; [exact Hset|]. split; [|split].
  - unfold GameScreen.handleScoreThresholdReached at 1. now rewrite Hset.
  - intros a a' Hsame. unfold GameScreen.handleScoreThresholdReached, GameScreen.mutate, mutationFn.
    cbn [GameScreen.identity GameScreen.actor GameScreen.isActorFetching].
    now rewrite Hsame.
  - intros Hskip a a'. unfold GameScreen.handleScoreThresholdReached, GameScreen.mutate, mutationFn.
    cbn [GameScreen.identity GameScreen.actor GameScreen.isActorFetching].
    destruct (GameScreen.actionTriggeredRef tile); [reflexivity|].
    unfold isUserAuthenticated in Hskip.
    destruct (GameScreen.identity hooks) as [p|]; [|reflexivity].
    destruct (Principal.isAnonymous p), (String.eqb (Principal.toString p) "2vxsx-fae");
      cbn [orb negb andb] in *; try reflexivity.
    destruct (GameScreen.isActorFetching hooks); [reflexivity|].
    destruct Hskip as [H|[H|H]]; discriminate.
Qed.

Close Scope string_scope.

(** ** The short form of the principal *)

Open Scope string_scope.

Lemma length_of_chars (l : list Ascii.ascii) :
  String.length (string_of_list_ascii l) = List.length l.
Proof. induction l as [|c l IH]; [reflexivity|]. cbn. now rewrite IH. Qed.

Lemma length_of_append (a b : string) :
  String.length (a ++ b) = (String.length a + String.length b)%nat.
Proof. induction a as [|c a IH]; [reflexivity|]. cbn. now rewrite IH. Qed.

Lemma string_of_chars_app (l1 l2 : list Ascii.ascii) :
  string_of_list_ascii (l1 ++ l2)%list = string_of_list_ascii l1 ++ string_of_list_ascii l2.
Proof. induction l1 as [|c l1 IH]; [reflexivity|]. cbn. now rewrite IH. Qed.

Lemma chars_length (s : string) : List.length (list_ascii_of_string s) = String.length s.
Proof. induction s as [|c s IH]; [reflexivity|]. cbn. now rewrite IH. Qed.

(** The two slices of [shortPrincipal]: the first 8 characters and the last
    4, or all of them when there are fewer. *)
Lemma slice_first_8 (s : string) :
  slice s 0 (Some 8%Z) = string_of_list_ascii (firstn 8 (list_ascii_of_string s)).
Proof.
  unfold slice, sliceIndex. cbn [Z.ltb Z.compare Z.to_nat].
  set (l := list_ascii_of_string s).
  rewrite Nat.min_0_l, Nat.sub_0_r. cbn [skipn].
  change (Pos.to_nat 8) with 8%nat.
  destruct (Nat.le_ge_cases 8 (List.length l)) as [H|H].
  - now rewrite Nat.min_l.
  - rewrite Nat.min_r by exact H. rewrite !firstn_all2 by lia. reflexivity.
Qed.

Lemma slice_last_4 (s : string) :
  slice s (-4) None =
  string_of_list_ascii (skipn (List.length (list_ascii_of_string s) - 4) (list_ascii_of_string s)).
Proof.
  unfold slice, sliceIndex. cbn [Z.ltb Z.compare].
  set (l := list_ascii_of_string s).
  replace (Z.to_nat (Z.max (Z.of_nat (List.length l) + -4) 0)) with (List.length l - 4)%nat by lia.
  rewrite firstn_all2; [reflexivity|]. rewrite length_skipn. lia.
Qed.

(** X22.  The short form of the principal that the header shows is empty
    for an empty principal; otherwise it is the first 8 characters (all, if
    there are fewer), three dots and the last 4 characters (all, if there
    are fewer): a principal of n > 0 characters gives min(8, n) + 3 +
    min(4, n) characters, so at most 15, and more than the principal itself
    has when n < 15; a principal of at least 12 characters is cut into a
    first part of 8, a middle part and a last part of 4, and the short form
    has the dots in place of the middle part. *)
Theorem shortPrincipal_shape (principal : string) :
  let n := String.length principal in
  (principal = "" -> GameScreen.shortPrincipal principal = "") /\
  (principal <> "" ->
   String.length (GameScreen.shortPrincipal principal) = (Nat.min 8 n + 3 + Nat.min 4 n)%nat) /\
  ((12 <= n)%nat ->
   exists first middle last,
     principal = first ++ middle ++ last /\
     String.length first = 8%nat /\ String.length last = 4%nat /\
     GameScreen.shortPrincipal principal = first ++ "..." ++ last).
Proof.
  cbn zeta. split; [intros ->; reflexivity|].
  assert (Hshort : principal <> "" ->
            GameScreen.shortPrincipal principal =
            string_of_list_ascii (firstn 8 (list_ascii_of_string principal)) ++ "..." ++
            string_of_list_ascii
              (skipn (List.length (list_ascii_of_string principal) - 4)
                     (list_ascii_of_string principal))).
  { intros Hne. unfold GameScreen.shortPrincipal.
    destruct principal as [|c rest]; [easy|].
    now rewrite slice_first_8, slice_last_4. }
  pose proof (chars_length principal) as Hlen.
  set (l := list_ascii_of_string principal) in *.
  split.
  - intros Hne. rewrite (Hshort Hne), !length_of_append, !length_of_chars.
    rewrite length_firstn, length_skipn, Hlen. cbn [String.length]. lia.
  - intros Hn.
    assert (Hne : principal <> "") by (intros ->; cbn in Hn; lia).
    exists (string_of_list_ascii (firstn 8 l)),
           (string_of_list_ascii (firstn (List.length l - 12) (skipn 8 l))),
           (string_of_list_ascii (skipn (List.length l - 4) l)).
    split; [|split; [|split]].
    + rewrite <- !string_of_chars_app.
      rewrite <- (string_of_list_ascii_of_string principal) at 1. fold l. f_equal.
      rewrite <- (firstn_skipn 8 l) at 1. f_equal.
      rewrite <- (firstn_skipn (List.length l - 12) (skipn 8 l)) at 1. f_equal.
      rewrite skipn_skipn. f_equal. lia.
    + rewrite length_of_chars, length_firstn. lia.
    + rewrite length_of_chars, length_skipn. lia.
    + apply (Hshort Hne).
Qed.

(** *** Examples *)

Example shortPrincipal_of_anonymous :
  GameScreen.shortPrincipal
    (GameScreen.principal (GameScreen.mkHooks (Some (Principal.mk true "2vxsx-fae")) None true)) =
  "2vxsx-fa...-fae".
Proof. reflexivity. Qed.

Example shortPrincipal_without_identity :
  GameScreen.shortPrincipal (GameScreen.principal (GameScreen.mkHooks None None true)) = "".
Proof. reflexivity. Qed.

Example error_comes_before_reject_message :
  errorMessageOf
    (ThrownObject [("reject_message", JsString "Canister trapped"); ("error", JsString "bad")]
                  None) = "bad".
Proof. reflexivity. Qed.

Example tracking_inside_a_word :
  isUnrelatedError "Backtracking failed: quoRUM not reached" = true.
Proof. reflexivity. Qed.

Close Scope string_scope.
